(** * Okobit: the image-lifecycle store, its gallery index and its archive merge

    A shallow embedding of the persistence core of Okobit (a browser-local
    image-generation chat application built on Dexie/IndexedDB), together
    with the properties its specification states about it.

    - [types.ts]                     records [Chat], [Message], [ImageBlob], [Prompt], [AppConfig]
    - [db.ts]                        the four tables and the version-3 upgrade
    - [services/cleanupService.ts]   orphan sweeps, forced deletion, cascades
    - [services/dataService.ts]      [deleteMessagesSafe], [exportData], [importData]
    - [App.tsx], [Lightbox.tsx]      the handlers that write to the tables

    Tables with an inline primary key [id] are finite maps from the key to the
    remaining fields; a fetched record is the pair of its key and fields. *)

From stdpp Require Import gmap strings list fin_maps pretty.
From Stdlib Require Import ZArith.

Open Scope Z_scope.

(** ** types.ts *)

Record Blob := { blob_data : list Byte.byte; blob_type : string }.

Record Chat := {
    title : string;
    pinned : bool;
    orderIndex : Z;
    chat_createdAt : Z;
    updatedAt : Z
  }.

Inductive Role := user | model.

Record Tokens := {
    tok_prompt : Z; tok_output : Z; tok_thoughts : option Z; tok_total : Z
  }.

(** [meta.costUsd] is a floating-point figure that no table operation reads;
    it is not part of the record here. *)
Record Meta := {
    meta_model : string;
    modelVersion : option string;
    duration : string;
    tokens : option Tokens;
    finishReason : option string;
    safetyBlocked : option bool
  }.

(** [imageIds?: string[]]: the field may be absent. *)
Record Message := {
    chatId : string;
    role : Role;
    text : string;
    imageIds : option (list string);
    timestamp : Z;
    thoughts : option string;
    meta : option Meta;
    error : option bool
  }.

Record ImageBlob := {
    blob : Blob;
    thumbnail : option Blob;
    mimeType : string;
    createdAt : Z;
    isGalleryVisible : bool;
    galleryTimestamp : option Z
  }.

Inductive PromptType := recent | saved.

Record Prompt := {
    prompt_text : string;
    prompt_type : PromptType;
    prompt_timestamp : Z
  }.

Record Confirmations := {
    deleteProject : bool; deleteMessage : bool; deleteImage : bool;
    regenerate : bool; fork : bool; import : bool; factoryReset : bool
  }.

Record AppConfig := {
    apiKey : string;
    themeAccent : string;
    safetyThreshold : string;
    detailedVerbosity : bool;
    searchGrounding : bool;
    lightMode : bool;
    confirmations : Confirmations
  }.

(** ** db.ts: the database

    [prompts] has the auto-incremented key [++id]; [promptSeq] is the key
    generator of that table (the last key it handed out). *)

Record Store := {
    chats : gmap string Chat;
    messages : gmap string Message;
    images : gmap string ImageBlob;
    prompts : gmap N Prompt;
    promptSeq : N
  }.

Definition emptyStore : Store :=
  {| chats := ∅; messages := ∅; images := ∅; prompts := ∅; promptSeq := 0%N |}.

Definition setChats (f : gmap string Chat → gmap string Chat) (s : Store) : Store :=
  {| chats := f (chats s); messages := messages s; images := images s;
     prompts := prompts s; promptSeq := promptSeq s |}.

Definition setMessages (f : gmap string Message → gmap string Message) (s : Store) : Store :=
  {| chats := chats s; messages := f (messages s); images := images s;
     prompts := prompts s; promptSeq := promptSeq s |}.

Definition setImages (f : gmap string ImageBlob → gmap string ImageBlob) (s : Store) : Store :=
  {| chats := chats s; messages := messages s; images := f (images s);
     prompts := prompts s; promptSeq := promptSeq s |}.

(** The outcome of an asynchronous call: it resolves with a value or rejects. *)
Inductive outcome (A : Type) := Resolved (a : A) | Rejected.
Arguments Resolved {A} a.
Arguments Rejected {A}.

(** ** Dexie table primitives *)
Module Table.
Section Ops.
Context {V : Type}.
Implicit Types (t : gmap string V) (k : string) (ks : list string).

(** [table.toArray()]; the order of the rows is that of the map listing. *)
Definition toArray t : list (string * V) := map_to_list t.

(** [table.get(k)] *)
Definition get k t : option (string * V) := (λ v, (k, v)) <$> t !! k.

(** [table.bulkGet(ks)]: one entry per requested key, [None] where the key
    is missing. *)
Definition bulkGet ks t : list (option (string * V)) := (λ k, get k t) <$> ks.

(** [table.where('id').anyOf(ks).toArray()] *)
Definition whereIdAnyOf ks t : list (string * V) :=
  filter (λ r, r.1 ∈ ks) (toArray t).

(** [table.toCollection().primaryKeys()] *)
Definition primaryKeys t : list string := (toArray t).*1.

(** [table.delete(k)], [table.bulkDelete(ks)]: missing keys are ignored. *)
Definition bulkDelete ks t : gmap string V := foldl (λ acc k, delete k acc) t ks.

(** [table.update(k, changes)]: applies the changes to the record under
    [k]; nothing happens when the key is missing. *)
Definition update k (changes : V → V) t : gmap string V := alter changes k t.

(** [table.add(record)]: rejects with a constraint error when the key is
    taken. *)
Definition add k (v : V) t : outcome (gmap string V) :=
  match t !! k with
  | Some _ => Rejected
  | None => Resolved (<[k := v]> t)
  end.

(** [table.bulkAdd(records)]: every record is tried in turn; the call
    rejects when some key was taken.  The map returned next to the outcome
    holds the records that went in (what stays when the call is not inside
    a transaction). *)
Fixpoint bulkAdd (rs : list (string * V)) t : outcome unit * gmap string V :=
  match rs with
  | [] => (Resolved (), t)
  | (k, v) :: rs' =>
      match t !! k with
      | Some _ => (Rejected, (bulkAdd rs' t).2)
      | None =>
          let r := bulkAdd rs' (<[k := v]> t) in
          (r.1, r.2)
      end
  end.
End Ops.
End Table.

(** ** Transactions that can fail

    A store request may fail (quota, closed connection, aborted request).
    The schedule of failures is an input: each request consumes one flag of
    the schedule and rejects when the flag is set; an exhausted schedule means
    no further failure.  A rejection inside [db.transaction] aborts the
    transaction: the tables are as they were before it started and the
    transaction's promise rejects. *)
Module Tx.
Definition faults := list bool.

Definition t (A : Type) : Type := faults → Store → outcome (A * Store * faults).

Definition ret {A} (a : A) : t A := λ fl s, Resolved (a, s, fl).

Definition bind {A B} (m : t A) (k : A → t B) : t B := λ fl s,
  match m fl s with
  | Resolved (a, s', fl') => k a fl' s'
  | Rejected => Rejected
  end.

(** One request to the store: a read or a write. *)
Definition request {A} (f : Store → A * Store) : t A := λ fl s,
  match fl with
  | true :: _ => Rejected
  | false :: fl' => let '(a, s') := f s in Resolved (a, s', fl')
  | [] => let '(a, s') := f s in Resolved (a, s', [])
  end.

Definition read {A} (f : Store → A) : t A := request (λ s, (f s, s)).
Definition write (f : Store → Store) : t unit := request (λ s, ((), f s)).

(** [db.transaction('rw', ..., body)]: the body runs, then the commit is
    one more request.  The tables change only when all of it went through. *)
Definition transaction {A} (body : t A) (fl : faults) (s : Store)
  : outcome A * Store * faults :=
  match bind body (λ a, bind (read (λ _, ())) (λ _, ret a)) fl s with
  | Resolved (a, s', fl') => (Resolved a, s', fl')
  | Rejected => (Rejected, s, [])
  end.
End Tx.

Global Instance tx_ret : MRet Tx.t := @Tx.ret.
Global Instance tx_bind : MBind Tx.t := λ A B k m, Tx.bind m k.

(** ** services/cleanupService.ts *)
Module cleanupService.

(** A message is listed under [imageId] in the multi-entry index
    [*imageIds] when its [imageIds] array holds that id. *)
Definition indexedUnder (imageId : string) (m : Message) : bool :=
  match imageIds m with
  | Some ids => bool_decide (imageId ∈ ids)
  | None => false
  end.

(** [db.messages.where('imageIds').equals(imageId)] *)
Definition whereImageIdsEquals (imageId : string) (t : gmap string Message)
  : list (string * Message) :=
  filter (λ r, indexedUnder imageId r.2) (Table.toArray t).

Definition isImageReferenced (imageId : string) (s : Store) : bool :=
  let count := Z.of_nat (length (whereImageIdsEquals imageId (messages s))) in
  bool_decide (count > 0).

(** The candidate ids of a list of fetched messages:
    [messages.forEach(msg => msg.imageIds.forEach(id => set.add(id)))],
    then [Array.from(set)]: the ids without repetition (no write depends
    on their order). *)
Definition collectImageIds (msgs : list (string * Message)) : list string :=
  remove_dups (msgs ≫= λ r, default [] (imageIds r.2)).

Definition deleteImagesIfOrphaned (imageIds : list string) (s : Store) : Store :=
  if bool_decide (length imageIds = 0%nat) then s else
  let imgs := Table.whereIdAnyOf imageIds (images s) in
  let candidates := (filter (λ r, negb (isGalleryVisible r.2)) imgs).*1 in
  if bool_decide (length candidates = 0%nat) then s else
  let toDelete := filter (λ id, negb (isImageReferenced id s)) candidates in
  if bool_decide (0 < length toDelete)%nat
  then setImages (Table.bulkDelete toDelete) s
  else s.

(** [m.imageIds.filter(id => !imageIds.includes(id))] *)
Definition withoutIds (imageIds : list string) (ids : list string) : list string :=
  filter (λ id, id ∉ imageIds) ids.

(** [db.messages.where('imageIds').anyOf(imageIds).toArray()]: the index is
    walked once per distinct requested key, so a message listed under
    several of them is fetched several times. *)
Definition whereImageIdsAnyOf (imageIds : list string) (t : gmap string Message)
  : list (string * Message) :=
  remove_dups imageIds ≫= λ id, whereImageIdsEquals id t.

(** [db.messages.update(m.id, { imageIds: newIds })] *)
Definition setImageIds (newIds : list string) (m : Message) : Message :=
  {| chatId := chatId m; role := role m; text := text m;
     imageIds := Some newIds; timestamp := timestamp m;
     thoughts := thoughts m; meta := meta m; error := error m |}.

(** The body of the loop [for (const m of msgs)]; [r] is the fetched copy
    of the message, the new array is computed from that copy. *)
Definition forceDeleteStep (deleted : list string)
    (s : Store) (r : string * Message) : Store :=
  match imageIds r.2 with
  | Some old =>
      let newIds := withoutIds deleted old in
      if bool_decide (length newIds ≠ length old)
      then setMessages (Table.update r.1 (setImageIds newIds)) s
      else s
  | None => s
  end.

Definition forceDeleteImages (imageIds : list string) (s : Store) : Store :=
  if bool_decide (length imageIds = 0%nat) then s else
  let s1 := setImages (Table.bulkDelete imageIds) s in
  let msgs := whereImageIdsAnyOf imageIds (messages s1) in
  foldl (forceDeleteStep imageIds) s1 msgs.

Definition deleteMessagesWithCleanup (messageIds : list string) (s : Store) : Store :=
  if bool_decide (length messageIds = 0%nat) then s else
  let msgs := Table.whereIdAnyOf messageIds (messages s) in
  let candidateImageIds := collectImageIds msgs in
  let s1 := setMessages (Table.bulkDelete messageIds) s in
  if bool_decide (0 < length candidateImageIds)%nat
  then deleteImagesIfOrphaned candidateImageIds s1
  else s1.

(** [db.messages.where('chatId').equals(chatId).toArray()] *)
Definition whereChatIdEquals (cid : string) (t : gmap string Message)
  : list (string * Message) :=
  filter (λ r, chatId r.2 = cid) (Table.toArray t).

Definition deleteChatWithCleanup (cid : string) (s : Store) : Store :=
  let msgs := whereChatIdEquals cid (messages s) in
  let messageIds := msgs.*1 in
  let candidateImageIds := collectImageIds msgs in
  let s1 := setMessages (Table.bulkDelete messageIds) s in
  let s2 := setChats (delete cid) s1 in
  if bool_decide (0 < length candidateImageIds)%nat
  then deleteImagesIfOrphaned candidateImageIds s2
  else s2.

(** The loop [for (const id of candidates)] of the maintenance sweep: one
    index request per candidate. *)
Fixpoint unreferencedOf (candidates : list string) : Tx.t (list string) :=
  match candidates with
  | [] => mret []
  | id :: rest =>
      referenced ← Tx.read (isImageReferenced id);
      toDelete ← unreferencedOf rest;
      mret (if (referenced : bool) then toDelete else id :: toDelete)
  end.

Definition cleanupBody : Tx.t Z :=
  allImages ← Tx.read (λ s, Table.toArray (images s));
  let candidates :=
    (filter (λ r : string * ImageBlob, negb (isGalleryVisible r.2))
            (allImages : list (string * ImageBlob))).*1 in
  if bool_decide (length candidates = 0%nat) then mret 0 else
  toDelete ← unreferencedOf candidates;
  (if bool_decide (0 < length (toDelete : list string))%nat
   then Tx.write (setImages (Table.bulkDelete toDelete))
   else mret ());;
  mret (Z.of_nat (length toDelete)).

(** [try { return await db.transaction(...) } catch (e) { return 0 }] *)
Definition cleanupOrphanedImages (fl : Tx.faults) (s : Store) : outcome Z * Store :=
  match Tx.transaction cleanupBody fl s with
  | (Resolved n, s', _) => (Resolved n, s')
  | (Rejected, s', _) => (Resolved 0, s')
  end.

End cleanupService.

(** ** services/dataService.ts: deletion *)
Module dataService.
Import cleanupService.

(** The test made for one fetched image inside [deleteMessagesSafe]: it is
    put on the deletion list when it is not bookmarked and no message
    outside [messageIds] is listed under it. *)
Definition isReferencedElsewhere (messageIds : list string) (imageId : string)
    (s : Store) : bool :=
  let msgsUsingImage := (whereImageIdsEquals imageId (messages s)).*1 in
  existsb (λ msgId, bool_decide (msgId ∉ messageIds)) msgsUsingImage.

Definition deleteMessagesSafe (messageIds : list string) (s : Store) : Store :=
  let msgs := Table.bulkGet messageIds (messages s) in
  let validMessages := omap id msgs in
  let allImageIds := collectImageIds validMessages in
  let s1 :=
    if bool_decide (0 < length allImageIds)%nat then
      let imageIdsToCheck := allImageIds in
      let imgs := Table.bulkGet imageIdsToCheck (images s) in
      let imagesToDelete :=
        (filter (λ r, negb (isGalleryVisible r.2)
                      && negb (isReferencedElsewhere messageIds r.1 s))
                (omap id imgs)).*1 in
      if bool_decide (0 < length imagesToDelete)%nat
      then setImages (Table.bulkDelete imagesToDelete) s
      else s
    else s in
  setMessages (Table.bulkDelete messageIds) s1.

End dataService.


(** ** db.ts: the version-3 upgrade *)
Module OkobitDB.

(** [!img.galleryTimestamp]: the field is absent or 0. *)
Definition falsy (ts : option Z) : bool :=
  match ts with
  | None => true
  | Some t => bool_decide (t = 0)
  end.

Definition setGalleryTimestamp (ts : option Z) (img : ImageBlob) : ImageBlob :=
  {| blob := blob img; thumbnail := thumbnail img; mimeType := mimeType img;
     createdAt := createdAt img; isGalleryVisible := isGalleryVisible img;
     galleryTimestamp := ts |}.

(** The function given to [toCollection().modify]. *)
Definition upgradeImage (img : ImageBlob) : ImageBlob :=
  if isGalleryVisible img && falsy (galleryTimestamp img)
  then setGalleryTimestamp (Some (createdAt img)) img
  else img.

Definition upgradeV3 (s : Store) : Store := setImages (fmap upgradeImage) s.

End OkobitDB.

(** ** The gallery: bookmarking (App.tsx, Lightbox.tsx, GalleryView) *)
Module Gallery.

(** [update(id, { isGalleryVisible: true, galleryTimestamp: ts })] *)
Definition bookmark (ts : Z) (img : ImageBlob) : ImageBlob :=
  {| blob := blob img; thumbnail := thumbnail img; mimeType := mimeType img;
     createdAt := createdAt img; isGalleryVisible := true;
     galleryTimestamp := Some ts |}.

(** [update(id, { isGalleryVisible: false, galleryTimestamp: undefined })]:
    an [undefined] value removes the property. *)
Definition unbookmark (img : ImageBlob) : ImageBlob :=
  {| blob := blob img; thumbnail := thumbnail img; mimeType := mimeType img;
     createdAt := createdAt img; isGalleryVisible := false;
     galleryTimestamp := None |}.

(** [db.images.where('galleryTimestamp').above(0)]: the records that have
    the indexed field, with a value above 0. *)
Definition inIndexAbove0 (img : ImageBlob) : bool :=
  match galleryTimestamp img with
  | Some ts => bool_decide (0 < ts)
  | None => false
  end.

Definition whereGalleryTimestampAbove0 (t : gmap string ImageBlob)
  : list (string * ImageBlob) :=
  filter (λ r, inIndexAbove0 r.2) (Table.toArray t).

(** [db.images.filter(i => i.isGalleryVisible)] *)
Definition filterGalleryVisible (t : gmap string ImageBlob)
  : list (string * ImageBlob) :=
  filter (λ r, isGalleryVisible r.2) (Table.toArray t).

(** [db.images.where('galleryTimestamp').above(0).count()] *)
Definition countAbove0 (t : gmap string ImageBlob) : Z :=
  Z.of_nat (length (whereGalleryTimestampAbove0 t)).

(** [db.images.filter(i => i.isGalleryVisible).count()] *)
Definition countGalleryVisible (t : gmap string ImageBlob) : Z :=
  Z.of_nat (length (filterGalleryVisible t)).

(** What the user is shown when a handler refuses. *)
Inductive alert := GalleryFull | UnsupportedFile | ForkFailed.

End Gallery.

Module GalleryView.
(** [totalCount]: the count over the sparse index. *)
Definition totalCount (s : Store) : Z := Gallery.countAbove0 (images s).
End GalleryView.

Module Lightbox.
Import Gallery.

(** [imageId?: string]; [imageData] is the stored record of that id.
    [!imageId] also holds for the empty string. *)
Definition handleToggleBookmark (imageId : option string) (s : Store)
  : Store * option alert :=
  match imageId with
  | None => (s, None)
  | Some id =>
      if bool_decide (id = "") then (s, None) else
      match images s !! id with
      | None => (s, None)
      | Some imageData =>
          let isBookmarked := isGalleryVisible imageData in
          if isBookmarked then
            (setImages (Table.update id unbookmark) s, None)
          else
            let count := countAbove0 (images s) in
            if bool_decide (count >= 50) then (s, Some GalleryFull)
            else (setImages (Table.update id (bookmark (createdAt imageData))) s, None)
      end
  end.
End Lightbox.

(** The same handler with what the component holds when the button is
    pressed: [imageData] is the value of the live query
    [db.images.get(imageId)] as the lightbox last rendered it ([None] while
    it loads or when the image is gone), [isBookmarked] is
    [imageData?.isGalleryVisible], and the button reads "Remove from
    Gallery" when it is set and "Save to Gallery" otherwise. *)
Module LightboxComponent.
Import Gallery.

Definition isBookmarked (imageData : option ImageBlob) : bool :=
  match imageData with
  | Some data => isGalleryVisible data
  | None => false
  end.

Definition handleToggleBookmark (imageId : option string) (imageData : option ImageBlob)
    (s : Store) : Store * option alert :=
  match imageId, imageData with
  | Some id, Some data =>
      if bool_decide (id = "") then (s, None) else
      if isBookmarked imageData then
        (setImages (Table.update id unbookmark) s, None)
      else
        let count := countAbove0 (images s) in
        if bool_decide (count >= 50) then (s, Some GalleryFull)
        else (setImages (Table.update id (bookmark (createdAt data))) s, None)
  | _, _ => (s, None)
  end.

End LightboxComponent.

(** ** App.tsx: the handlers that write to the tables

    Identifiers come from [uuidv4()] and times from [Date.now()]; both are
    inputs of the handlers here, as is the current chat [activeChatId].
    Confirmation dialogs and view state are not part of the store; each
    handler is given by its sequence of table operations once confirmed.
    The prompt-history write that opens [handleSendMessage] touches the
    [prompts] table alone and is left out. *)
Module App.
Import Gallery cleanupService.

(** One attached file, after [getEffectiveMimeType], [optimizeInputImage]
    and [createThumbnail] have run on it. *)
Record NewFile := {
    effectiveType : option string;
    optimized : Blob;
    resized : bool;            (* [finalBlob !== file] *)
    thumb : Blob;
    imgId : string;
    fileNow : Z
  }.

(** [!effectiveType || effectiveType === 'application/octet-stream'] *)
Definition acceptedType (f : NewFile) : option string :=
  match effectiveType f with
  | None => None
  | Some ty =>
      if bool_decide (ty = "") || bool_decide (ty = "application/octet-stream")
      then None else Some ty
  end.

Definition finalMime (f : NewFile) (ty : string) : string :=
  if resized f && negb (bool_decide (blob_type (optimized f) = ""))
  then blob_type (optimized f) else ty.

Inductive stored :=
    | Stored (ids : list string)
    | Unsupported          (* the alert was shown and the handler returned *)
    | Threw.               (* [db.images.add] rejected *)

  (** The loop [for (const file of files)]: validate, store, remember the id.
    Every [db.images.add] is its own transaction, so the images stored
    before a refusal stay. *)
Fixpoint storeFiles (files : list NewFile) (acc : list string) (s : Store)
  : stored * Store :=
  match files with
  | [] => (Stored acc, s)
  | f :: rest =>
      match acceptedType f with
      | None => (Unsupported, s)
      | Some ty =>
          let record :=
            {| blob := optimized f; thumbnail := Some (thumb f);
               mimeType := finalMime f ty; createdAt := fileNow f;
               isGalleryVisible := false; galleryTimestamp := None |} in
          match Table.add (imgId f) record (images s) with
          | Rejected => (Threw, s)
          | Resolved t => storeFiles rest (acc ++ [imgId f]) (setImages (λ _, t) s)
          end
      end
  end.

Definition addMessage (k : string) (m : Message) (s : Store) : outcome Store :=
  match Table.add k m (messages s) with
  | Rejected => Rejected
  | Resolved t => Resolved (setMessages (λ _, t) s)
  end.

(** The body of [handleSendMessage] up to the call of [processGeneration]. *)
Definition handleSendMessage (activeChatId userMsgId text : string)
    (files : list NewFile) (now : Z) (s : Store) : Store * option alert :=
  match storeFiles files [] s with
  | (Unsupported, s1) => (s1, Some UnsupportedFile)
  | (Threw, s1) => (s1, None)
  | (Stored ids, s1) =>
      let msg := {| chatId := activeChatId; role := user; text := text;
                    imageIds := Some ids; timestamp := now;
                    thoughts := None; meta := None; error := None |} in
      match addMessage userMsgId msg s1 with
      | Resolved s2 => (s2, None)
      | Rejected => (s1, None)
      end
  end.

(** One generated image: [images[i]], [thumbnails[i]] and its fresh id. *)
Record Generated := {
    genId : string; genBlob : Blob; genThumb : Blob; genNow : Z
  }.

(** What [generateImageContentStream] came back with. *)
Inductive generation :=
  | Produced (responseText : string) (responseThoughts : option string)
             (imgs : list Generated) (info : Meta) (msgId : string) (now : Z)
  | Aborted
  | Failed.

Fixpoint saveGenerated (imgs : list Generated) (acc : list string) (s : Store)
  : outcome (list string) * Store :=
  match imgs with
  | [] => (Resolved acc, s)
  | g :: rest =>
      let record :=
        {| blob := genBlob g; thumbnail := Some (genThumb g);
           mimeType := blob_type (genBlob g); createdAt := genNow g;
           isGalleryVisible := false; galleryTimestamp := None |} in
      match Table.add (genId g) record (images s) with
      | Rejected => (Rejected, s)
      | Resolved t => saveGenerated rest (acc ++ [genId g]) (setImages (λ _, t) s)
      end
  end.

Definition setUpdatedAt (now : Z) (c : Chat) : Chat :=
  {| title := title c; pinned := pinned c; orderIndex := orderIndex c;
     chat_createdAt := chat_createdAt c; updatedAt := now |}.

(** The [catch] branch: an error-flagged model message (it has no
    [imageIds]).  When this write rejects too, nothing is written. *)
Definition recordFailure (chatId errId errorMsg : string) (now : Z) (s : Store) : Store :=
  let msg := {| chatId := chatId; role := model; text := errorMsg;
                imageIds := None; timestamp := now;
                thoughts := None; meta := None; error := Some true |} in
  match addMessage errId msg s with
  | Resolved s' => s'
  | Rejected => s
  end.

(** The writes of [processGeneration]. *)
Definition processGeneration (chatId : string) (g : generation)
    (errId errorMsg : string) (errNow : Z) (s : Store) : Store :=
  match g with
  | Aborted => s
  | Failed => recordFailure chatId errId errorMsg errNow s
  | Produced responseText responseThoughts imgs info msgId now =>
      match saveGenerated imgs [] s with
      | (Rejected, s1) => recordFailure chatId errId errorMsg errNow s1
      | (Resolved genImageIds, s1) =>
          let msg := {| chatId := chatId; role := model; text := responseText;
                        imageIds := Some genImageIds; timestamp := now;
                        thoughts := responseThoughts; meta := Some info;
                        error := None |} in
          match addMessage msgId msg s1 with
          | Rejected => recordFailure chatId errId errorMsg errNow s1
          | Resolved s2 => setChats (Table.update chatId (setUpdatedAt now)) s2
          end
      end
  end.

(** [db.messages.update(msgId, { text: newText, imageIds: finalImageIds })] *)
Definition setTextAndImageIds (newText : string) (ids : list string) (m : Message)
  : Message :=
  {| chatId := chatId m; role := role m; text := newText;
     imageIds := Some ids; timestamp := timestamp m;
     thoughts := thoughts m; meta := meta m; error := error m |}.

(** [db.messages.where('chatId').equals(activeChatId)
      .and(m => m.timestamp > targetMsg.timestamp).toArray()] *)
Definition laterThan (activeChatId : string) (targetMsg : Message) (s : Store)
  : list (string * Message) :=
  filter (λ r, timestamp r.2 > timestamp targetMsg)
         (whereChatIdEquals activeChatId (messages s)).

(** [performRegenerate] inside [handleEditMessage], up to the call of
    [processGeneration]. *)
Definition handleEditMessage (activeChatId msgId newText : string)
    (keptImageIds : list string) (newFiles : list NewFile) (s : Store)
  : Store * option alert :=
  match messages s !! msgId with
  | None => (s, None)
  | Some targetMsg =>
      let laterMessages := laterThan activeChatId targetMsg s in
      let s1 := deleteMessagesWithCleanup laterMessages.*1 s in
      match storeFiles newFiles keptImageIds s1 with
      | (Unsupported, s2) => (s2, Some UnsupportedFile)
      | (Threw, s2) => (s2, None)
      | (Stored finalImageIds, s2) =>
          let s3 :=
            match imageIds targetMsg with
            | Some old =>
                let removedIds := filter (λ id, id ∉ keptImageIds) old in
                if bool_decide (0 < length removedIds)%nat
                then deleteImagesIfOrphaned removedIds s2
                else s2
            | None => s2
            end in
          (setMessages (Table.update msgId (setTextAndImageIds newText finalImageIds)) s3,
           None)
      end
  end.

Definition copyInto (newChatId : string) (m : Message) : Message :=
  {| chatId := newChatId; role := role m; text := text m;
     imageIds := imageIds m; timestamp := timestamp m;
     thoughts := thoughts m; meta := meta m; error := error m |}.

(** [performFork]: [newId] gives the fresh id drawn for the copy of each
    message; [bulkAdd] runs outside a transaction. *)
Definition handleFork (activeChatId msgId newChatId : string)
    (newTitle : string) (newId : string → string) (now : Z) (s : Store)
  : Store * option alert :=
  match messages s !! msgId with
  | None => (s, None)
  | Some targetMsg =>
      let msgsToCopy :=
        filter (λ r, timestamp r.2 <= timestamp targetMsg)
               (whereChatIdEquals activeChatId (messages s)) in
      let c := {| title := newTitle; pinned := false; orderIndex := 0;
                  chat_createdAt := now; updatedAt := now |} in
      match Table.add newChatId c (chats s) with
      | Rejected => (s, Some ForkFailed)
      | Resolved t =>
          let s1 := setChats (λ _, t) s in
          let newMessages := (λ r, (newId r.1, copyInto newChatId r.2)) <$> msgsToCopy in
          match Table.bulkAdd newMessages (messages s1) with
          | (Resolved _, t') => (setMessages (λ _, t') s1, None)
          | (Rejected, t') => (setMessages (λ _, t') s1, Some ForkFailed)
          end
      end
  end.

(** The write of [createNewChat] (the branches that reuse an empty chat
    write nothing); a rejected [add] is caught and logged. *)
Definition createNewChat (id : string) (now : Z) (s : Store) : Store :=
  let c := {| title := "New Project"; pinned := false; orderIndex := 0;
              chat_createdAt := now; updatedAt := now |} in
  match Table.add id c (chats s) with
  | Rejected => s
  | Resolved t => setChats (λ _, t) s
  end.

Definition handleBulkUnbookmark (imageIds : list string) (s : Store) : Store :=
  foldl (λ acc id, setImages (Table.update id unbookmark) acc) s imageIds.

Definition handleToggleGallery (imageIds : list string) (s : Store)
  : Store * option alert :=
  let currentCount := countGalleryVisible (images s) in
  let imgs := Table.bulkGet imageIds (images s) in
  let validImages := omap id imgs in
  let anyUnsaved := existsb (λ r, negb (isGalleryVisible r.2)) validImages in
  if anyUnsaved then
    let availableSlots := 50 - currentCount in
    let toSave := filter (λ r, negb (isGalleryVisible r.2)) validImages in
    if bool_decide (Z.of_nat (length toSave) > availableSlots)
    then (s, Some GalleryFull)
    else (foldl (λ acc r, setImages (Table.update r.1 (bookmark (createdAt r.2))) acc)
                s toSave, None)
  else
    (foldl (λ acc r, setImages (Table.update r.1 unbookmark) acc) s validImages, None).

End App.

(** ** services/importExportService.ts

    The manifest [okobit_data.json] is kept as the value handed to
    [JSON.stringify] (and, on import, the value [JSON.parse] gives back); the
    zip container is the manifest plus the files of its [images/] folder. *)
Module importExportService.

(** An image entry of the manifest: metadata only. *)
Record ImageMeta := {
    metaId : string;
    metaMimeType : string;
    metaCreatedAt : Z;
    metaIsGalleryVisible : bool;
    metaGalleryTimestamp : option Z
  }.

Record Metadata := {
    version : Z;
    exportedAt : Z;
    config : AppConfig;
    metaChats : list (string * Chat);
    metaMessages : list (string * Message);
    metaPrompts : list (N * Prompt);
    metaImages : list ImageMeta
  }.

Record Archive := {
    okobit_data : Metadata;
    imagesFolder : gmap string Blob
  }.

(** [str.split(sep)] for a one-character separator. *)
Fixpoint split (sep : Ascii.ascii) (str : string) : list string :=
  match str with
  | EmptyString => [EmptyString]
  | String c rest =>
      if bool_decide (c = sep) then EmptyString :: split sep rest
      else match split sep rest with
           | piece :: pieces => String c piece :: pieces
           | [] => [String c EmptyString]
           end
  end.

(** [mimeType.split('/')[1] || 'bin'] *)
Definition extension (mime : string) : string :=
  match split (Ascii.Ascii true true true true false true false false) mime !! 1%nat with
  | Some ext => if bool_decide (ext = "") then "bin" else ext
  | None => "bin"
  end.

Definition fileName (id mime : string) : string := id +:+ "." +:+ extension mime.

(** [{ ...config, apiKey: '' }] *)
Definition sanitize (c : AppConfig) : AppConfig :=
  {| apiKey := ""; themeAccent := themeAccent c;
     safetyThreshold := safetyThreshold c;
     detailedVerbosity := detailedVerbosity c;
     searchGrounding := searchGrounding c; lightMode := lightMode c;
     confirmations := confirmations c |}.

Definition describe (r : string * ImageBlob) : ImageMeta :=
  {| metaId := r.1; metaMimeType := mimeType r.2; metaCreatedAt := createdAt r.2;
     metaIsGalleryVisible := isGalleryVisible r.2;
     metaGalleryTimestamp := galleryTimestamp r.2 |}.

Definition exportData (c : AppConfig) (now : Z) (s : Store) : Archive :=
  let imgs := Table.toArray (images s) in
  let exportConfig := sanitize c in
  let metadata :=
    {| version := 4; exportedAt := now; config := exportConfig;
       metaChats := Table.toArray (chats s);
       metaMessages := Table.toArray (messages s);
       metaPrompts := map_to_list (prompts s);
       metaImages := describe <$> imgs |} in
  {| okobit_data := metadata;
     imagesFolder :=
       foldl (λ folder r, <[fileName r.1 (mimeType r.2) := blob r.2]> folder) ∅ imgs |}.

(** *** Import *)

(** The parsed manifest: every collection may be missing; a prompt entry
    carries the id it had in the exporting store. *)
Record BackupData := {
    dataChats : option (list (string * Chat));
    dataMessages : option (list (string * Message));
    dataPrompts : option (list (option N * Prompt));
    dataImages : option (list ImageMeta);
    dataConfig : option AppConfig
  }.

(** A zip file: its data file (absent, or not parseable, as [None]) and the
    entries of its [images/] folder. *)
Record ZipFile := {
    dataFile : option BackupData;
    imageFiles : gmap string (list Byte.byte)
  }.

(** An image of the legacy single-document format, with its payload as a
    base64 string. *)
Record LegacyImage := {
    legacyId : string;
    legacyBlob : string;
    legacyMimeType : string;
    legacyCreatedAt : Z;
    legacyIsGalleryVisible : bool
  }.

Record LegacyData := {
    legacyChats : option (list (string * Chat));
    legacyMessages : option (list (string * Message));
    legacyPrompts : option (list (option N * Prompt));
    legacyImages : option (list LegacyImage);
    legacyConfig : option AppConfig
  }.

(** [file.type === 'application/json' || file.name.endsWith('.json')]
    selects the legacy reader. *)
Inductive BackupFile :=
  | JsonFile (data : option LegacyData)
  | ZipArchive (zip : ZipFile).

(** [db.prompts.bulkAdd(promptsToAdd)]: the entries have no id, the key
    generator numbers them. *)
Definition addPrompts (ps : list Prompt) (s : Store) : Store :=
  foldl (λ acc p,
           let k := (promptSeq acc + 1)%N in
           {| chats := chats acc; messages := messages acc; images := images acc;
              prompts := <[k := p]> (prompts acc); promptSeq := k |})
        s ps.

(** Insert the records whose id the table does not hold yet. *)
Definition addMissing {V} (rs : list (string * V)) (t : gmap string V)
  : outcome (gmap string V) :=
  let existingIds := Table.primaryKeys t in
  let newRecords := filter (λ r, r.1 ∉ existingIds) rs in
  if bool_decide (0 < length newRecords)%nat then
    match Table.bulkAdd newRecords t with
    | (Resolved _, t') => Resolved t'
    | (Rejected, _) => Rejected
    end
  else Resolved t.

(** Transaction 1 of [importData]; a rejection aborts it. *)
Definition mergeMetadata (data : BackupData) (s : Store) : outcome Store :=
  let afterChats :=
    match dataChats data with
    | Some cs =>
        if bool_decide (0 < length cs)%nat then
          match addMissing cs (chats s) with
          | Resolved t => Resolved (setChats (λ _, t) s)
          | Rejected => Rejected
          end
        else Resolved s
    | None => Resolved s
    end in
  match afterChats with
  | Rejected => Rejected
  | Resolved s1 =>
      let afterMessages :=
        match dataMessages data with
        | Some ms =>
            if bool_decide (0 < length ms)%nat then
              match addMissing ms (messages s1) with
              | Resolved t => Resolved (setMessages (λ _, t) s1)
              | Rejected => Rejected
              end
            else Resolved s1
        | None => Resolved s1
        end in
      match afterMessages with
      | Rejected => Rejected
      | Resolved s2 =>
          match dataPrompts data with
          | Some ps =>
              if bool_decide (0 < length ps)%nat
              then Resolved (addPrompts ps.*2 s2)
              else Resolved s2
          | None => Resolved s2
          end
      end
  end.

Section Importing.
(** [createThumbnail] of geminiService (canvas rescaling) and the
    browser's [atob] ([None] when it throws on a malformed string). *)
Variable createThumbnail : Blob → Blob.
Variable atob : string → option (list Byte.byte).

(** The record prepared for one image entry, when its file is in the
    archive under [{id}.{ext}] or under the bare id. *)
Definition prepare (zip : ZipFile) (imgMeta : ImageMeta)
  : option (string * ImageBlob) :=
  let filename := fileName (metaId imgMeta) (metaMimeType imgMeta) in
  let imgFile :=
    match imageFiles zip !! filename with
    | Some f => Some f
    | None => imageFiles zip !! metaId imgMeta
    end in
  match imgFile with
  | Some arrayBuffer =>
      let b := {| blob_data := arrayBuffer; blob_type := metaMimeType imgMeta |} in
      Some (metaId imgMeta,
            {| blob := b; thumbnail := Some (createThumbnail b);
               mimeType := metaMimeType imgMeta;
               createdAt := metaCreatedAt imgMeta;
               isGalleryVisible := metaIsGalleryVisible imgMeta;
               galleryTimestamp :=
                 if metaIsGalleryVisible imgMeta
                 then Some (if OkobitDB.falsy (metaGalleryTimestamp imgMeta)
                            then metaCreatedAt imgMeta
                            else default 0 (metaGalleryTimestamp imgMeta))
                 else None |})
  | None => None
  end.

Definition BATCH_SIZE : nat := 5.

(** One turn of the loop [for (let i = 0; i < total; i += BATCH_SIZE)];
    the [bulkAdd] is not inside a transaction.  The prepared records are
    taken in the order of the batch (in the source they are pushed as their
    promises complete; the order matters to the result only when two entries
    of one batch share an id). *)
Definition importBatch (zip : ZipFile) (all : list ImageMeta) (i : nat) (s : Store)
  : outcome unit * Store :=
  let batch := take BATCH_SIZE (drop i all) in
  let batchIds := metaId <$> batch in
  let existingIds := (Table.whereIdAnyOf batchIds (images s)).*1 in
  let candidates := filter (λ m, metaId m ∉ existingIds) batch in
  let itemsToAdd := omap (prepare zip) candidates in
  if bool_decide (0 < length itemsToAdd)%nat then
    match Table.bulkAdd itemsToAdd (images s) with
    | (r, t) => (r, setImages (λ _, t) s)
    end
  else (Resolved (), s).

(** The values [i] takes: 0, 5, 10, ... below [total]. *)
Definition batchStarts (total : nat) : list nat :=
  (λ k, k * BATCH_SIZE)%nat <$> seq 0 ((total + BATCH_SIZE - 1) / BATCH_SIZE)%nat.

Definition importBatches (zip : ZipFile) (all : list ImageMeta) (s : Store)
  : outcome unit * Store :=
  foldl (λ acc i,
           match acc with
           | (Resolved _, s') => importBatch zip all i s'
           | (Rejected, s') => (Rejected, s')
           end)
        (Resolved (), s) (batchStarts (length all)).

Definition importZip (zip : ZipFile) (s : Store)
  : outcome (option AppConfig) * Store :=
  match dataFile zip with
  | None => (Rejected, s)
  | Some data =>
      match mergeMetadata data s with
      | Rejected => (Rejected, s)
      | Resolved s1 =>
          match dataImages data with
          | Some imgs =>
              match importBatches zip imgs s1 with
              | (Resolved _, s2) => (Resolved (dataConfig data), s2)
              | (Rejected, s2) => (Rejected, s2)
              end
          | None => (Resolved (dataConfig data), s1)
          end
      end
  end.

(** [{ ...img, blob: new Blob(...), galleryTimestamp: ... }] *)
Definition hydrate (img : LegacyImage) : option (string * ImageBlob) :=
  match atob (legacyBlob img) with
  | None => None
  | Some bytes =>
      Some (legacyId img,
            {| blob := {| blob_data := bytes; blob_type := legacyMimeType img |};
               thumbnail := None;
               mimeType := legacyMimeType img;
               createdAt := legacyCreatedAt img;
               isGalleryVisible := legacyIsGalleryVisible img;
               galleryTimestamp :=
                 if legacyIsGalleryVisible img then Some (legacyCreatedAt img)
                 else None |})
  end.

(** [candidates.map(hydrate)]: rejects when [atob] throws on one entry. *)
Fixpoint hydrateAll (imgs : list LegacyImage) : outcome (list (string * ImageBlob)) :=
  match imgs with
  | [] => Resolved []
  | img :: rest =>
      match hydrate img, hydrateAll rest with
      | Some r, Resolved rs => Resolved (r :: rs)
      | _, _ => Rejected
      end
  end.

(** The single transaction of [importLegacyJson]. *)
Definition mergeLegacy (data : LegacyData) (s : Store) : outcome Store :=
  let afterChats :=
    match legacyChats data with
    | Some cs =>
        match addMissing cs (chats s) with
        | Resolved t => Resolved (setChats (λ _, t) s)
        | Rejected => Rejected
        end
    | None => Resolved s
    end in
  match afterChats with
  | Rejected => Rejected
  | Resolved s1 =>
      let afterMessages :=
        match legacyMessages data with
        | Some ms =>
            match addMissing ms (messages s1) with
            | Resolved t => Resolved (setMessages (λ _, t) s1)
            | Rejected => Rejected
            end
        | None => Resolved s1
        end in
      match afterMessages with
      | Rejected => Rejected
      | Resolved s2 =>
          let s3 :=
            match legacyPrompts data with
            | Some ps => addPrompts ps.*2 s2
            | None => s2
            end in
          match legacyImages data with
          | Some imgs =>
              let existing := Table.primaryKeys (images s3) in
              let candidates := filter (λ x, legacyId x ∉ existing) imgs in
              if bool_decide (0 < length candidates)%nat then
                match hydrateAll candidates with
                | Rejected => Rejected
                | Resolved hydratedImages =>
                    match Table.bulkAdd hydratedImages (images s3) with
                    | (Resolved _, t) => Resolved (setImages (λ _, t) s3)
                    | (Rejected, _) => Rejected
                    end
                end
              else Resolved s3
          | None => Resolved s3
          end
      end
  end.

Definition importLegacyJson (file : option LegacyData) (s : Store)
  : outcome (option AppConfig) * Store :=
  match file with
  | None => (Rejected, s)
  | Some data =>
      match mergeLegacy data s with
      | Rejected => (Rejected, s)
      | Resolved s' => (Resolved (legacyConfig data), s')
      end
  end.

Definition importData (file : BackupFile) (s : Store)
  : outcome (option AppConfig) * Store :=
  match file with
  | JsonFile data => importLegacyJson data s
  | ZipArchive zip => importZip zip s
  end.
End Importing.

End importExportService.

(** ** The operations a session can perform

    Every entry is one of the public operations above with its inputs; a
    reachable store is what a sequence of them makes of the empty database.
    [DeleteMessages] is [deleteMessagesWithCleanup], which the handlers
    [handleDeleteMessage], [handleRegenerate] and [handleRetry] call with the
    ids they collected; [DeleteImages] is [forceDeleteImages], called by
    [handleDeleteImage] and [handleBulkDeleteImages]. *)
Module Session.
Import Gallery.

Definition setTitle (t : string) (c : Chat) : Chat :=
  {| title := t; pinned := pinned c; orderIndex := orderIndex c;
     chat_createdAt := chat_createdAt c; updatedAt := updatedAt c |}.

Definition togglePinned (c : Chat) : Chat :=
  {| title := title c; pinned := negb (pinned c); orderIndex := orderIndex c;
     chat_createdAt := chat_createdAt c; updatedAt := updatedAt c |}.

Inductive op :=
  | CreateNewChat (id : string) (now : Z)
  | RenameChat (id title : string)
  | PinChat (id : string)
  | SendMessage (activeChatId userMsgId text : string) (files : list App.NewFile) (now : Z)
  | Generate (chatId : string) (g : App.generation) (errId errorMsg : string) (errNow : Z)
  | EditMessage (activeChatId msgId newText : string) (keptImageIds : list string)
                (newFiles : list App.NewFile)
  | Fork (activeChatId msgId newChatId newTitle : string) (newId : string → string) (now : Z)
  | DeleteMessages (messageIds : list string)
  | DeleteMessagesSafe (messageIds : list string)
  | DeleteChat (chatId : string)
  | DeleteImages (imageIds : list string)
  | BulkUnbookmark (imageIds : list string)
  | ToggleGallery (imageIds : list string)
  | ToggleBookmark (imageId : option string)
  | ImportData (file : importExportService.BackupFile)
  | StartupCleanup (fl : Tx.faults).

Section Run.
Variable createThumbnail : Blob → Blob.
Variable atob : string → option (list Byte.byte).

Definition run (o : op) (s : Store) : Store :=
  match o with
  | CreateNewChat id now => App.createNewChat id now s
  | RenameChat id t => setChats (Table.update id (setTitle t)) s
  | PinChat id => setChats (Table.update id togglePinned) s
  | SendMessage chat k text files now =>
      (App.handleSendMessage chat k text files now s).1
  | Generate chat g errId errorMsg errNow =>
      App.processGeneration chat g errId errorMsg errNow s
  | EditMessage chat k newText kept files =>
      (App.handleEditMessage chat k newText kept files s).1
  | Fork chat k newChat newTitle newId now =>
      (App.handleFork chat k newChat newTitle newId now s).1
  | DeleteMessages ks => cleanupService.deleteMessagesWithCleanup ks s
  | DeleteMessagesSafe ks => dataService.deleteMessagesSafe ks s
  | DeleteChat k => cleanupService.deleteChatWithCleanup k s
  | DeleteImages xs => cleanupService.forceDeleteImages xs s
  | BulkUnbookmark xs => App.handleBulkUnbookmark xs s
  | ToggleGallery xs => (App.handleToggleGallery xs s).1
  | ToggleBookmark x => (Lightbox.handleToggleBookmark x s).1
  | ImportData file => (importExportService.importData createThumbnail atob file s).2
  | StartupCleanup fl => (cleanupService.cleanupOrphanedImages fl s).2
  end.

Definition runAll (os : list op) (s : Store) : Store := foldl (λ acc o, run o acc) s os.

Definition reachable (s : Store) : Prop := ∃ os, s = runAll os emptyStore.
End Run.
End Session.

(** * The vocabulary of the properties

    Predicates and auxiliary functions in which the properties of the
    operations are stated. *)

(** [m] lists the image [x] in its [imageIds]. *)
Definition lists (m : Message) (x : string) : Prop :=
  ∃ ids, imageIds m = Some ids ∧ x ∈ ids.

(** Some message of the table lists [x]. *)
Definition referenced (x : string) (s : Store) : Prop :=
  ∃ k m, messages s !! k = Some m ∧ lists m x.

(** Some message whose id is not in [S] lists [x]. *)
Definition listedOutside (S : list string) (x : string) (s : Store) : Prop :=
  ∃ k m, (k ∉ S) ∧ messages s !! k = Some m ∧ lists m x.

(** Some message whose id is in [S] lists [x]. *)
Definition attachedIn (S : list string) (x : string) (s : Store) : Prop :=
  ∃ k m, k ∈ S ∧ messages s !! k = Some m ∧ lists m x.

(** What the orphan sweep removes: the requested ids that are stored, not
    bookmarked and not listed by any message. *)
Definition sweeps (ids : list string) (s : Store) (x : string) (img : ImageBlob) : bool :=
  bool_decide (x ∈ ids) && negb (isGalleryVisible img)
  && negb (cleanupService.isImageReferenced x s).

(** The message with the ids [deleted] taken out of its [imageIds]; the other
    ids keep their order, every other field is as it was. *)
Definition purge (deleted : list string) (m : Message) : Message :=
  match imageIds m with
  | Some old => cleanupService.setImageIds (filter (λ id, id ∉ deleted) old) m
  | None => m
  end.

(** The stored image under [x] is not bookmarked. *)
Definition unsaved (t : gmap string ImageBlob) (x : string) : bool :=
  match t !! x with
  | Some img => negb (isGalleryVisible img)
  | None => false
  end.

(** The distinct images of a request that are stored and not yet bookmarked. *)
Definition unsavedIn (ids : list string) (s : Store) : list string :=
  remove_dups (filter (λ x, unsaved (images s) x) ids).

(** A loop of [db.images.update]: for each element [a] of [l], the record
    under [key a] is changed by [change a]. *)
Definition updateEach {A : Type} (key : A → string) (change : A → ImageBlob → ImageBlob)
    (l : list A) (s : Store) : Store :=
  foldl (λ acc a, setImages (Table.update (key a) (change a)) acc) s l.

(** A failure flag is set among the first [n] flags of the schedule. *)
Definition faulty (n : nat) (fl : Tx.faults) : bool := bool_decide (true ∈ take n fl).

(** The ids the sweep examines, the ids it finds orphaned, and the number of
    store requests (commit included) one run of it makes. *)
Definition sweepCandidates (s : Store) : list string :=
  (filter (λ r : string * ImageBlob, negb (isGalleryVisible r.2))
          (Table.toArray (images s))).*1.

Definition sweepOrphans (s : Store) : list string :=
  filter (λ id, negb (cleanupService.isImageReferenced id s)) (sweepCandidates s).

Definition sweepRequests (s : Store) : nat :=
  if bool_decide (length (sweepCandidates s) = 0%nat) then 2
  else 1 + length (sweepCandidates s)
       + (if bool_decide (0 < length (sweepOrphans s))%nat then 1 else 0) + 1.

(** Every record of the list has its id in the table. *)
Definition held {V} (rs : list (string * V)) (t : gmap string V) : Prop :=
  ∀ r, r ∈ rs → is_Some (t !! r.1).

(** Every image of the list has its id in the table. *)
Definition heldImages (imgs : list importExportService.LegacyImage)
    (t : gmap string ImageBlob) : Prop :=
  ∀ img, img ∈ imgs → is_Some (t !! importExportService.legacyId img).

(** The key generator of [prompts] is at or above every key in use (the
    engine keeps it so). *)
Definition promptKeysOk (s : Store) : Prop :=
  ∀ k, is_Some (prompts s !! k) → (k ≤ promptSeq s)%N.

(** What transaction 1 does to [prompts]. *)
Definition withPrompts (ps : option (list (option N * Prompt))) (s : Store) : Store :=
  match ps with
  | Some ps =>
      if bool_decide (0 < length ps)%nat
      then importExportService.addPrompts ps.*2 s
      else s
  | None => s
  end.

(** What the legacy transaction does to [prompts]. *)
Definition withLegacyPrompts (ps : option (list (option N * Prompt))) (s : Store) : Store :=
  match ps with
  | Some ps => importExportService.addPrompts ps.*2 s
  | None => s
  end.

(** The number of prompt entries a backup file carries. *)
Definition promptEntries (file : importExportService.BackupFile) : nat :=
  match file with
  | importExportService.ZipArchive zip =>
      match importExportService.dataFile zip with
      | Some data => length (default [] (importExportService.dataPrompts data))
      | None => 0
      end
  | importExportService.JsonFile (Some data) =>
      length (default [] (importExportService.legacyPrompts data))
  | importExportService.JsonFile None => 0
  end.

(** The sparse index is exact with positive timestamps: an image has a
    [galleryTimestamp], and a positive one, exactly when it is bookmarked. *)
Definition exactIndex (s : Store) : Prop :=
  ∀ x img, images s !! x = Some img →
    (isGalleryVisible img = true ↔ ∃ ts, galleryTimestamp img = Some ts ∧ 0 < ts).

(** The sparse index of one record: the flag is set exactly when the
    timestamp is present. *)
Definition indexed (img : ImageBlob) : Prop :=
  isGalleryVisible img = true ↔ galleryTimestamp img ≠ None.

Definition sparseIndex (s : Store) : Prop :=
  ∀ x img, images s !! x = Some img → indexed img.

(** A record as [db.images.add] writes it for a new image. *)
Definition plain (img : ImageBlob) : Prop :=
  isGalleryVisible img = false ∧ galleryTimestamp img = None.

(** Every image of [s'] is an image of [s] or has an exact index. *)
Definition imagesFrom (s s' : Store) : Prop :=
  ∀ k v, images s' !! k = Some v → images s !! k = Some v ∨ indexed v.

(** Every stored image is bookmarked or listed by a stored message. *)
Definition imageInvariant (s : Store) : Prop :=
  ∀ x img, images s !! x = Some img → isGalleryVisible img = true ∨ referenced x s.

(** The ownership invariant as a test on a store. *)
Definition ownersOk (s : Store) : bool :=
  forallb (λ r : string * ImageBlob,
             isGalleryVisible r.2 || cleanupService.isImageReferenced r.1 s)
          (Table.toArray (images s)).

(** No stored message is lost or rewritten. *)
Definition keepsMessages (s s' : Store) : Prop :=
  ∀ k m, messages s !! k = Some m → messages s' !! k = Some m.

(** The condition under which an operation is shown to keep the ownership
    invariant.  Deletions, forced deletion, the sweep, forking and chat
    bookkeeping need none.  Sending and generating need the writes to go
    through (fresh ids, accepted files).  An unbookmark needs its images to
    be listed by a message.  An import needs every image it adds to be
    bookmarked or listed by a message of the resulting store.  An edit
    needs its new files to be stored and is covered only when it drops no
    attachment of the message. *)
Definition keepsOwners (createThumbnail : Blob → Blob)
    (atob : string → option (list Byte.byte)) (o : Session.op) (s : Store) : Prop :=
  match o with
  | Session.SendMessage _ k _ files _ =>
      (∃ ids s1, App.storeFiles files [] s = (App.Stored ids, s1)) ∧ messages s !! k = None
  | Session.Generate _ g _ _ _ =>
      match g with
      | App.Produced _ _ imgs _ k _ =>
          (∃ ids s1, App.saveGenerated imgs [] s = (Resolved ids, s1))
          ∧ messages s !! k = None
      | _ => True
      end
  | Session.EditMessage chat k _ kept files =>
      ∀ target, messages s !! k = Some target →
        (∀ x, lists target x → x ∈ kept)
        ∧ ∃ final s2,
            App.storeFiles files kept
              (cleanupService.deleteMessagesWithCleanup (App.laterThan chat target s).*1 s)
            = (App.Stored final, s2)
  | Session.BulkUnbookmark ids =>
      ∀ x, x ∈ ids → is_Some (images s !! x) → referenced x s
  | Session.ToggleGallery ids =>
      (∃ y, y ∈ ids ∧ unsaved (images s) y)
      ∨ (∀ x, x ∈ ids → is_Some (images s !! x) → referenced x s)
  | Session.ToggleBookmark x =>
      ∀ i img, x = Some i → images s !! i = Some img →
               isGalleryVisible img = true → referenced i s
  | Session.ImportData file =>
      let s' := (importExportService.importData createThumbnail atob file s).2 in
      ∀ x img, images s' !! x = Some img → images s !! x = None →
               isGalleryVisible img = true ∨ referenced x s'
  | _ => True
  end.

(** The configuration [c] with [k] as its stored API key. *)
Definition withApiKey (k : string) (c : AppConfig) : AppConfig :=
  {| apiKey := k; themeAccent := themeAccent c; safetyThreshold := safetyThreshold c;
     detailedVerbosity := detailedVerbosity c; searchGrounding := searchGrounding c;
     lightMode := lightMode c; confirmations := confirmations c |}.

(** ** Scenario stores

    Small concrete stores used to run the operations above. *)
Module Scenario.
Import cleanupService dataService.

Definition png : Blob := {| blob_data := []; blob_type := "image/png" |}.

Definition image (visible : bool) (ts : option Z) : ImageBlob :=
  {| blob := png; thumbnail := None; mimeType := "image/png"; createdAt := 1700000000000;
     isGalleryVisible := visible; galleryTimestamp := ts |}.

Definition message (chat : string) (ids : list string) (at_ : Z) : Message :=
  {| chatId := chat; role := user; text := "a prompt"; imageIds := Some ids;
     timestamp := at_; thoughts := None; meta := None; error := None |}.

Definition chat (name : string) : Chat :=
  {| title := name; pinned := false; orderIndex := 0;
     chat_createdAt := 1700000000000; updatedAt := 1700000000000 |}.

(** A chat A and its fork B: the messages M1 and M2 both list image X. *)
Definition forked : Store :=
  {| chats := {[ "A" := chat "Original"; "B" := chat "Original (Copy)" ]};
     messages := {[ "M1" := message "A" ["X"] 1; "M2" := message "B" ["X"] 1 ]};
     images := {[ "X" := image false None ]};
     prompts := ∅; promptSeq := 0%N |}.

(** Image X is bookmarked and listed by M1. *)
Definition bookmarkedX : Store :=
  {| chats := {[ "A" := chat "Original" ]};
     messages := {[ "M1" := message "A" ["X"] 1 ]};
     images := {[ "X" := image true (Some 1700000000000) ]};
     prompts := ∅; promptSeq := 0%N |}.

(** Fifty bookmarked images g0 .. g49 and one image X that is not
    bookmarked, listed by M1. *)
Definition fullGallery : Store :=
  {| chats := {[ "A" := chat "Original" ]};
     messages := {[ "M1" := message "A" ["X"] 1 ]};
     images :=
       <["X" := image false None]>
         (list_to_map ((λ n : nat, ("g" +:+ pretty n, image true (Some 1700000000000)))
                         <$> seq 0 50));
     prompts := ∅; promptSeq := 0%N |}.

(** X is listed by M1; O is neither listed nor bookmarked; G is bookmarked
    and listed by no message. *)
Definition withOrphan : Store :=
  {| chats := {[ "A" := chat "Original" ]};
     messages := {[ "M1" := message "A" ["X"] 1 ]};
     images := {[ "X" := image false None; "O" := image false None;
                  "G" := image true (Some 1700000000000) ]};
     prompts := ∅; promptSeq := 0%N |}.

(** A backup archive with one chat, one message listing X, one saved prompt
    and the image X with its file; and the thumbnail and base64 functions the
    scenarios run with. *)
Definition backup : importExportService.BackupFile :=
  importExportService.ZipArchive
    {| importExportService.dataFile :=
         Some {| importExportService.dataChats := Some [("A", chat "Original")];
                 importExportService.dataMessages := Some [("M1", message "A" ["X"] 1)];
                 importExportService.dataPrompts :=
                   Some [(Some 7%N, {| prompt_text := "a fox"; prompt_type := saved;
                                       prompt_timestamp := 1700000000000 |})];
                 importExportService.dataImages :=
                   Some [{| importExportService.metaId := "X";
                            importExportService.metaMimeType := "image/png";
                            importExportService.metaCreatedAt := 1700000000000;
                            importExportService.metaIsGalleryVisible := true;
                            importExportService.metaGalleryTimestamp := None |}];
                 importExportService.dataConfig := None |};
       importExportService.imageFiles := {[ "X.png" := [] ]} |}.

(** An accepted attachment that will be stored as image X. *)
Definition attachment : App.NewFile :=
  {| App.effectiveType := Some "image/png"; App.optimized := png; App.resized := false;
     App.thumb := png; App.imgId := "X"; App.fileNow := 1700000000002 |}.

(** A session: a message with the attachment X is sent, X is bookmarked,
    the message is deleted, X is unbookmarked. *)
Definition orphaning : list Session.op :=
  [ Session.CreateNewChat "A" 1700000000001;
    Session.SendMessage "A" "M1" "a fox" [attachment] 1700000000003;
    Session.ToggleGallery ["X"];
    Session.DeleteMessages ["M1"];
    Session.BulkUnbookmark ["X"] ].

(** One chat with one message that lists image X. *)
Definition single : Store :=
  {| chats := {[ "A" := chat "Original" ]};
     messages := {[ "M1" := message "A" ["X"] 1 ]};
     images := {[ "X" := image false None ]};
     prompts := ∅; promptSeq := 0%N |}.

Definition sameBlob (b : Blob) : Blob := b.
Definition noBase64 (_ : string) : option (list Byte.byte) := None.

Definition restored : Store :=
  (importExportService.importData sameBlob noBase64 backup emptyStore).2.
End Scenario.

(** * Further code

    The parts of the application outside the persistence core: the view
    state of [App.tsx], the sidebar, the prompt history, the file-type
    detection and the response stream of [geminiService.ts], and what an
    archive gives back when it is read.  Their properties are proved at the
    end of the file. *)

From stdpp Require Import sorting.

Open Scope Z_scope.

(** ** An archive that is written and read back

    [exportData] hands its manifest to [JSON.stringify] and its image blobs
    to the zip writer; [importData] gets the manifest from [JSON.parse] and
    the files of the [images/] folder as byte arrays.  A file is stored
    without the type of the blob it came from. *)
Module Backup.
Import importExportService.

Definition readBack (a : Archive) : BackupFile :=
  let m := okobit_data a in
  ZipArchive
    {| dataFile :=
         Some {| dataChats := Some (metaChats m);
                 dataMessages := Some (metaMessages m);
                 dataPrompts := Some ((λ r, (Some r.1, r.2)) <$> metaPrompts m);
                 dataImages := Some (metaImages m);
                 dataConfig := Some (config m) |};
       imageFiles := blob_data <$> imagesFolder a |}.

(** An image record as [importData] rebuilds it from its manifest entry
    and its file: the bytes, the type, the creation time and the gallery
    flag are those of the exported record; the blob is typed with the
    record's [mimeType], the thumbnail is made anew, and the index field is
    restored or inferred. *)
Definition rebuilt (createThumbnail : Blob → Blob) (img : ImageBlob) : ImageBlob :=
  let b := {| blob_data := blob_data (blob img); blob_type := mimeType img |} in
  {| blob := b; thumbnail := Some (createThumbnail b);
     mimeType := mimeType img; createdAt := createdAt img;
     isGalleryVisible := isGalleryVisible img;
     galleryTimestamp :=
       if isGalleryVisible img
       then Some (if OkobitDB.falsy (galleryTimestamp img) then createdAt img
                  else default 0 (galleryTimestamp img))
       else None |}.

(** No two stored images get the same file name in the archive. *)
Definition distinctFiles (s : Store) : Prop :=
  ∀ x y a b, images s !! x = Some a → images s !! y = Some b →
             fileName x (mimeType a) = fileName y (mimeType b) → x = y.

End Backup.

(** ** JavaScript values and array methods used by the view code *)
Module Js.

(** A synchronous call returns a value or throws. *)
Inductive completion (A : Type) := Normal (a : A) | Throw.
Arguments Normal {A} a.
Arguments Throw {A}.

(** [!!str]: a string is falsy exactly when it is empty. *)
Definition truthy (str : string) : bool := negb (bool_decide (str = "")).

(** [a % b] on integers: the sign of the result is that of [a]; the
    result is [NaN] ([None]) when [b] is 0. *)
Definition remainder (a b : Z) : option Z :=
  if bool_decide (b = 0) then None else Some (Z.rem a b).

(** [array[i]] for an integer [i]: [undefined] ([None]) out of range. *)
Definition item {A} (l : list A) (i : Z) : option A :=
  if bool_decide (0 ≤ i) then l !! Z.to_nat i else None.

(** [array.findIndex(p)]: the index of the first element that satisfies
    [p], or -1. *)
Fixpoint findIndexFrom {A} (p : A → bool) (i : Z) (l : list A) : Z :=
  match l with
  | [] => -1
  | x :: rest => if p x then i else findIndexFrom p (i + 1) rest
  end.

Definition findIndex {A} (p : A → bool) (l : list A) : Z := findIndexFrom p 0 l.

(** [array.sort(cmp)].  The sort is stable and, for a comparator that
    orders the elements consistently, its result is the one sorted
    arrangement in which elements that compare equal keep their order;
    an insertion sort computes it: each element goes in front of the first
    later element it does not compare greater than. *)
Fixpoint insertSorted {A} (cmp : A → A → Z) (x : A) (l : list A) : list A :=
  match l with
  | [] => [x]
  | y :: rest =>
      if bool_decide (cmp x y ≤ 0) then x :: y :: rest
      else y :: insertSorted cmp x rest
  end.

Definition sort {A} (cmp : A → A → Z) (l : list A) : list A :=
  foldr (insertSorted cmp) [] l.

End Js.

(** ** The order of the primary keys

    A table, and an index among the rows of one index value, lists its
    rows in the order of the primary key.  The keys of [chats], [messages]
    and [images] are strings ([uuidv4()]); IndexedDB compares them
    character by character, a proper prefix first. *)
Module KeyOrder.

Definition compareKeys (a b : string) : Z :=
  match String.compare a b with
  | Lt => -1
  | Eq => 0
  | Gt => 1
  end.

(** The rows of a listing, put in the order of their keys. *)
Definition byPrimaryKey {V} (rows : list (string * V)) : list (string * V) :=
  Js.sort (λ a b, compareKeys a.1 b.1) rows.

(** [a] comes before [b] on the field [f] or, with the same value of the
    field, in the order [K]. *)
Definition fieldThen {A} (f : A → Z) (K : A → A → Prop) (a b : A) : Prop :=
  f a < f b ∨ (f a = f b ∧ K a b).

End KeyOrder.

(** ** components/Sidebar.tsx *)
Module Sidebar.

(** [(a, b) => { if (a.pinned !== b.pinned) return a.pinned ? -1 : 1;
                 return b.updatedAt - a.updatedAt; }] *)
Definition compareChats (a b : string * Chat) : Z :=
  if bool_decide (pinned a.2 ≠ pinned b.2)
  then (if pinned a.2 then -1 else 1)
  else updatedAt b.2 - updatedAt a.2.

(** [const sortedChats = [...chats].sort(...)] *)
Definition sortedChats (chats : list (string * Chat)) : list (string * Chat) :=
  Js.sort compareChats chats.

End Sidebar.

(** ** App.tsx: view state

    The handlers of [App] that work on the component's state: the drag
    overlay, the keyboard navigation between chats, the lightbox. *)
Module AppView.

(** *** Drag and drop: [dragCounter] (a ref), [isDragging] and
    [attachedFiles] (state) *)
Record DragState := {
    dragCounter : Z;
    isDragging : bool;
    attachedFiles : list Blob
  }.

Definition initialDrag : DragState :=
  {| dragCounter := 0; isDragging := false; attachedFiles := [] |}.

(** What a drag handler reads besides the drag state: whether the lightbox
    is open ([lightboxData]) and whether the gallery is shown
    ([currentView === 'gallery']). *)
Record Surroundings := { lightboxOpen : bool; galleryShown : bool }.

(** [items]: the length of [e.dataTransfer.items] (0 when it is missing). *)
Definition handleDragEnter (env : Surroundings) (items : nat) (st : DragState)
  : DragState :=
  if lightboxOpen env then st else
  if galleryShown env then st else
  {| dragCounter := dragCounter st + 1;
     isDragging := if bool_decide (0 < items)%nat then true else isDragging st;
     attachedFiles := attachedFiles st |}.

Definition handleDragLeave (st : DragState) : DragState :=
  let counter := dragCounter st - 1 in
  if bool_decide (counter ≤ 0)
  then {| dragCounter := 0; isDragging := false; attachedFiles := attachedFiles st |}
  else {| dragCounter := counter; isDragging := isDragging st;
          attachedFiles := attachedFiles st |}.

Definition handleDragOver (st : DragState) : DragState := st.

(** [files]: [Array.from(e.dataTransfer.files)]. *)
Definition handleDrop (env : Surroundings) (files : list Blob) (st : DragState)
  : DragState :=
  let st1 := {| dragCounter := 0; isDragging := false;
                attachedFiles := attachedFiles st |} in
  if lightboxOpen env then st1 else
  if galleryShown env then st1 else
  if bool_decide (0 < length files)%nat
  then {| dragCounter := 0; isDragging := false;
          attachedFiles := attachedFiles st ++ files |}
  else st1.

Definition handleDragCancel (st : DragState) : DragState :=
  {| dragCounter := 0; isDragging := false; attachedFiles := attachedFiles st |}.

Inductive DragEvent :=
  | DragEnter (env : Surroundings) (items : nat)
  | DragLeave
  | DragOver
  | Drop (env : Surroundings) (files : list Blob)
  | DragCancel.

Definition onDragEvent (st : DragState) (e : DragEvent) : DragState :=
  match e with
  | DragEnter env items => handleDragEnter env items st
  | DragLeave => handleDragLeave st
  | DragOver => handleDragOver st
  | Drop env files => handleDrop env files st
  | DragCancel => handleDragCancel st
  end.

(** *** Alt+ArrowDown / Alt+ArrowUp: the next or previous chat

    [chats] is the live list ([None] while it loads).  The result is the
    new [activeChatId]; reading [.id] of a missing entry would throw. *)
Definition switchChat (isNext isPrev : bool) (chats : option (list (string * Chat)))
    (activeChatId : option string) : Js.completion (option string) :=
  match chats, activeChatId with
  | Some chats, Some active =>
      if (isNext || isPrev) && bool_decide (1 < length chats)%nat && Js.truthy active
      then
        let currentIndex := Js.findIndex (λ c, bool_decide (c.1 = active)) chats in
        if bool_decide (currentIndex ≠ -1) then
          let len := Z.of_nat (length chats) in
          let nextIndex :=
            if isNext then Js.remainder (currentIndex + 1) len
            else Js.remainder (currentIndex - 1 + len) len in
          match nextIndex ≫= Js.item chats with
          | Some c => Js.Normal (Some c.1)
          | None => Js.Throw
          end
        else Js.Normal activeChatId
      else Js.Normal activeChatId
  | _, _ => Js.Normal activeChatId
  end.

(** *** The lightbox: [lightboxData] *)
Record LightboxData := {
    shown : Blob;                         (* [blob] *)
    idx : Z;
    context : list (Blob * string)        (* [{ blob, id }] *)
  }.

(** [imageId={lightboxData.context[lightboxData.idx]?.id}] *)
Definition imageId (d : LightboxData) : option string := snd <$> Js.item (context d) (idx d).

Definition onNext (d : LightboxData) : Js.completion LightboxData :=
  match Js.remainder (idx d + 1) (Z.of_nat (length (context d))) with
  | Some nextIdx =>
      match Js.item (context d) nextIdx with
      | Some c => Js.Normal {| shown := c.1; idx := nextIdx; context := context d |}
      | None => Js.Throw
      end
  | None => Js.Throw
  end.

Definition onPrev (d : LightboxData) : Js.completion LightboxData :=
  let len := Z.of_nat (length (context d)) in
  match Js.remainder (idx d - 1 + len) len with
  | Some prevIdx =>
      match Js.item (context d) prevIdx with
      | Some c => Js.Normal {| shown := c.1; idx := prevIdx; context := context d |}
      | None => Js.Throw
      end
  | None => Js.Throw
  end.

(** [handleChatImageClick]: [activeChatMessages] is the live list of the
    messages of the active chat. *)
Definition handleChatImageClick (clicked : Blob) (clickedId : string)
    (activeChatMessages : list (string * Message)) (s : Store) : LightboxData :=
  let allImageIds := activeChatMessages ≫= λ msg, default [] (imageIds msg.2) in
  let imgs := Table.bulkGet allImageIds (images s) in
  let ctx := (λ img : string * ImageBlob, (blob img.2, img.1)) <$> omap id imgs in
  let i := Js.findIndex (λ c : Blob * string, bool_decide (c.2 = clickedId)) ctx in
  if bool_decide (i ≠ -1)
  then {| shown := clicked; idx := i; context := ctx |}
  else {| shown := clicked; idx := 0; context := [(clicked, clickedId)] |}.

End AppView.

(** ** The [prompts] table

    Its primary key is the auto-incremented number [id]; a collection over
    the index [type] lists its rows in the order of their keys. *)
#[global] Instance PromptType_eq_dec : EqDecision PromptType.
Proof. solve_decision. Defined.

Module PromptTable.

(** The rows in the order of their keys. *)
Definition toArray (t : gmap N Prompt) : list (N * Prompt) :=
  Js.sort (λ a b, Z.of_N a.1 - Z.of_N b.1) (map_to_list t).

(** [db.prompts.where('type').equals(ty)] *)
Definition whereTypeEquals (ty : PromptType) (t : gmap N Prompt) : list (N * Prompt) :=
  filter (λ r, prompt_type r.2 = ty) (toArray t).

(** [collection.sortBy('timestamp')]: the rows are fetched, then sorted by
    [Array.prototype.sort] on the field. *)
Definition sortByTimestamp (rows : list (N * Prompt)) : list (N * Prompt) :=
  Js.sort (λ a b, prompt_timestamp a.2 - prompt_timestamp b.2) rows.

(** [collection.filter(p => p.text === text).first()] *)
Definition firstWithText (text : string) (rows : list (N * Prompt)) : option (N * Prompt) :=
  head (filter (λ r, prompt_text r.2 = text) rows).

(** [db.prompts.add(p)] for a record without [id]: the key generator
    numbers it. *)
Definition add (p : Prompt) (s : Store) : Store := importExportService.addPrompts [p] s.

(** [db.prompts.delete(id)], [db.prompts.bulkDelete(ids)] *)
Definition bulkDelete (ids : list N) (s : Store) : Store :=
  {| chats := chats s; messages := messages s; images := images s;
     prompts := foldl (λ acc k, delete k acc) (prompts s) ids;
     promptSeq := promptSeq s |}.

End PromptTable.

(** ** The prompt history: [App.tsx], [PromptHistoryModal.tsx] and the
    bookmark button of [ChatView.tsx] *)
Module PromptHistory.
Import PromptTable.

Section Trim.
(** [String.prototype.trim] *)
Variable trim : string → string.

(** The history write that opens [handleSendMessage]:
    [if (text.trim()) { add; count; if (count > 20) { sortBy; slice;
    bulkDelete } }]. *)
Definition saveToHistory (text : string) (now : Z) (s : Store) : Store :=
  if Js.truthy (trim text) then
    let s1 := add {| prompt_text := trim text; prompt_type := recent;
                     prompt_timestamp := now |} s in
    let count := length (whereTypeEquals recent (prompts s1)) in
    if bool_decide (20 < count)%nat then
      let oldest := sortByTimestamp (whereTypeEquals recent (prompts s1)) in
      let toDelete := take (count - 20) oldest in
      let ids := toDelete.*1 in
      bulkDelete ids s1
    else s1
  else s.

(** [handleSavePrompt] of [App.tsx] *)
Definition handleSavePrompt (text : string) (now : Z) (s : Store) : Store :=
  match firstWithText (trim text) (whereTypeEquals saved (prompts s)) with
  | Some _ => s
  | None => add {| prompt_text := trim text; prompt_type := saved;
                   prompt_timestamp := now |} s
  end.

(** [handleBookmarkPrompt] of a message item of [ChatView.tsx];
    [onSavePrompt] is [handleSavePrompt]. *)
Definition handleBookmarkPrompt (msgText : string) (now : Z) (s : Store) : Store :=
  if Js.truthy msgText then
    match firstWithText msgText (whereTypeEquals saved (prompts s)) with
    | Some existing => bulkDelete [existing.1] s
    | None => handleSavePrompt msgText now s
    end
  else s.

End Trim.

(** [handleToggleSaved] of [PromptHistoryModal.tsx]:
    [where({ type: 'saved', text: prompt.text })] walks the index [type]
    and filters on [text]. *)
Definition handleToggleSaved (prompt : Prompt) (now : Z) (s : Store) : Store :=
  match firstWithText (prompt_text prompt) (whereTypeEquals saved (prompts s)) with
  | Some existing => bulkDelete [existing.1] s
  | None => add {| prompt_text := prompt_text prompt; prompt_type := saved;
                   prompt_timestamp := now |} s
  end.

Definition handleDelete (id : N) (s : Store) : Store := bulkDelete [id] s.

(** [handleBulkDelete]: [selectedIds] as [Array.from] lists it. *)
Definition handleBulkDelete (selectedIds : list N) (s : Store) : Store :=
  if bool_decide (length selectedIds = 0%nat) then s else bulkDelete selectedIds s.

Definition handleClearRecent (s : Store) : Store :=
  let recentPrompts := whereTypeEquals recent (prompts s) in
  bulkDelete recentPrompts.*1 s.

End PromptHistory.

(** The saved prompts whose text is [text], and the recent prompts. *)
Definition savedWith (text : string) (s : Store) : list (N * Prompt) :=
  filter (λ r, prompt_text r.2 = text) (PromptTable.whereTypeEquals saved (prompts s)).

Definition recentPrompts (s : Store) : list (N * Prompt) :=
  PromptTable.whereTypeEquals recent (prompts s).

(** ** Sample values for the properties of the further code *)
Module Examples.

(** A [trim] that strips the space character from both ends. *)
Fixpoint dropSpaces (str : string) : string :=
  match str with
  | String c rest =>
      if bool_decide (c = Ascii.Ascii false false false false false true false false)
      then dropSpaces rest else str
  | EmptyString => EmptyString
  end.

Definition trimSpaces (str : string) : string :=
  String.rev (dropSpaces (String.rev (dropSpaces str))).

(** A history of 20 recent prompts with the timestamps 1 to 20 and one saved
    prompt. *)
Definition fullHistory : Store :=
  PromptTable.add
    {| prompt_text := "a fox"; prompt_type := saved; prompt_timestamp := 21 |}
    (foldl (λ acc i, PromptTable.add {| prompt_text := "prompt " +:+ pretty i;
                                        prompt_type := recent;
                                        prompt_timestamp := Z.of_nat i |} acc)
           emptyStore (seq 1 20)).

(** [DEFAULT_CONFIG] of [App.tsx], and a configuration with a key. *)
Definition DEFAULT_CONFIG : AppConfig :=
  {| apiKey := ""; themeAccent := "#FABB10";
     safetyThreshold := "BLOCK_MEDIUM_AND_ABOVE";
     detailedVerbosity := false; searchGrounding := false; lightMode := false;
     confirmations :=
       {| deleteProject := true; deleteMessage := true; deleteImage := true;
          regenerate := true; fork := true; import := true; factoryReset := true |} |}.

Definition withKey : AppConfig := withApiKey "AIza-local" DEFAULT_CONFIG.

(** A model message that lists the generated image Y. *)
Definition reply (chat : string) (ids : list string) (sentAt : Z) : Message :=
  {| chatId := chat; role := model; text := "here it is"; imageIds := Some ids;
     timestamp := sentAt; thoughts := None; meta := None; error := None |}.

(** Chat A holds a prompt with the attachment X and the reply with the
    image Y; chat E has no message. *)
Definition dialogue : Store :=
  {| chats := {[ "A" := Scenario.chat "Fox"; "E" := Scenario.chat "New Project" ]};
     messages := {[ "U1" := Scenario.message "A" ["X"] 1; "R1" := reply "A" ["Y"] 2 ]};
     images := {[ "X" := Scenario.image false None; "Y" := Scenario.image false None ]};
     prompts := ∅; promptSeq := 0%N |}.

(** The context of a lightbox over three images. *)
Definition gallery3 : list (Blob * string) :=
  [ ({| blob_data := []; blob_type := "image/png" |}, "X");
    ({| blob_data := []; blob_type := "image/jpeg" |}, "Y");
    ({| blob_data := []; blob_type := "image/webp" |}, "Z") ].

(** Chat A holds a prompt; the chats B and C have no message. *)
Definition threeChats : Store :=
  {| chats := {[ "A" := Scenario.chat "Fox"; "B" := Scenario.chat "New Project";
                 "C" := Scenario.chat "New Project" ]};
     messages := {[ "U1" := Scenario.message "A" [] 1 ]};
     images := ∅; prompts := ∅; promptSeq := 0%N |}.

End Examples.

(** ** services/geminiService.ts: the type of an attached file *)
Module geminiService.

Definition MIME_MAP : list (string * string) :=
  [ ("png", "image/png"); ("jpg", "image/jpeg"); ("jpeg", "image/jpeg");
    ("webp", "image/webp"); ("heic", "image/heic"); ("heif", "image/heif");
    ("gif", "image/gif"); ("bmp", "image/bmp"); ("tiff", "image/tiff");
    ("pdf", "application/pdf"); ("txt", "text/plain"); ("csv", "text/csv");
    ("md", "text/markdown"); ("markdown", "text/markdown"); ("html", "text/html");
    ("htm", "text/html"); ("rtf", "application/rtf"); ("js", "text/javascript");
    ("jsx", "text/javascript"); ("mjs", "text/javascript"); ("ts", "text/x-typescript");
    ("tsx", "text/x-typescript"); ("py", "text/x-python"); ("rb", "text/x-ruby");
    ("java", "text/x-java-source"); ("c", "text/x-c"); ("cpp", "text/x-c++");
    ("h", "text/x-c"); ("hpp", "text/x-c++"); ("cs", "text/plain"); ("go", "text/x-go");
    ("rs", "text/x-rust"); ("swift", "text/x-swift"); ("php", "text/x-php");
    ("sh", "application/x-sh"); ("bash", "application/x-sh");
    ("zsh", "application/x-sh"); ("bat", "application/x-bat"); ("ps1", "text/plain");
    ("css", "text/css"); ("scss", "text/x-scss"); ("less", "text/x-less");
    ("json", "application/json"); ("xml", "text/xml"); ("yaml", "text/yaml");
    ("yml", "text/yaml"); ("sql", "application/sql"); ("graphql", "application/graphql");
    ("mp3", "audio/mpeg"); ("wav", "audio/wav"); ("ogg", "audio/ogg");
    ("m4a", "audio/mp4"); ("aac", "audio/aac"); ("mp4", "video/mp4");
    ("mov", "video/quicktime"); ("avi", "video/x-msvideo"); ("mkv", "video/x-matroska");
    ("webm", "video/webm"); ("wmv", "video/x-ms-wmv"); ("flv", "video/x-flv") ].

(** What a property read [MIME_MAP[ext]] can give: the string of an entry
    of the literal, or a member that the object inherits from
    [Object.prototype] (a function or an object, and so truthy). *)
Inductive property := Text (mime : string) | Inherited.

(** The property names of [Object.prototype]. *)
Definition inherited : list string :=
  [ "constructor"; "hasOwnProperty"; "isPrototypeOf"; "propertyIsEnumerable";
    "toLocaleString"; "toString"; "valueOf"; "__proto__"; "__defineGetter__";
    "__defineSetter__"; "__lookupGetter__"; "__lookupSetter__" ].

(** [MIME_MAP[ext]]; [None] is [undefined]. *)
Definition lookupMime (ext : string) : option property :=
  match list_find (λ e : string * string, e.1 = ext) MIME_MAP with
  | Some (_, e) => Some (Text e.2)
  | None => if bool_decide (ext ∈ inherited) then Some Inherited else None
  end.

(** A [Blob] ([name] absent) or a [File]. *)
Record FileLike := { fileType : string; name : option string }.

Section Lower.
(** [String.prototype.toLowerCase] *)
Variable toLowerCase : string → string.

(** [parts = name.toLowerCase().split('.');
     if (parts.length > 1) ext = parts.pop() || ''] *)
Definition extensionOf (file : FileLike) : string :=
  match name file with
  | Some n =>
      let parts :=
        importExportService.split (Ascii.Ascii false true true true false true false false)
          (toLowerCase n) in
      if bool_decide (1 < length parts)%nat then default "" (last parts) else ""
  | None => ""
  end.

Definition getEffectiveMimeType (file : FileLike) : property :=
  let type := fileType file in
  let ext := extensionOf file in
  if bool_decide (ext = "ts")
     && (bool_decide (type = "video/mp2t") || negb (Js.truthy type))
  then Text "text/x-typescript"
  else if bool_decide (ext = "js") && bool_decide (type = "text/plain")
  then Text "text/javascript"
  else if Js.truthy type && negb (bool_decide (type = "application/octet-stream"))
  then Text type
  else
    match (if Js.truthy ext then lookupMime ext else None) with
    | Some found => found
    | None => Text type
    end.
End Lower.

(** The test that [handleSendMessage] and [handleEditMessage] make on the
    result: [!effectiveType || effectiveType === 'application/octet-stream']. *)
Definition unsupported (effectiveType : property) : bool :=
  match effectiveType with
  | Text mime => negb (Js.truthy mime) || bool_decide (mime = "application/octet-stream")
  | Inherited => false
  end.

End geminiService.

(** ** components/SettingsModal.tsx: restoring a backup *)
Module SettingsModal.

(** [let finalConfig = newConfig || localConfig;
     if (!finalConfig.apiKey && localConfig.apiKey)
       finalConfig.apiKey = localConfig.apiKey] *)
Definition finalConfig (newConfig : option AppConfig) (localConfig : AppConfig)
  : AppConfig :=
  let c := default localConfig newConfig in
  if negb (Js.truthy (apiKey c)) && Js.truthy (apiKey localConfig)
  then withApiKey (apiKey localConfig) c
  else c.

Inductive notice := ImportSuccessful | ImportFailed.

Section Importing.
Variable createThumbnail : Blob → Blob.
Variable atob : string → option (list Byte.byte).

(** [performImport] of [handleImport]: the configuration handed to
    [onSave] (none when the import rejected), the alert shown, and the
    store. *)
Definition performImport (file : importExportService.BackupFile)
    (localConfig : AppConfig) (s : Store) : option AppConfig * notice * Store :=
  match importExportService.importData createThumbnail atob file s with
  | (Resolved newConfig, s') =>
      (Some (finalConfig newConfig localConfig), ImportSuccessful, s')
  | (Rejected, s') => (None, ImportFailed, s')
  end.
End Importing.

End SettingsModal.

#[global] Instance Role_eq_dec : EqDecision Role.
Proof. solve_decision. Defined.

(** ** App.tsx: the chat handlers around generation *)
Module AppChat.
Import cleanupService.

(** [db.messages.where('chatId').equals(chatId).sortBy('timestamp')]: the
    index [chatId] gives the rows of the chat in the order of the primary
    key; [sortBy] fetches them and sorts the array on the field, so rows
    with the same timestamp stay in the order of their keys. *)
Definition messagesOfChat (chatId : string) (s : Store) : list (string * Message) :=
  Js.sort (λ a b, timestamp a.2 - timestamp b.2)
          (KeyOrder.byPrimaryKey (whereChatIdEquals chatId (messages s))).

(** An entry of [conversationParts]: [{ text }] or
    [{ inlineData: { data, mimeType } }]. *)
Inductive ConversationPart :=
  | TextPart (text : string)
  | InlineDataPart (data mimeType : string).

Definition IMAGE_HISTORY_LIMIT : Z := 8.

(** The text of a part, when it is a text part. *)
Definition textOf (part : ConversationPart) : option string :=
  match part with
  | TextPart t => Some t
  | InlineDataPart _ _ => None
  end.

Section Parts.
(** [blobToBase64] of geminiService (a [FileReader] reads the blob). *)
Variable blobToBase64 : Blob → string.

(** The body of the loop [for (let i = 0; i < allMessagesInChat.length; i++)]. *)
Definition partsOfMessage (imageInclusionStartIndex : Z) (s : Store)
    (i : nat) (msg : string * Message) : list ConversationPart :=
  (if Js.truthy (text msg.2) then [TextPart (text msg.2)] else [])
  ++ match imageIds msg.2 with
     | Some ids =>
         if bool_decide (imageInclusionStartIndex ≤ Z.of_nat i)
            && bool_decide (0 < length ids)%nat
         then (λ imgBlob : string * ImageBlob,
                 InlineDataPart (blobToBase64 (blob imgBlob.2)) (mimeType imgBlob.2))
              <$> KeyOrder.byPrimaryKey (Table.whereIdAnyOf ids (images s))
         else []
     | None => []
     end.

(** The request that [processGeneration] builds from the history. *)
Definition conversationParts (chatId : string) (s : Store) : list ConversationPart :=
  let allMessagesInChat := messagesOfChat chatId s in
  let imageInclusionStartIndex :=
    Z.max 0 (Z.of_nat (length allMessagesInChat) - IMAGE_HISTORY_LIMIT) in
  mjoin (imap (partsOfMessage imageInclusionStartIndex s) allMessagesInChat).
End Parts.

(** The messages among which [handleRegenerate] and [handleRetry] look
    for [prevUserMsg]:
    [where('chatId').equals(activeChatId)
       .and(m => m.timestamp < targetMsg.timestamp && m.role === 'user')]. *)
Definition earlierUserMessages (activeChatId : string) (targetMsg : Message) (s : Store)
  : list (string * Message) :=
  filter (λ r, timestamp r.2 < timestamp targetMsg ∧ role r.2 = user)
         (whereChatIdEquals activeChatId (messages s)).

(** [performRegenerate] of [handleRegenerate], up to the call of
    [processGeneration]. *)
Definition handleRegenerate (activeChatId : option string) (msgId : string) (s : Store)
  : Store :=
  match messages s !! msgId, activeChatId with
  | Some targetMsg, Some active =>
      if Js.truthy active then
        match role targetMsg with
        | model =>
            match earlierUserMessages active targetMsg s with
            | [] => s
            | _ :: _ =>
                let laterMessages :=
                  filter (λ r, timestamp targetMsg ≤ timestamp r.2)
                         (whereChatIdEquals active (messages s)) in
                deleteMessagesWithCleanup laterMessages.*1 s
            end
        | user => s
        end
      else s
  | _, _ => s
  end.

(** [handleRetry], up to the call of [processGeneration]. *)
Definition handleRetry (activeChatId : option string) (msgId : string) (s : Store)
  : Store :=
  match messages s !! msgId, activeChatId with
  | Some targetMsg, Some active =>
      if Js.truthy active then
        match earlierUserMessages active targetMsg s with
        | [] => s
        | _ :: _ => deleteMessagesWithCleanup [msgId] s
        end
      else s
  | _, _ => s
  end.

(** *** Creating and deleting chats: the selection *)
Inductive View := ChatShown | GalleryShown.

(** [activeChatId], [currentView], [isSidebarOpen] (state) and
    [isCreatingRef.current]. *)
Record ViewState := {
    activeChatId : option string;
    currentView : View;
    isSidebarOpen : bool;
    isCreating : bool
  }.

(** [setCurrentView('chat'); if (window.innerWidth <= 768) setIsSidebarOpen(false)],
    after [setActiveChatId] where the handler calls it. *)
Definition showChat (narrow : bool) (active : option string) (creating : bool)
    (st : ViewState) : ViewState :=
  {| activeChatId := active; currentView := ChatShown;
     isSidebarOpen := if narrow then false else isSidebarOpen st;
     isCreating := creating |}.

(** [db.messages.where('chatId').equals(id).count()] *)
Definition messageCount (chatId : string) (s : Store) : nat :=
  length (whereChatIdEquals chatId (messages s)).

(** [createNewChat(force)]: [chatsLoaded] tells whether the live list
    [chats] is defined, [narrow] whether the window is at most 768 wide.
    [allChats] is [db.chats.toArray()], the chats in the order of their
    ids.  The state is the one right after the call: the flag [isCreating]
    is cleared by a timer half a second later. *)
Definition createNewChat (force chatsLoaded narrow : bool) (id : string) (now : Z)
    (st : ViewState) (s : Store) : ViewState * Store :=
  if isCreating st then (st, s) else
  let activeIsEmpty :=
    match activeChatId st with
    | Some active =>
        negb force && Js.truthy active && bool_decide (messageCount active s = 0%nat)
    | None => false
    end in
  if activeIsEmpty then (showChat narrow (activeChatId st) false st, s) else
  let allChats := KeyOrder.byPrimaryKey (Table.toArray (chats s)) in
  let emptyChat :=
    if negb force && chatsLoaded
    then list_find (λ c : string * Chat, messageCount c.1 s = 0%nat) allChats
    else None in
  match emptyChat with
  | Some (_, c) => (showChat narrow (Some c.1) false st, s)
  | None =>
      let record := {| title := "New Project"; pinned := false; orderIndex := 0;
                       chat_createdAt := now; updatedAt := now |} in
      match Table.add id record (chats s) with
      | Resolved t => (showChat narrow (Some id) true st, setChats (λ _, t) s)
      | Rejected =>
          ({| activeChatId := activeChatId st; currentView := currentView st;
              isSidebarOpen := isSidebarOpen st; isCreating := true |}, s)
      end
  end.

Definition setActiveChatId (active : option string) (st : ViewState) : ViewState :=
  {| activeChatId := active; currentView := currentView st;
     isSidebarOpen := isSidebarOpen st; isCreating := isCreating st |}.

(** [performDelete] of [handleDeleteChat]: [chats] is the live list
    ([None] while it loads); [newId] and [now] serve the chat that is
    created when none is left to select. *)
Definition performDelete (id : string) (chats : option (list (string * Chat)))
    (narrow : bool) (newId : string) (now : Z) (st : ViewState) (s : Store)
  : ViewState * Store :=
  let nextChatId :=
    match chats with
    | Some l =>
        if bool_decide (activeChatId st = Some id) then
          match filter (λ c : string * Chat, c.1 ≠ id) l with
          | c :: _ => Some c.1
          | [] => None
          end
        else activeChatId st
    | None => activeChatId st
    end in
  let s1 := deleteChatWithCleanup id s in
  let selected :=
    match nextChatId with
    | Some next => Js.truthy next
    | None => false
    end in
  if selected then (setActiveChatId nextChatId st, s1)
  else createNewChat true (bool_decide (is_Some chats)) narrow newId now
         (setActiveChatId None st) s1.

End AppChat.

(** ** services/geminiService.ts: the response stream

    [generateImageContentStream] sends one request and folds the chunks of
    the answer.  The stream is an input here: each event is a chunk, with
    the state of the abort signal when it arrives, or the failure of the
    request or of the connection. *)
Module ContentStream.

Record UsageMetadata := {
    promptTokenCount : option Z;
    candidatesTokenCount : option Z;
    thoughtsTokenCount : option Z;
    totalTokenCount : option Z
  }.

Record Usage := {
    promptTokens : Z;
    outputTokens : Z;
    thoughtsTokens : option Z;
    totalTokens : Z
  }.

Record InlineData := { data : string; inlineMimeType : option string }.

Record Part := { partText : option string; inlineData : option InlineData }.

(** [safetyRatings]: the [blocked] flag of each rating. *)
Record Candidate := {
    candidateFinishReason : option string;
    safetyRatings : option (list bool);
    parts : option (list Part)             (* [content?.parts] *)
  }.

Record Chunk := {
    usageMetadata : option UsageMetadata;
    chunkModelVersion : option string;
    candidates : option (list Candidate)
  }.

Inductive StreamEvent :=
  | Arrives (aborted : bool) (chunk : Chunk)
  | Breaks.

Record GenerationResult := {
    text : string;
    thoughts : string;
    images : list Blob;
    thumbnails : list Blob;
    usage : option Usage;
    modelVersion : string;
    finishReason : string;
    safetyBlocked : bool
  }.

(** The running values of the loop: [fullText], [finalImages], [usage],
    [modelVersion], [finishReason], [safetyBlocked], and the calls of
    [onProgress] made so far ([fullThoughts] stays empty). *)
Record Running := {
    fullText : string;
    finalImages : list Blob;
    lastUsage : option Usage;
    lastModelVersion : string;
    lastFinishReason : string;
    blocked : bool;
    progress : list (string * string * option Usage)
  }.

Definition start : Running :=
  {| fullText := ""; finalImages := []; lastUsage := None; lastModelVersion := "";
     lastFinishReason := ""; blocked := false; progress := [] |}.

(** The outcome of the call: the result and the progress reports, or the
    error it rejects with. *)
Inductive streamed :=
  | Done (result : GenerationResult) (reports : list (string * string * option Usage))
  | AbortError
  | OtherError.

Section Stream.
Variable createThumbnail : Blob → Blob.
Variable atob : string → option (list Byte.byte).

(** [base64ToBlob]; [None] when [atob] throws. *)
Definition base64ToBlob (base64 mimeType : string) : option Blob :=
  (λ bytes, {| blob_data := bytes; blob_type := mimeType |}) <$> atob base64.

(** [value || fallback] on strings that may be missing. *)
Definition orElse (value : option string) (fallback : string) : string :=
  match value with
  | Some v => if Js.truthy v then v else fallback
  | None => fallback
  end.

(** The body of [for (const part of candidate.content.parts)]. *)
Definition onPart (r : Running) (part : Part) : option Running :=
  let r1 :=
    match partText part with
    | Some t =>
        if Js.truthy t
        then {| fullText := fullText r +:+ t; finalImages := finalImages r;
                lastUsage := lastUsage r; lastModelVersion := lastModelVersion r;
                lastFinishReason := lastFinishReason r; blocked := blocked r;
                progress := progress r |}
        else r
    | None => r
    end in
  match inlineData part with
  | Some d =>
      match base64ToBlob (data d) (orElse (inlineMimeType d) "image/png") with
      | Some b =>
          Some {| fullText := fullText r1; finalImages := finalImages r1 ++ [b];
                  lastUsage := lastUsage r1; lastModelVersion := lastModelVersion r1;
                  lastFinishReason := lastFinishReason r1; blocked := blocked r1;
                  progress := progress r1 |}
      | None => None
      end
  | None => Some r1
  end.

Fixpoint onParts (r : Running) (ps : list Part) : option Running :=
  match ps with
  | [] => Some r
  | part :: rest =>
      match onPart r part with
      | Some r1 => onParts r1 rest
      | None => None
      end
  end.

(** [chunk.candidates?.[0]] *)
Definition firstCandidate (chunk : Chunk) : option Candidate :=
  match candidates chunk with
  | Some (c :: _) => Some c
  | _ => None
  end.

(** The body of [for await (const chunk of streamResult)] after the
    abort test; [None] when it throws. *)
Definition onChunk (r : Running) (chunk : Chunk) : option Running :=
  let u :=
    match usageMetadata chunk with
    | Some m =>
        Some {| promptTokens := default 0 (promptTokenCount m);
                outputTokens := default 0 (candidatesTokenCount m);
                thoughtsTokens := thoughtsTokenCount m;
                totalTokens := default 0 (totalTokenCount m) |}
    | None => lastUsage r
    end in
  let version := orElse (chunkModelVersion chunk) (lastModelVersion r) in
  let r1 :=
    match firstCandidate chunk with
    | Some candidate =>
        let reason := orElse (candidateFinishReason candidate) (lastFinishReason r) in
        let isBlocked :=
          match safetyRatings candidate with
          | Some ratings => if existsb (λ b : bool, b) ratings then true else blocked r
          | None => blocked r
          end in
        let r0 := {| fullText := fullText r; finalImages := finalImages r;
                     lastUsage := u; lastModelVersion := version;
                     lastFinishReason := reason; blocked := isBlocked;
                     progress := progress r |} in
        match parts candidate with
        | Some ps => onParts r0 ps
        | None => Some r0
        end
    | None =>
        Some {| fullText := fullText r; finalImages := finalImages r;
                lastUsage := u; lastModelVersion := version;
                lastFinishReason := lastFinishReason r; blocked := blocked r;
                progress := progress r |}
    end in
  match r1 with
  | Some r2 =>
      Some {| fullText := fullText r2; finalImages := finalImages r2;
              lastUsage := lastUsage r2; lastModelVersion := lastModelVersion r2;
              lastFinishReason := lastFinishReason r2; blocked := blocked r2;
              progress := progress r2 ++ [(fullText r2, "", lastUsage r2)] |}
  | None => None
  end.

Fixpoint consume (r : Running) (stream : list StreamEvent) : streamed :=
  match stream with
  | [] =>
      Done {| text := fullText r; thoughts := ""; images := finalImages r;
              thumbnails := createThumbnail <$> finalImages r;
              usage := lastUsage r; modelVersion := lastModelVersion r;
              finishReason := lastFinishReason r; safetyBlocked := blocked r |}
           (progress r)
  | Breaks :: _ => OtherError
  | Arrives true _ :: _ => AbortError
  | Arrives false chunk :: rest =>
      match onChunk r chunk with
      | Some r1 => consume r1 rest
      | None => OtherError
      end
  end.

Definition generateImageContentStream (apiKey : string) (stream : list StreamEvent)
  : streamed :=
  if Js.truthy apiKey then consume start stream else OtherError.
End Stream.

(** The parts that the loop reads of a stream: those of the first
    candidate of each chunk. *)
Definition partsRead (stream : list StreamEvent) : list Part :=
  stream ≫= λ e,
    match e with
    | Arrives _ chunk =>
        match firstCandidate chunk with
        | Some candidate => default [] (parts candidate)
        | None => []
        end
    | Breaks => []
    end.

(** The text of a part as the loop appends it. *)
Definition textRead (part : Part) : string := default "" (partText part).

(** Every event is a chunk that arrived with the signal not aborted. *)
Definition undisturbed (stream : list StreamEvent) : Prop :=
  ∀ e, e ∈ stream → ∃ chunk, e = Arrives false chunk.

(** The part carries inline data. *)
Definition hasInlineData (part : Part) : bool :=
  match inlineData part with
  | Some _ => true
  | None => false
  end.

(** The first candidate of the event's chunk has a rating that is blocked. *)
Definition reportsBlocked (e : StreamEvent) : bool :=
  match e with
  | Arrives _ chunk =>
      match firstCandidate chunk with
      | Some candidate =>
          match safetyRatings candidate with
          | Some ratings => existsb (λ b : bool, b) ratings
          | None => false
          end
      | None => false
      end
  | Breaks => false
  end.

(** The strings of a list, joined in order. *)
Definition joined (l : list string) : string := foldr String.append "" l.

End ContentStream.
(** * Lemmas *)

Section TableFacts.
Context {V : Type}.
Implicit Types (t : gmap string V) (k : string) (ks : list string).

Lemma lookup_bulkDelete ks t k :
  Table.bulkDelete ks t !! k = if decide (k ∈ ks) then None else t !! k.
Proof.
  unfold Table.bulkDelete. revert t.
  induction ks as [|a ks IH]; intros t.
  - destruct (decide (k ∈ [])) as [Hin|_]; [by apply not_elem_of_nil in Hin | done].
  - cbn [foldl]. rewrite IH.
    destruct (decide (k ∈ ks)) as [Hin|Hnin].
    + rewrite decide_True by (by right). done.
    + destruct (decide (k = a)) as [->|Hne].
      * rewrite lookup_delete_eq, decide_True by (by left). done.
      * rewrite lookup_delete_ne, decide_False by set_solver. done.
Qed.

Lemma bulkDelete_nil t : Table.bulkDelete [] t = t.
Proof. done. Qed.

Lemma elem_of_toArray t k v : (k, v) ∈ Table.toArray t ↔ t !! k = Some v.
Proof. apply elem_of_map_to_list. Qed.

Lemma elem_of_whereIdAnyOf ks t k v :
  (k, v) ∈ Table.whereIdAnyOf ks t ↔ k ∈ ks ∧ t !! k = Some v.
Proof.
  unfold Table.whereIdAnyOf. rewrite list_elem_of_filter, elem_of_toArray. done.
Qed.

Lemma elem_of_omap_bulkGet ks t k v :
  (k, v) ∈ omap id (Table.bulkGet ks t) ↔ k ∈ ks ∧ t !! k = Some v.
Proof.
  unfold Table.bulkGet, Table.get. rewrite list_elem_of_omap. split.
  - intros (o & Ho & Heq). apply list_elem_of_fmap in Ho as (k' & -> & Hk').
    simpl in Heq. destruct (t !! k') eqn:E; simplify_eq/=. done.
  - intros [Hk Hv]. exists (Some (k, v)). split; [|done].
    apply list_elem_of_fmap. exists k. by rewrite Hv.
Qed.
End TableFacts.

Section CleanupFacts.
Import cleanupService.

Lemma indexedUnder_lists x m : indexedUnder x m ↔ lists m x.
Proof.
  unfold indexedUnder, lists. destruct (imageIds m) as [ids|].
  - rewrite bool_decide_spec. naive_solver.
  - naive_solver.
Qed.

Lemma elem_of_whereImageIdsEquals x (t : gmap string Message) k m :
  (k, m) ∈ whereImageIdsEquals x t ↔ t !! k = Some m ∧ lists m x.
Proof.
  unfold whereImageIdsEquals.
  rewrite list_elem_of_filter, elem_of_toArray. simpl.
  rewrite indexedUnder_lists. tauto.
Qed.

Lemma isImageReferenced_spec x s : isImageReferenced x s ↔ referenced x s.
Proof.
  unfold isImageReferenced, referenced. rewrite bool_decide_spec. split.
  - intros Hlen. destruct (whereImageIdsEquals x (messages s)) as [|[k m] l] eqn:E.
    + simpl in Hlen. lia.
    + exists k, m. apply elem_of_whereImageIdsEquals. rewrite E. by left.
  - intros (k & m & Hk & Hl).
    assert (Hin : (k, m) ∈ whereImageIdsEquals x (messages s))
      by by apply elem_of_whereImageIdsEquals.
    destruct (whereImageIdsEquals x (messages s)); [by apply not_elem_of_nil in Hin|].
    simpl. lia.
Qed.

Lemma isImageReferenced_false x s : isImageReferenced x s = false ↔ ¬ referenced x s.
Proof.
  rewrite <- isImageReferenced_spec. destruct (isImageReferenced x s); naive_solver.
Qed.

Lemma elem_of_collectImageIds (msgs : list (string * Message)) x :
  x ∈ collectImageIds msgs ↔ ∃ r, r ∈ msgs ∧ lists r.2 x.
Proof.
  unfold collectImageIds, lists.
  rewrite elem_of_remove_dups, list_elem_of_bind. split.
  - intros (r & Hx & Hr). exists r. split; [done|].
    destruct (imageIds r.2) as [ids|]; simpl in Hx; [eauto | by apply not_elem_of_nil in Hx].
  - intros (r & Hr & ids & Hi & Hx). exists r. by rewrite Hi.
Qed.

Lemma deleteImagesIfOrphaned_images ids s x :
  images (deleteImagesIfOrphaned ids s) !! x =
    match images s !! x with
    | Some img => if sweeps ids s x img then None else Some img
    | None => None
    end.
Proof.
  set (rhs := match images s !! x with
              | Some img => if sweeps ids s x img then None else Some img
              | None => None
              end).
  unfold deleteImagesIfOrphaned.
  set (imgs := Table.whereIdAnyOf ids (images s)).
  set (cands := (filter (λ r : string * ImageBlob, negb (isGalleryVisible r.2)) imgs).*1).
  set (del := filter (λ id : string, negb (isImageReferenced id s)) cands).
  assert (Hc : ∀ y, y ∈ cands ↔
            ∃ img, images s !! y = Some img ∧ y ∈ ids ∧ isGalleryVisible img = false).
  { intros y. unfold cands. rewrite list_elem_of_fmap. split.
    - intros ([k img] & -> & Hin). apply list_elem_of_filter in Hin as [Hg Hin].
      apply elem_of_whereIdAnyOf in Hin as [? ?]. simpl in *.
      exists img. destruct (isGalleryVisible img); naive_solver.
    - intros (img & Hy & Hin & Hg). exists (y, img). split; [done|].
      apply list_elem_of_filter. simpl. rewrite Hg. split; [done|].
      by apply elem_of_whereIdAnyOf. }
  assert (Hd : ∀ y, y ∈ del ↔
            ∃ img, images s !! y = Some img ∧ y ∈ ids ∧ isGalleryVisible img = false
                   ∧ isImageReferenced y s = false).
  { intros y. unfold del. rewrite list_elem_of_filter, Hc.
    destruct (isImageReferenced y s); naive_solver. }
  assert (Hgoal : images (setImages (Table.bulkDelete del) s) !! x = rhs).
  { subst rhs. unfold sweeps. simpl. rewrite lookup_bulkDelete.
    destruct (decide (x ∈ del)) as [Hin|Hnin].
    - apply Hd in Hin as (img & -> & Hin & -> & ->).
      by rewrite bool_decide_eq_true_2.
    - destruct (images s !! x) as [img|] eqn:E; [|done].
      destruct (bool_decide (x ∈ ids)) eqn:E1; [|done].
      destruct (isGalleryVisible img) eqn:E2; [done|].
      destruct (isImageReferenced x s) eqn:E3; [done|].
      exfalso. apply Hnin, Hd. exists img. apply bool_decide_eq_true in E1. done. }
  assert (Hnil : del = [] → images s !! x = rhs).
  { intros Hdel. rewrite <- Hgoal, Hdel. done. }
  clearbody del cands.
  case_bool_decide as H0.
  { apply Hnil, elem_of_nil_inv. intros y Hy.
    apply length_zero_iff_nil in H0 as ->.
    apply Hd in Hy as (? & _ & Hy & _). by apply not_elem_of_nil in Hy. }
  case_bool_decide as H1.
  { apply Hnil, elem_of_nil_inv. intros y Hy.
    apply length_zero_iff_nil in H1 as ->.
    eapply not_elem_of_nil, Hc. apply Hd in Hy. naive_solver. }
  case_bool_decide as H2; [done|].
  apply Hnil. destruct del; [done | simpl in H2; lia].
Qed.

Lemma deleteImagesIfOrphaned_rest ids s :
  messages (deleteImagesIfOrphaned ids s) = messages s
  ∧ chats (deleteImagesIfOrphaned ids s) = chats s
  ∧ prompts (deleteImagesIfOrphaned ids s) = prompts s
  ∧ promptSeq (deleteImagesIfOrphaned ids s) = promptSeq s.
Proof.
  unfold deleteImagesIfOrphaned. repeat case_bool_decide; done.
Qed.
End CleanupFacts.

Section DeletionFacts.
Import cleanupService dataService.

Lemma referenced_after_bulkDelete S x s :
  referenced x (setMessages (Table.bulkDelete S) s) ↔ listedOutside S x s.
Proof.
  unfold referenced, listedOutside. simpl. split.
  - intros (k & m & Hk & Hl). rewrite lookup_bulkDelete in Hk.
    destruct (decide (k ∈ S)); [done|]. eauto.
  - intros (k & m & Hk & Hm & Hl). exists k, m.
    rewrite lookup_bulkDelete, decide_False by done. done.
Qed.

Lemma isReferencedElsewhere_spec S x s :
  isReferencedElsewhere S x s ↔ listedOutside S x s.
Proof.
  unfold isReferencedElsewhere, listedOutside.
  rewrite Is_true_true, existsb_exists. split.
  - intros (k & Hin & Hk). apply bool_decide_eq_true in Hk.
    apply list_elem_of_In, list_elem_of_fmap in Hin as ([k' m] & -> & Hin).
    apply elem_of_whereImageIdsEquals in Hin as [? ?]. eauto.
  - intros (k & m & Hk & Hm & Hl). exists k. split.
    + apply list_elem_of_In, list_elem_of_fmap. exists (k, m). split; [done|].
      by apply elem_of_whereImageIdsEquals.
    + by apply bool_decide_eq_true.
Qed.

Lemma collect_whereIdAnyOf S x s :
  x ∈ collectImageIds (Table.whereIdAnyOf S (messages s)) ↔ attachedIn S x s.
Proof.
  rewrite elem_of_collectImageIds. unfold attachedIn. split.
  - intros ([k m] & Hin & Hl). apply elem_of_whereIdAnyOf in Hin as [? ?]. eauto.
  - intros (k & m & ? & ? & ?). exists (k, m). by rewrite elem_of_whereIdAnyOf.
Qed.

Lemma collect_bulkGet S x s :
  x ∈ collectImageIds (omap id (Table.bulkGet S (messages s))) ↔ attachedIn S x s.
Proof.
  rewrite elem_of_collectImageIds. unfold attachedIn. split.
  - intros ([k m] & Hin & Hl). apply elem_of_omap_bulkGet in Hin as [? ?]. eauto.
  - intros (k & m & ? & ? & ?). exists (k, m). by rewrite elem_of_omap_bulkGet.
Qed.

Lemma nonempty_length {A} (l : list A) x : x ∈ l → (0 < length l)%nat.
Proof. destruct l; [by intros ?%not_elem_of_nil | simpl; lia]. Qed.

Lemma deleteMessagesWithCleanup_messages S s k :
  messages (deleteMessagesWithCleanup S s) !! k
  = if decide (k ∈ S) then None else messages s !! k.
Proof.
  unfold deleteMessagesWithCleanup. case_bool_decide as H0.
  { apply length_zero_iff_nil in H0 as ->.
    rewrite decide_False by apply not_elem_of_nil. done. }
  case_bool_decide.
  - destruct (deleteImagesIfOrphaned_rest
      (collectImageIds (Table.whereIdAnyOf S (messages s)))
      (setMessages (Table.bulkDelete S) s)) as [-> _].
    simpl. apply lookup_bulkDelete.
  - simpl. apply lookup_bulkDelete.
Qed.

End DeletionFacts.

Section ReferenceSurvival.
Import cleanupService dataService.

Lemma cleanup_keeps_iff S x img s :
  images s !! x = Some img → isGalleryVisible img = false → attachedIn S x s →
  is_Some (images (deleteMessagesWithCleanup S s) !! x) ↔ listedOutside S x s.
Proof.
  intros Hx Hg Hatt. unfold deleteMessagesWithCleanup.
  assert (Hc := proj2 (collect_whereIdAnyOf S x s) Hatt).
  destruct Hatt as (k0 & m0 & Hk0 & _).
  rewrite bool_decide_eq_false_2
    by (intros ->%length_zero_iff_nil; by apply not_elem_of_nil in Hk0).
  rewrite bool_decide_eq_true_2 by (by eapply nonempty_length).
  rewrite deleteImagesIfOrphaned_images. simpl. rewrite Hx. unfold sweeps.
  rewrite bool_decide_eq_true_2, Hg by done. simpl.
  rewrite <- referenced_after_bulkDelete, <- isImageReferenced_spec.
  destruct (isImageReferenced x _); simpl; split; intros H;
    try done; try (by eexists); by destruct H.
Qed.

Lemma safe_images S s x :
  images (deleteMessagesSafe S s) !! x =
    match images s !! x with
    | Some img =>
        if bool_decide (x ∈ collectImageIds (omap id (Table.bulkGet S (messages s))))
           && negb (isGalleryVisible img) && negb (isReferencedElsewhere S x s)
        then None else Some img
    | None => None
    end.
Proof.
  unfold deleteMessagesSafe.
  set (ids := collectImageIds (omap id (Table.bulkGet S (messages s)))).
  set (del := (filter _ (omap id (Table.bulkGet ids (images s)))).*1).
  set (rhs := match images s !! x with Some _ => _ | None => _ end).
  assert (Hd : ∀ y, y ∈ del ↔
            ∃ img, images s !! y = Some img ∧ y ∈ ids ∧ isGalleryVisible img = false
                   ∧ isReferencedElsewhere S y s = false).
  { intros y. unfold del. rewrite list_elem_of_fmap. split.
    - intros ([k img] & -> & Hin). apply list_elem_of_filter in Hin as [Hp Hin].
      apply elem_of_omap_bulkGet in Hin as [? ?]. simpl in *.
      exists img. destruct (isGalleryVisible img), (isReferencedElsewhere S k s); naive_solver.
    - intros (img & Hy & Hin & Hg & Hr). exists (y, img). split; [done|].
      apply list_elem_of_filter. simpl. rewrite Hg, Hr. split; [done|].
      by apply elem_of_omap_bulkGet. }
  assert (Hgoal : images (setImages (Table.bulkDelete del) s) !! x = rhs).
  { subst rhs. simpl. rewrite lookup_bulkDelete.
    destruct (decide (x ∈ del)) as [Hin|Hnin].
    - apply Hd in Hin as (img & -> & Hin & -> & ->).
      by rewrite bool_decide_eq_true_2.
    - destruct (images s !! x) as [img|] eqn:E; [|done].
      destruct (bool_decide (x ∈ ids)) eqn:E1; [|done].
      destruct (isGalleryVisible img) eqn:E2; [done|].
      destruct (isReferencedElsewhere S x s) eqn:E3; [done|].
      exfalso. apply Hnin, Hd. exists img. apply bool_decide_eq_true in E1. done. }
  assert (Hnil : del = [] → images s !! x = rhs).
  { intros Hdel. rewrite <- Hgoal, Hdel. done. }
  clearbody del.
  destruct (bool_decide (0 < length ids)%nat) eqn:H0; simpl.
  - destruct (bool_decide (0 < length del)%nat) eqn:H1; [done|].
    apply bool_decide_eq_false in H1. apply Hnil. destruct del; [done | simpl in H1; lia].
  - apply bool_decide_eq_false in H0. subst rhs.
    destruct (images s !! x); [|done].
    rewrite bool_decide_eq_false_2; [done|].
    intros Hin%nonempty_length. lia.
Qed.

Lemma safe_keeps_iff S x img s :
  images s !! x = Some img → isGalleryVisible img = false → attachedIn S x s →
  is_Some (images (deleteMessagesSafe S s) !! x) ↔ listedOutside S x s.
Proof.
  intros Hx Hg Hatt. rewrite safe_images, Hx, Hg.
  rewrite bool_decide_eq_true_2 by (by apply collect_bulkGet). simpl.
  rewrite <- isReferencedElsewhere_spec.
  destruct (isReferencedElsewhere S x s); simpl; split; intros H;
    try done; try (by eexists); by destruct H.
Qed.
End ReferenceSurvival.

(** ** Forced deletion *)

Section ForceDelete.
Import cleanupService.

Lemma filter_same_length {A} (P : A → Prop) `{!∀ x, Decision (P x)} (l : list A) :
  length (filter P l) = length l → filter P l = l.
Proof.
  induction l as [|a l IH]; [done|]. rewrite filter_cons.
  destruct (decide (P a)); simpl; intros Hlen.
  - f_equal. apply IH. lia.
  - pose proof (length_filter P l). lia.
Qed.

Lemma filter_all {A} (P : A → Prop) `{!∀ x, Decision (P x)} (l : list A) :
  (∀ x, x ∈ l → P x) → filter P l = l.
Proof.
  induction l as [|a l IH]; [done|]. intros Hall. rewrite filter_cons.
  rewrite decide_True by (apply Hall; by left). f_equal. apply IH.
  intros x Hx. apply Hall. by right.
Qed.

Lemma setImageIds_same m old : imageIds m = Some old → setImageIds old m = m.
Proof. destruct m; simpl; by intros ->. Qed.

Lemma purge_purge deleted m : purge deleted (purge deleted m) = purge deleted m.
Proof.
  unfold purge. destruct (imageIds m) as [old|] eqn:E; [|by rewrite E].
  simpl. unfold setImageIds. simpl. f_equal. f_equal.
  apply filter_all. intros x Hx. by apply list_elem_of_filter in Hx as [? _].
Qed.

Lemma purge_unlisted deleted m :
  (∀ x, x ∈ deleted → ¬ lists m x) → purge deleted m = m.
Proof.
  intros H. unfold purge. destruct (imageIds m) as [old|] eqn:E; [|done].
  rewrite filter_all; [by apply setImageIds_same|].
  intros x Hx Hd. apply (H x Hd). by exists old.
Qed.

Lemma purge_lists deleted m x : lists (purge deleted m) x ↔ lists m x ∧ x ∉ deleted.
Proof.
  unfold purge, lists. destruct (imageIds m) as [old|] eqn:E; simpl.
  - split.
    + intros (ids & [= <-] & Hx). apply list_elem_of_filter in Hx as [? ?]. eauto.
    + intros ((ids & [= <-] & Hx) & Hn). eexists. split; [done|].
      by apply list_elem_of_filter.
  - rewrite E. naive_solver.
Qed.

Lemma forceDeleteStep_other deleted s r k :
  k ≠ r.1 → messages (forceDeleteStep deleted s r) !! k = messages s !! k.
Proof.
  intros Hne. unfold forceDeleteStep. destruct (imageIds r.2); [|done].
  case_bool_decide; [|done]. simpl. unfold Table.update. by rewrite lookup_alter_ne.
Qed.

Lemma forceDeleteStep_rest deleted s r :
  images (forceDeleteStep deleted s r) = images s
  ∧ chats (forceDeleteStep deleted s r) = chats s
  ∧ prompts (forceDeleteStep deleted s r) = prompts s
  ∧ promptSeq (forceDeleteStep deleted s r) = promptSeq s.
Proof.
  unfold forceDeleteStep. destruct (imageIds r.2); [|done]. by case_bool_decide.
Qed.

(** The write made for a fetched message [r]: whether the table still holds
    the fetched copy or already its purged form, it holds the purged form
    afterwards. *)
Lemma forceDeleteStep_same deleted s r :
  messages s !! r.1 = Some r.2 ∨ messages s !! r.1 = Some (purge deleted r.2) →
  messages (forceDeleteStep deleted s r) !! r.1 = Some (purge deleted r.2).
Proof.
  intros Hst. unfold forceDeleteStep, purge in *.
  destruct (imageIds r.2) as [old|] eqn:E; [|by destruct Hst].
  unfold withoutIds. case_bool_decide as Hlen.
  - simpl. unfold Table.update. rewrite lookup_alter_eq.
    destruct Hst as [-> | ->]; done.
  - assert (filter (λ id, id ∉ deleted) old = old) as Hsame.
    { apply filter_same_length.
      destruct (decide (length (filter (λ id, id ∉ deleted) old) = length old));
        [done|contradiction]. }
    rewrite Hsame in *. rewrite setImageIds_same in * by done. by destruct Hst.
Qed.

Lemma foldl_forceDeleteStep deleted s msgs : ∀ s0,
  (∀ r, r ∈ msgs → messages s !! r.1 = Some r.2) →
  (∀ k, messages s0 !! k = messages s !! k
        ∨ messages s0 !! k = purge deleted <$> messages s !! k) →
  let s' := foldl (forceDeleteStep deleted) s0 msgs in
  (∀ k, messages s' !! k = messages s !! k
        ∨ messages s' !! k = purge deleted <$> messages s !! k)
  ∧ (∀ k, k ∈ msgs.*1 ∨ messages s0 !! k = purge deleted <$> messages s !! k →
          messages s' !! k = purge deleted <$> messages s !! k)
  ∧ images s' = images s0 ∧ chats s' = chats s0
  ∧ prompts s' = prompts s0 ∧ promptSeq s' = promptSeq s0.
Proof.
  induction msgs as [|r msgs IH]; intros s0 Hsnap Hinv; simpl.
  - split; [done|]. split; [|done]. intros k [Hk|Hk]; [by apply not_elem_of_nil in Hk | done].
  - assert (Hr : messages s !! r.1 = Some r.2) by (apply Hsnap; by left).
    assert (Hstep : messages (forceDeleteStep deleted s0 r) !! r.1
                    = Some (purge deleted r.2)).
    { apply forceDeleteStep_same. destruct (Hinv r.1) as [H|H]; rewrite H, Hr; auto. }
    assert (Hinv' : ∀ k, messages (forceDeleteStep deleted s0 r) !! k = messages s !! k
        ∨ messages (forceDeleteStep deleted s0 r) !! k = purge deleted <$> messages s !! k).
    { intros k. destruct (decide (k = r.1)) as [->|Hne].
      - right. by rewrite Hstep, Hr.
      - rewrite forceDeleteStep_other by done. apply Hinv. }
    destruct (IH (forceDeleteStep deleted s0 r)) as (H1 & H2 & H3 & H4 & H5 & H6);
      [intros; apply Hsnap; by right | done |].
    destruct (forceDeleteStep_rest deleted s0 r) as (E1 & E2 & E3 & E4).
    split; [done|]. split; [|by rewrite H3, H4, H5, H6].
    intros k Hk. apply H2. destruct (decide (k = r.1)) as [->|Hne].
    + right. by rewrite Hstep, Hr.
    + rewrite forceDeleteStep_other by done.
      destruct Hk as [Hk|Hk]; [|by right]. left.
      apply elem_of_cons in Hk as [?|?]; done.
Qed.

Lemma elem_of_whereImageIdsAnyOf deleted (t : gmap string Message) k m :
  (k, m) ∈ whereImageIdsAnyOf deleted t ↔
  t !! k = Some m ∧ ∃ x, x ∈ deleted ∧ lists m x.
Proof.
  unfold whereImageIdsAnyOf. rewrite list_elem_of_bind. split.
  - intros (x & Hin & Hx). rewrite elem_of_remove_dups in Hx.
    apply elem_of_whereImageIdsEquals in Hin as [? ?]. split; [done|]. by exists x.
  - intros (Hk & x & Hx & Hl). exists x. rewrite elem_of_remove_dups.
    by rewrite elem_of_whereImageIdsEquals.
Qed.

Lemma forceDeleteImages_spec deleted s :
  let s' := forceDeleteImages deleted s in
  (∀ x, images s' !! x = if decide (x ∈ deleted) then None else images s !! x)
  ∧ (∀ k, messages s' !! k = purge deleted <$> messages s !! k)
  ∧ chats s' = chats s ∧ prompts s' = prompts s ∧ promptSeq s' = promptSeq s.
Proof.
  unfold forceDeleteImages. case_bool_decide as H0.
  { apply length_zero_iff_nil in H0 as ->. split.
    - intros x. destruct (decide (x ∈ [])) as [Hin|_]; [by apply not_elem_of_nil in Hin | done].
    - split; [|done]. intros k. destruct (messages s !! k) as [m|]; [|done].
      simpl. f_equal. symmetry. apply purge_unlisted.
      intros x Hx. by apply not_elem_of_nil in Hx. }
  set (s1 := setImages (Table.bulkDelete deleted) s).
  destruct (foldl_forceDeleteStep deleted s1 (whereImageIdsAnyOf deleted (messages s1)) s1)
    as (H1 & H2 & H3 & H4 & H5 & H6).
  { intros [k m] Hin. by apply elem_of_whereImageIdsAnyOf in Hin as [? _]. }
  { by left. }
  simpl in *. rewrite H3, H4, H5. split; [intros x; apply lookup_bulkDelete|].
  split; [|done]. intros k.
  destruct (messages s !! k) as [m|] eqn:Hm.
  - destruct (decide (k ∈ (whereImageIdsAnyOf deleted (messages s)).*1)) as [Hin|Hno].
    + rewrite H2; [by rewrite Hm | by left].
    + destruct (H1 k) as [H|H]; rewrite H, Hm; [|done].
      simpl. f_equal. symmetry. apply purge_unlisted.
      intros x Hx Hl. apply Hno, list_elem_of_fmap. exists (k, m). split; [done|].
      apply elem_of_whereImageIdsAnyOf. eauto.
  - destruct (H1 k) as [H|H]; rewrite H, Hm; done.
Qed.
End ForceDelete.

(** ** The gallery counts *)
Section GalleryFacts.
Import Gallery.

Lemma filter_ext_in {A} (P Q : A → Prop) `{!∀ x, Decision (P x)} `{!∀ x, Decision (Q x)}
    (l : list A) :
  (∀ x, x ∈ l → (P x ↔ Q x)) → filter P l = filter Q l.
Proof.
  induction l as [|a l IH]; [done|]. intros Hext. rewrite !filter_cons.
  rewrite IH by (intros x Hx; apply Hext; by right).
  assert (Ha : P a ↔ Q a) by (apply Hext; by left).
  destruct (decide (P a)) as [Hp|Hp], (decide (Q a)) as [Hq|Hq]; tauto || done.
Qed.

Lemma counts_agree s :
  exactIndex s → countAbove0 (images s) = countGalleryVisible (images s).
Proof.
  intros Hinv. unfold countAbove0, countGalleryVisible.
  unfold whereGalleryTimestampAbove0, filterGalleryVisible.
  assert (filter (λ r : string * ImageBlob, inIndexAbove0 r.2) (Table.toArray (images s))
          = filter (λ r : string * ImageBlob, isGalleryVisible r.2) (Table.toArray (images s)))
    as ->; [|done].
  apply filter_ext_in. intros [k img] Hin. apply elem_of_toArray in Hin. simpl.
  rewrite (Is_true_true (isGalleryVisible img)), (Hinv k img Hin).
  unfold inIndexAbove0. destruct (galleryTimestamp img) as [ts|].
  - rewrite bool_decide_spec. naive_solver.
  - naive_solver.
Qed.

Lemma length_remove_dups {A} `{!EqDecision A} (l : list A) :
  (length (remove_dups l) ≤ length l)%nat.
Proof.
  induction l as [|a l IH]; [done|]. simpl. destruct (decide_rel _ a l); simpl; lia.
Qed.

Lemma toSave_keys ids (t : gmap string ImageBlob) :
  (filter (λ r : string * ImageBlob, negb (isGalleryVisible r.2))
          (omap id (Table.bulkGet ids t))).*1
  = filter (λ x, unsaved t x) ids.
Proof.
  unfold Table.bulkGet, Table.get, unsaved.
  induction ids as [|a ids IH]; [done|]. rewrite fmap_cons. simpl omap.
  rewrite (filter_cons (λ x, _) a ids).
  destruct (t !! a) as [img|] eqn:E; simpl.
  - rewrite filter_cons. simpl. destruct (isGalleryVisible img); simpl.
    + exact IH.
    + f_equal. exact IH.
  - exact IH.
Qed.

Lemma existsb_filter_nonempty {A} (p : A → bool) (l : list A) :
  existsb p l = bool_decide (0 < length (filter (λ x, p x) l))%nat.
Proof.
  induction l as [|a l IH]; [done|]. simpl. rewrite filter_cons.
  destruct (p a) eqn:E; simpl.
  - done.
  - exact IH.
Qed.
End GalleryFacts.

(** ** Loops of [db.images.update] *)
Section UpdateLoops.
Context {A : Type} (key : A → string) (change : A → ImageBlob → ImageBlob).

Lemma updateEach_rest l s :
  messages (updateEach key change l s) = messages s ∧ chats (updateEach key change l s) = chats s
  ∧ prompts (updateEach key change l s) = prompts s ∧ promptSeq (updateEach key change l s) = promptSeq s.
Proof.
  revert s. induction l as [|a l IH]; intros s; [done|].
  unfold updateEach in *. simpl. destruct (IH (setImages (Table.update (key a) (change a)) s))
    as (-> & -> & -> & ->). done.
Qed.

Lemma updateEach_other l s x :
  x ∉ key <$> l → images (updateEach key change l s) !! x = images s !! x.
Proof.
  revert s. induction l as [|a l IH]; intros s Hx; [done|].
  unfold updateEach in *. simpl. rewrite fmap_cons in Hx.
  apply not_elem_of_cons in Hx as [Hne Hx]. rewrite IH by done.
  simpl. unfold Table.update. by rewrite lookup_alter_ne.
Qed.

(** A relation between the old and the new record that every single update
    respects is respected by the whole loop. *)
Lemma updateEach_related (Q : ImageBlob → ImageBlob → Prop) l s x :
  (∀ img, Q img img) → (∀ i j k, Q i j → Q j k → Q i k) →
  (∀ a img, a ∈ l → Q img (change a img)) →
  match images s !! x, images (updateEach key change l s) !! x with
  | Some img, Some img' => Q img img'
  | None, None => True
  | _, _ => False
  end.
Proof.
  intros Hrefl Htrans. revert s. induction l as [|a l IH]; intros s Hstep.
  - simpl. destruct (images s !! x); [apply Hrefl | done].
  - unfold updateEach in *. cbn [foldl].
    specialize (IH (setImages (Table.update (key a) (change a)) s)).
    lapply IH; [clear IH; intros IH | intros; apply Hstep; by right].
    simpl in IH. unfold Table.update in IH.
    destruct (decide (x = key a)) as [->|Hne].
    + rewrite lookup_alter_eq in IH. destruct (images s !! key a) as [img|]; simpl in IH.
      * destruct (images (foldl _ _ l) !! key a) as [img'|]; [|done].
        eapply Htrans; [|exact IH]. apply Hstep. by left.
      * done.
    + rewrite lookup_alter_ne in IH by done. exact IH.
Qed.
End UpdateLoops.

Section ToggleFacts.
Import Gallery.




End ToggleFacts.

(** ** The maintenance sweep under failures *)
Section SweepFacts.
Import cleanupService.

Lemma faulty_0 fl : faulty 0 fl = false.
Proof. unfold faulty. rewrite take_0. apply bool_decide_eq_false_2, not_elem_of_nil. Qed.

Lemma faulty_add a b fl : faulty (a + b) fl = faulty a fl || faulty b (drop a fl).
Proof.
  unfold faulty. rewrite <- take_take_drop.
  destruct (bool_decide (true ∈ take a fl)) eqn:E1,
           (bool_decide (true ∈ take b (drop a fl))) eqn:E2; simpl;
    rewrite ?bool_decide_eq_true, ?bool_decide_eq_false in *; set_solver.
Qed.

Lemma read_run {A} (f : Store → A) fl s :
  Tx.read f fl s = if faulty 1 fl then Rejected else Resolved (f s, s, drop 1 fl).
Proof. by destruct fl as [|[] fl]. Qed.

Lemma write_run (f : Store → Store) fl s :
  Tx.write f fl s = if faulty 1 fl then Rejected else Resolved ((), f s, drop 1 fl).
Proof. by destruct fl as [|[] fl]. Qed.

Lemma unreferencedOf_run cands : ∀ fl s,
  unreferencedOf cands fl s =
    if faulty (length cands) fl then Rejected
    else Resolved (filter (λ id, negb (isImageReferenced id s)) cands, s,
                   drop (length cands) fl).
Proof.
  induction cands as [|a cands IH]; intros fl s.
  - by rewrite faulty_0, drop_0.
  - cbn [unreferencedOf length]. change (S (length cands)) with (1 + length cands)%nat.
    rewrite faulty_add. unfold mbind, tx_bind, Tx.bind. rewrite read_run.
    destruct (faulty 1 fl); [done|]. simpl orb. rewrite IH.
    destruct (faulty (length cands) (drop 1 fl)); [done|].
    rewrite drop_drop. unfold mret, tx_ret, Tx.ret. rewrite filter_cons.
    destruct (isImageReferenced a s); simpl; done.
Qed.

Lemma elem_of_sweepCandidates s x :
  x ∈ sweepCandidates s ↔ ∃ img, images s !! x = Some img ∧ isGalleryVisible img = false.
Proof.
  unfold sweepCandidates. rewrite list_elem_of_fmap. split.
  - intros ([k img] & -> & Hin). apply list_elem_of_filter in Hin as [Hg Hin].
    apply elem_of_toArray in Hin. exists img. simpl in *.
    by destruct (isGalleryVisible img).
  - intros (img & Hx & Hg). exists (x, img). split; [done|].
    apply list_elem_of_filter. simpl. rewrite Hg. split; [done|]. by apply elem_of_toArray.
Qed.

Lemma elem_of_sweepOrphans s x :
  x ∈ sweepOrphans s ↔
  ∃ img, images s !! x = Some img ∧ isGalleryVisible img = false ∧ ¬ referenced x s.
Proof.
  unfold sweepOrphans. rewrite list_elem_of_filter, elem_of_sweepCandidates.
  pose proof (isImageReferenced_false x s) as Hf.
  destruct (isImageReferenced x s); simpl; [|naive_solver].
  split; [by intros [[] _] | intros (img & _ & _ & Hn)]. naive_solver.
Qed.

Lemma NoDup_sweepOrphans s : NoDup (sweepOrphans s).
Proof.
  apply NoDup_filter. unfold sweepCandidates.
  eapply sublist_NoDup; [apply (NoDup_fst_map_to_list (images s))|].
  apply fmap_sublist, sublist_filter.
Qed.

Lemma size_bulkDelete {V} (ks : list string) : ∀ t : gmap string V,
  NoDup ks → (∀ k, k ∈ ks → is_Some (t !! k)) →
  (size (Table.bulkDelete ks t) + length ks)%nat = size t.
Proof.
  unfold Table.bulkDelete. induction ks as [|a ks IH]; intros t Hnd Hin; simpl; [lia|].
  apply NoDup_cons in Hnd as [Ha Hnd].
  assert (Hrest : ∀ k, k ∈ ks → is_Some (delete a t !! k)).
  { intros k Hk. rewrite lookup_delete_ne by (intros ->; done). apply Hin. by right. }
  specialize (IH (delete a t) Hnd Hrest).
  rewrite map_size_delete_Some in IH by (apply Hin; by left).
  assert (size t ≠ 0%nat); [|lia].
  apply map_size_ne_0_lookup. destruct (Hin a) as [v Hv]; [by left|]. eauto.
Qed.

Lemma setImages_bulkDelete_nil s : setImages (Table.bulkDelete []) s = s.
Proof. by destruct s. Qed.

(** One run of the sweep: it rejects exactly when a failure is scheduled
    among the requests it makes. *)
Lemma cleanup_transaction_run fl s :
  (Tx.transaction cleanupBody fl s).1 =
    if faulty (sweepRequests s) fl then (Rejected, s)
    else (Resolved (Z.of_nat (length (sweepOrphans s))),
          setImages (Table.bulkDelete (sweepOrphans s)) s).
Proof.
  unfold Tx.transaction, cleanupBody, sweepRequests.
  fold (sweepCandidates s). unfold mbind, tx_bind, Tx.bind.
  rewrite read_run.
  destruct (bool_decide (length (sweepCandidates s) = 0%nat)) eqn:Hc.
  - change 2%nat with (1 + 1)%nat. rewrite faulty_add.
    destruct (faulty 1 fl); [done|]. cbn [orb]. fold (sweepCandidates s). rewrite Hc.
    unfold mret, tx_ret, Tx.ret. rewrite read_run.
    destruct (faulty 1 (drop 1 fl)); [done|]. cbn [fst].
    apply bool_decide_eq_true, length_zero_iff_nil in Hc.
    unfold sweepOrphans. rewrite Hc. simpl. by rewrite setImages_bulkDelete_nil.
  - rewrite <- !Nat.add_assoc, faulty_add.
    destruct (faulty 1 fl); [done|]. cbn [orb]. fold (sweepCandidates s). rewrite Hc.
    rewrite unreferencedOf_run, faulty_add. fold (sweepOrphans s).
    destruct (faulty (length (sweepCandidates s)) (drop 1 fl)); [done|]. cbn [orb].
    destruct (bool_decide (0 < length (sweepOrphans s))%nat) eqn:Ho.
    + rewrite write_run, faulty_add.
      destruct (faulty 1 (drop (length (sweepCandidates s)) (drop 1 fl))); [done|].
      cbn [orb]. unfold mret, tx_ret, Tx.ret. rewrite read_run.
      destruct (faulty 1 _); done.
    + unfold mret, tx_ret, Tx.ret. rewrite read_run. simpl plus.
      destruct (faulty 1 _); [done|]. cbn [fst].
      apply bool_decide_eq_false in Ho.
      assert (sweepOrphans s = []) as -> by (destruct (sweepOrphans s); [done | simpl in Ho; lia]).
      simpl. by rewrite setImages_bulkDelete_nil.
Qed.
End SweepFacts.

(** ** Adding records *)
Section AddFacts.
Context {V : Type}.
Implicit Types (t : gmap string V) (rs : list (string * V)).

Lemma elem_of_primaryKeys t k : k ∈ Table.primaryKeys t ↔ is_Some (t !! k).
Proof.
  unfold Table.primaryKeys, Table.toArray. rewrite list_elem_of_fmap. split.
  - intros ([k' v] & -> & Hin). apply elem_of_map_to_list in Hin. eauto.
  - intros [v Hv]. exists (k, v). split; [done|]. by apply elem_of_map_to_list.
Qed.

(** [bulkAdd] only adds: what was stored stays, what is new comes from the
    request; when it resolves, every requested record went in. *)
Lemma bulkAdd_spec rs : ∀ t,
  (∀ k v, t !! k = Some v → (Table.bulkAdd rs t).2 !! k = Some v)
  ∧ (∀ k v, (Table.bulkAdd rs t).2 !! k = Some v → t !! k = Some v ∨ (k, v) ∈ rs)
  ∧ ((Table.bulkAdd rs t).1 = Resolved () →
       NoDup rs.*1 ∧ ∀ k v, (k, v) ∈ rs → t !! k = None ∧ (Table.bulkAdd rs t).2 !! k = Some v).
Proof.
  induction rs as [|[k0 v0] rs IH]; intros t.
  - simpl. split; [done|]. split; [auto|]. intros _. split; [constructor|].
    intros k v Hin. by apply not_elem_of_nil in Hin.
  - cbn [Table.bulkAdd]. destruct (t !! k0) as [old|] eqn:E.
    + destruct (IH t) as (H1 & H2 & _). cbn [fst snd].
      split; [done|]. split; [|done].
      intros k v Hk. destruct (H2 k v Hk); [by left | right; by right].
    + destruct (IH (<[k0 := v0]> t)) as (H1 & H2 & H3). cbn [fst snd].
      split; [|split].
      * intros k v Hk. apply H1. rewrite lookup_insert_ne; [done|]. intros ->. congruence.
      * intros k v Hk. destruct (H2 k v Hk) as [Hin|Hin]; [|right; by right].
        destruct (decide (k0 = k)) as [->|Hne].
        -- rewrite lookup_insert_eq in Hin. injection Hin as ->. right. by left.
        -- rewrite lookup_insert_ne in Hin by done. by left.
      * intros Hres. destruct (H3 Hres) as [Hnd Hall]. split.
        -- rewrite fmap_cons. apply NoDup_cons. split; [|done].
           intros ([k' v'] & Heq & Hin)%list_elem_of_fmap. simpl in Heq. subst k'.
           destruct (Hall k0 v' Hin) as [Hnone _]. by rewrite lookup_insert_eq in Hnone.
        -- intros k v Hin. apply elem_of_cons in Hin as [[= -> ->]|Hin].
           ++ split; [done|]. apply H1. by rewrite lookup_insert_eq.
           ++ destruct (Hall k v Hin) as [Hnone Hsome]. split; [|done].
              destruct (decide (k0 = k)) as [->|Hne];
                [by rewrite lookup_insert_eq in Hnone | by rewrite lookup_insert_ne in Hnone].
Qed.

Lemma bulkAdd_fresh rs : ∀ t,
  NoDup rs.*1 → (∀ r, r ∈ rs → t !! r.1 = None) → (Table.bulkAdd rs t).1 = Resolved ().
Proof.
  induction rs as [|[k0 v0] rs IH]; intros t Hnd Hfresh; [done|].
  cbn [Table.bulkAdd].
  assert (t !! k0 = None) as -> by (apply (Hfresh (k0, v0)); by left). cbn [fst].
  rewrite fmap_cons in Hnd. apply NoDup_cons in Hnd as [Hk0 Hnd].
  apply IH; [done|]. intros [k v] Hin. simpl.
  rewrite lookup_insert_ne; [apply (Hfresh (k, v)); by right|].
  intros ->. apply Hk0, list_elem_of_fmap. by exists (k, v).
Qed.
End AddFacts.

Section ImportFacts.
Import importExportService.

Lemma addMissing_held {V} (rs : list (string * V)) (t : gmap string V) :
  held rs t → addMissing rs t = Resolved t.
Proof.
  intros Hheld. unfold addMissing.
  assert (filter (λ r : string * V, r.1 ∉ Table.primaryKeys t) rs = []) as ->; [|done].
  apply elem_of_nil_inv. intros r [Hn Hin]%list_elem_of_filter.
  apply Hn, elem_of_primaryKeys, Hheld, Hin.
Qed.

Lemma addMissing_resolved {V} (rs : list (string * V)) (t t' : gmap string V) :
  addMissing rs t = Resolved t' →
  held rs t' ∧ (∀ k v, t !! k = Some v → t' !! k = Some v)
  ∧ (∀ k v, t' !! k = Some v → t !! k = Some v ∨ (k, v) ∈ rs).
Proof.
  unfold addMissing.
  set (new := filter (λ r : string * V, r.1 ∉ Table.primaryKeys t) rs).
  destruct (bulkAdd_spec new t) as (H1 & H2 & H3).
  case_bool_decide as Hlen.
  - destruct (Table.bulkAdd new t) as [[[]|] t0] eqn:E; [|done].
    intros [= <-]. cbn [fst snd] in *. destruct (H3 eq_refl) as [_ Hall].
    split; [|split; [done|]].
    + intros [k v] Hin. simpl.
      destruct (decide (k ∈ Table.primaryKeys t)) as [Hk|Hk].
      * apply elem_of_primaryKeys in Hk as [v' Hv']. eauto.
      * destruct (Hall k v) as [_ Hs]; [by apply list_elem_of_filter | eauto].
    + intros k v Hk. destruct (H2 k v Hk) as [?|Hin]; [by left|right].
      by apply list_elem_of_filter in Hin as [_ ?].
  - intros [= <-]. split; [|split; [done | by left]].
    intros r Hin. apply elem_of_primaryKeys.
    destruct (decide (r.1 ∈ Table.primaryKeys t)) as [Hk|Hk]; [done|].
    exfalso. apply Hlen. eapply nonempty_length. unfold new.
    apply list_elem_of_filter. split; [exact Hk | exact Hin].
Qed.

Lemma addPrompts_spec ps : ∀ s,
  promptKeysOk s →
  promptKeysOk (addPrompts ps s)
  ∧ size (prompts (addPrompts ps s)) = (size (prompts s) + length ps)%nat
  ∧ chats (addPrompts ps s) = chats s ∧ messages (addPrompts ps s) = messages s
  ∧ images (addPrompts ps s) = images s.
Proof.
  unfold addPrompts. induction ps as [|p ps IH]; intros s Hok.
  - simpl. repeat split; [done | lia].
  - cbn [foldl].
    set (s1 := {| chats := chats s; messages := messages s; images := images s;
                  prompts := <[(promptSeq s + 1)%N := p]> (prompts s);
                  promptSeq := (promptSeq s + 1)%N |}).
    assert (Hfresh : prompts s !! (promptSeq s + 1)%N = None).
    { apply eq_None_not_Some. intros Hs. apply Hok in Hs. lia. }
    assert (Hok1 : promptKeysOk s1).
    { intros k Hk. simpl in *. destruct (decide (k = (promptSeq s + 1)%N)) as [->|Hne]; [lia|].
      rewrite lookup_insert_ne in Hk by done. apply Hok in Hk. lia. }
    destruct (IH s1 Hok1) as (H1 & H2 & H3 & H4 & H5).
    split; [done|]. rewrite H2, H3, H4, H5. simpl.
    rewrite map_size_insert_None by done. repeat split. lia.
Qed.

Lemma withPrompts_spec ps s :
  promptKeysOk s →
  promptKeysOk (withPrompts ps s)
  ∧ size (prompts (withPrompts ps s)) = (size (prompts s) + length (default [] ps))%nat
  ∧ chats (withPrompts ps s) = chats s ∧ messages (withPrompts ps s) = messages s
  ∧ images (withPrompts ps s) = images s.
Proof.
  intros Hok. unfold withPrompts. destruct ps as [ps|]; simpl.
  - case_bool_decide as Hlen.
    + destruct (addPrompts_spec ps.*2 s Hok) as (? & Hsz & ? & ? & ?).
      rewrite length_fmap in Hsz. done.
    + destruct ps; [|simpl in Hlen; lia]. simpl. repeat split; [done | lia].
  - repeat split; [done | lia].
Qed.

Lemma mergeMetadata_held data s :
  held (default [] (dataChats data)) (chats s) →
  held (default [] (dataMessages data)) (messages s) →
  mergeMetadata data s = Resolved (withPrompts (dataPrompts data) s).
Proof.
  intros Hc Hm. unfold mergeMetadata, withPrompts.
  assert (Hs1 : match dataChats data with
                | Some cs =>
                    if bool_decide (0 < length cs)%nat then
                      match addMissing cs (chats s) with
                      | Resolved t => Resolved (setChats (λ _, t) s)
                      | Rejected => Rejected
                      end
                    else Resolved s
                | None => Resolved s
                end = Resolved s).
  { destruct (dataChats data) as [cs|]; [|done]. simpl in Hc.
    case_bool_decide; [|done]. rewrite addMissing_held by done. by destruct s. }
  rewrite Hs1.
  assert (Hs2 : match dataMessages data with
                | Some ms =>
                    if bool_decide (0 < length ms)%nat then
                      match addMissing ms (messages s) with
                      | Resolved t => Resolved (setMessages (λ _, t) s)
                      | Rejected => Rejected
                      end
                    else Resolved s
                | None => Resolved s
                end = Resolved s).
  { destruct (dataMessages data) as [ms|]; [|done]. simpl in Hm.
    case_bool_decide; [|done]. rewrite addMissing_held by done. by destruct s. }
  rewrite Hs2. destruct (dataPrompts data) as [ps|]; [|done]. by case_bool_decide.
Qed.

Lemma held_nil_length {V} (rs : list (string * V)) (t : gmap string V) :
  ¬ (0 < length rs)%nat → held rs t.
Proof. destruct rs; [|simpl; lia]. intros _ r Hr. by apply not_elem_of_nil in Hr. Qed.

Lemma mergeMetadata_resolved data s s1 :
  mergeMetadata data s = Resolved s1 →
  ∃ s0,
    s1 = withPrompts (dataPrompts data) s0
    ∧ held (default [] (dataChats data)) (chats s0)
    ∧ held (default [] (dataMessages data)) (messages s0)
    ∧ images s0 = images s ∧ prompts s0 = prompts s ∧ promptSeq s0 = promptSeq s
    ∧ (∀ k v, messages s !! k = Some v → messages s0 !! k = Some v)
    ∧ (∀ k v, messages s0 !! k = Some v →
         messages s !! k = Some v ∨ (k, v) ∈ default [] (dataMessages data)).
Proof.
  unfold mergeMetadata.
  destruct (match dataChats data with Some _ => _ | None => _ end) as [sa|] eqn:Ea; [|done].
  destruct (match dataMessages data with Some _ => _ | None => _ end) as [sb|] eqn:Eb; [|done].
  intros Hp. exists sb.
  assert (Ha : held (default [] (dataChats data)) (chats sa)
               ∧ messages sa = messages s ∧ images sa = images s
               ∧ prompts sa = prompts s ∧ promptSeq sa = promptSeq s).
  { destruct (dataChats data) as [cs|]; simpl.
    - case_bool_decide as Hlen.
      + destruct (addMissing cs (chats s)) as [t|] eqn:E; [|done].
        injection Ea as <-. simpl. by apply addMissing_resolved in E as [? _].
      + injection Ea as <-. split; [by apply held_nil_length | done].
    - injection Ea as <-. split; [|done]. intros r Hr. by apply not_elem_of_nil in Hr. }
  destruct Ha as (Hca & Hma & Hia & Hpa & Hqa).
  assert (Hb : held (default [] (dataMessages data)) (messages sb)
               ∧ chats sb = chats sa ∧ images sb = images sa
               ∧ prompts sb = prompts sa ∧ promptSeq sb = promptSeq sa
               ∧ (∀ k v, messages sa !! k = Some v → messages sb !! k = Some v)
               ∧ (∀ k v, messages sb !! k = Some v →
                    messages sa !! k = Some v ∨ (k, v) ∈ default [] (dataMessages data))).
  { destruct (dataMessages data) as [ms|]; simpl.
    - case_bool_decide as Hlen.
      + destruct (addMissing ms (messages sa)) as [t|] eqn:E; [|done].
        injection Eb as <-. simpl. apply addMissing_resolved in E as (? & ? & ?). done.
      + injection Eb as <-. split; [by apply held_nil_length|]. repeat split; auto.
    - injection Eb as <-. split; [intros r Hr; by apply not_elem_of_nil in Hr|].
      repeat split; auto. }
  destruct Hb as (Hmb & Hcb & Hib & Hpb & Hqb & Hsub & Hnew).
  split.
  { unfold withPrompts. destruct (dataPrompts data) as [ps|]; [|congruence].
    case_bool_decide; congruence. }
  rewrite Hcb, Hib, Hpb, Hqb, Hia, Hpa, Hqa. rewrite <- Hma.
  repeat split; auto.
Qed.
End ImportFacts.

Section BatchFacts.
Import importExportService.
Variable createThumbnail : Blob → Blob.

Lemma prepare_id zip m r : prepare createThumbnail zip m = Some r → r.1 = metaId m.
Proof.
  unfold prepare. destruct (match imageFiles zip !! _ with Some _ => _ | None => _ end);
    [|done]. by intros [= <-].
Qed.

Lemma batch_subseteq (all : list ImageMeta) i m :
  m ∈ take BATCH_SIZE (drop i all) → m ∈ all.
Proof. intros Hin. eapply subseteq_drop, subseteq_take, Hin. Qed.

(** Every entry falls into the batch of one turn of the loop. *)
Lemma batch_cover (all : list ImageMeta) m :
  m ∈ all → ∃ i, i ∈ batchStarts (length all) ∧ m ∈ take BATCH_SIZE (drop i all).
Proof.
  intros [j Hj]%list_elem_of_lookup.
  assert (Hlt : (j < length all)%nat) by (by eapply lookup_lt_Some).
  unfold batchStarts, BATCH_SIZE. exists ((j / 5) * 5)%nat. split.
  - apply list_elem_of_fmap. exists (j / 5)%nat. split; [done|].
    apply elem_of_seq. split; [lia|]. 
    pose proof (Nat.div_mod_eq j 5). pose proof (Nat.mod_upper_bound j 5).
    pose proof (Nat.div_mod_eq (length all + 5 - 1) 5).
    pose proof (Nat.mod_upper_bound (length all + 5 - 1) 5). lia.
  - apply elem_of_take. exists (j - (j / 5) * 5)%nat. rewrite lookup_drop.
    pose proof (Nat.div_mod_eq j 5). pose proof (Nat.mod_upper_bound j 5).
    split; [|lia]. rewrite <- Hj. f_equal. lia.
Qed.

Lemma elem_of_existing (ks : list string) (t : gmap string ImageBlob) k :
  k ∈ (Table.whereIdAnyOf ks t).*1 ↔ k ∈ ks ∧ is_Some (t !! k).
Proof.
  rewrite list_elem_of_fmap. split.
  - intros ([k' v] & -> & Hin). apply elem_of_whereIdAnyOf in Hin as [? ?]. eauto.
  - intros [Hk [v Hv]]. exists (k, v). split; [done|]. by apply elem_of_whereIdAnyOf.
Qed.

Lemma importBatch_spec zip all i s :
  let res := importBatch createThumbnail zip all i s in
  chats res.2 = chats s ∧ messages res.2 = messages s
  ∧ prompts res.2 = prompts s ∧ promptSeq res.2 = promptSeq s
  ∧ (∀ k v, images s !! k = Some v → images res.2 !! k = Some v)
  ∧ (∀ k v, images res.2 !! k = Some v →
       images s !! k = Some v
       ∨ ∃ m, m ∈ all ∧ prepare createThumbnail zip m = Some (k, v))
  ∧ (res.1 = Resolved () →
       ∀ m, m ∈ take BATCH_SIZE (drop i all) →
            is_Some (prepare createThumbnail zip m) → is_Some (images res.2 !! metaId m)).
Proof.
  unfold importBatch.
  set (batch := take BATCH_SIZE (drop i all)).
  set (existing := (Table.whereIdAnyOf (metaId <$> batch) (images s)).*1).
  set (cands := filter (λ m, metaId m ∉ existing) batch).
  set (items := omap (prepare createThumbnail zip) cands).
  assert (Hold : ∀ m, m ∈ batch → metaId m ∈ existing → is_Some (images s !! metaId m)).
  { intros m _ Hin. by apply elem_of_existing in Hin as [_ ?]. }
  assert (Hitems : ∀ m, m ∈ batch → metaId m ∉ existing →
                    ∀ r, prepare createThumbnail zip m = Some r → r ∈ items).
  { intros m Hm Hn r Hr. apply list_elem_of_omap. exists m. split; [|done].
    by apply list_elem_of_filter. }
  assert (Hfrom : ∀ r, r ∈ items → ∃ m, m ∈ all ∧ prepare createThumbnail zip m = Some r).
  { intros r (m & Hm & Hr)%list_elem_of_omap. exists m. split; [|done].
    apply list_elem_of_filter in Hm as [_ Hm]. by eapply batch_subseteq. }
  case_bool_decide as Hlen; cbn zeta.
  - destruct (bulkAdd_spec items (images s)) as (H1 & H2 & H3).
    destruct (Table.bulkAdd items (images s)) as [r t] eqn:E. cbn [fst snd] in *.
    repeat split; try done.
    + intros k v Hk. destruct (H2 k v Hk) as [?|Hin]; [by left | right].
      by apply Hfrom.
    + intros -> m Hm [rec Hr].
      destruct (decide (metaId m ∈ existing)) as [Hex|Hnex].
      * destruct (Hold m Hm Hex) as [v Hv]. exists v. by apply H1.
      * destruct (H3 eq_refl) as [_ Hall]. destruct rec as [k v].
        destruct (Hall k v) as [_ Hs]; [by eapply Hitems|].
        apply prepare_id in Hr. simpl in Hr. subst k. eauto.
  - cbn [fst snd]. repeat split; try done; [by left|].
    intros _ m Hm [r Hr].
    destruct (decide (metaId m ∈ existing)) as [Hex|Hnex]; [by apply Hold|].
    exfalso. apply Hlen. eapply nonempty_length, Hitems; done.
Qed.

Lemma importBatch_present zip all i s :
  (∀ m, m ∈ all → is_Some (prepare createThumbnail zip m) →
        is_Some (images s !! metaId m)) →
  importBatch createThumbnail zip all i s = (Resolved (), s).
Proof.
  intros Hall. unfold importBatch.
  set (batch := take BATCH_SIZE (drop i all)).
  set (existing := (Table.whereIdAnyOf (metaId <$> batch) (images s)).*1).
  assert (omap (prepare createThumbnail zip)
               (filter (λ m, metaId m ∉ existing) batch) = []) as ->; [|done].
  apply elem_of_nil_inv. intros r (m & Hm & Hr)%list_elem_of_omap.
  apply list_elem_of_filter in Hm as [Hn Hm]. apply Hn, elem_of_existing. split.
  - apply list_elem_of_fmap. by exists m.
  - apply Hall; [by eapply batch_subseteq | eauto].
Qed.

Lemma importBatches_spec zip all starts : ∀ r0 s,
  let res :=
    foldl (λ acc i,
             match acc with
             | (Resolved _, s') => importBatch createThumbnail zip all i s'
             | (Rejected, s') => (Rejected, s')
             end) (r0, s) starts in
  chats res.2 = chats s ∧ messages res.2 = messages s
  ∧ prompts res.2 = prompts s ∧ promptSeq res.2 = promptSeq s
  ∧ (∀ k v, images s !! k = Some v → images res.2 !! k = Some v)
  ∧ (∀ k v, images res.2 !! k = Some v →
       images s !! k = Some v
       ∨ ∃ m, m ∈ all ∧ prepare createThumbnail zip m = Some (k, v))
  ∧ (res.1 = Resolved () →
       ∀ i m, i ∈ starts → m ∈ take BATCH_SIZE (drop i all) →
              is_Some (prepare createThumbnail zip m) → is_Some (images res.2 !! metaId m)).
Proof.
  induction starts as [|i starts IH]; intros r0 s.
  - simpl. repeat split; auto. intros _ i m Hi. by apply not_elem_of_nil in Hi.
  - cbn [foldl]. destruct r0 as [[]|].
    + pose proof (importBatch_spec zip all i s) as Hb. cbv zeta in Hb.
      destruct (importBatch createThumbnail zip all i s) as [r1 s1] eqn:E.
      cbn [fst snd] in Hb. destruct Hb as (B1 & B2 & B3 & B4 & B5 & B6 & B7).
      specialize (IH r1 s1). cbv zeta in IH.
      destruct IH as (I1 & I2 & I3 & I4 & I5 & I6 & I7).
      rewrite I1, I2, I3, I4, B1, B2, B3, B4. repeat split; auto.
      * intros k v Hk. destruct (I6 k v Hk) as [Hs1|?]; [|by right]. by apply B6.
      * intros Hres i' m Hi' Hm Hp.
        apply elem_of_cons in Hi' as [->|Hi']; [|by eapply I7].
        assert (r1 = Resolved ()) as ->.
        { destruct r1 as [[]|]; [done|]. exfalso. clear -Hres.
          induction starts as [|? ? IHs]; [done | apply IHs, Hres]. }
        destruct (B7 eq_refl m Hm Hp) as [v Hv]. exists v. by apply I5.
    + specialize (IH Rejected s). cbv zeta in IH.
      destruct IH as (I1 & I2 & I3 & I4 & I5 & I6 & I7). repeat split; auto.
      intros Hres. exfalso. clear -Hres.
      induction starts as [|? ? IHs]; [done | apply IHs, Hres].
Qed.

Lemma importBatches_resolved zip all s s' :
  importBatches createThumbnail zip all s = (Resolved (), s') →
  chats s' = chats s ∧ messages s' = messages s
  ∧ prompts s' = prompts s ∧ promptSeq s' = promptSeq s
  ∧ (∀ k v, images s !! k = Some v → images s' !! k = Some v)
  ∧ (∀ m, m ∈ all → is_Some (prepare createThumbnail zip m) →
          is_Some (images s' !! metaId m)).
Proof.
  intros Heq. pose proof (importBatches_spec zip all (batchStarts (length all))
                            (Resolved ()) s) as H.
  cbv zeta in H. unfold importBatches in Heq. rewrite Heq in H. cbn [fst snd] in H.
  destruct H as (H1 & H2 & H3 & H4 & H5 & _ & H7). repeat split; auto.
  intros m Hm Hp. destruct (batch_cover all m Hm) as (i & Hi & Hin). by eapply H7.
Qed.

Lemma importBatches_present zip all s :
  (∀ m, m ∈ all → is_Some (prepare createThumbnail zip m) →
        is_Some (images s !! metaId m)) →
  importBatches createThumbnail zip all s = (Resolved (), s).
Proof.
  intros Hall. unfold importBatches.
  induction (batchStarts (length all)) as [|i starts IH]; [done|].
  cbn [foldl]. by rewrite importBatch_present.
Qed.
End BatchFacts.

Section LegacyFacts.
Import importExportService.
Variable atob : string → option (list Byte.byte).

Lemma hydrateAll_resolved imgs : ∀ hs,
  hydrateAll atob imgs = Resolved hs →
  hs.*1 = legacyId <$> imgs
  ∧ ∀ r, r ∈ hs → ∃ img, img ∈ imgs ∧ hydrate atob img = Some r.
Proof.
  induction imgs as [|img imgs IH]; intros hs; simpl.
  - intros [= <-]. split; [done|]. intros r Hr. by apply not_elem_of_nil in Hr.
  - destruct (hydrate atob img) as [r0|] eqn:E; [|done].
    destruct (hydrateAll atob imgs) as [rs|]; [|done]. intros [= <-].
    destruct (IH rs eq_refl) as [Hids Hfrom]. split.
    + rewrite fmap_cons, Hids. f_equal. unfold hydrate in E.
      destruct (atob (legacyBlob img)); [|done]. by injection E as <-.
    + intros r Hr. apply elem_of_cons in Hr as [->|Hr].
      * exists img. split; [by left | done].
      * destruct (Hfrom r Hr) as (img' & ? & ?). exists img'. split; [by right | done].
Qed.

Lemma withLegacyPrompts_spec ps s :
  promptKeysOk s →
  promptKeysOk (withLegacyPrompts ps s)
  ∧ size (prompts (withLegacyPrompts ps s)) = (size (prompts s) + length (default [] ps))%nat
  ∧ chats (withLegacyPrompts ps s) = chats s
  ∧ messages (withLegacyPrompts ps s) = messages s
  ∧ images (withLegacyPrompts ps s) = images s.
Proof.
  intros Hok. unfold withLegacyPrompts. destruct ps as [ps|]; simpl.
  - destruct (addPrompts_spec ps.*2 s Hok) as (? & Hsz & ? & ? & ?).
    rewrite length_fmap in Hsz. done.
  - repeat split; [done | lia].
Qed.

Lemma mergeLegacy_held data s :
  held (default [] (legacyChats data)) (chats s) →
  held (default [] (legacyMessages data)) (messages s) →
  heldImages (default [] (legacyImages data)) (images s) →
  mergeLegacy atob data s = Resolved (withLegacyPrompts (legacyPrompts data) s).
Proof.
  intros Hc Hm Hi. unfold mergeLegacy.
  assert (Hs1 : match legacyChats data with
                | Some cs =>
                    match addMissing cs (chats s) with
                    | Resolved t => Resolved (setChats (λ _, t) s)
                    | Rejected => Rejected
                    end
                | None => Resolved s
                end = Resolved s).
  { destruct (legacyChats data) as [cs|]; [|done]. simpl in Hc.
    rewrite addMissing_held by done. by destruct s. }
  rewrite Hs1.
  assert (Hs2 : match legacyMessages data with
                | Some ms =>
                    match addMissing ms (messages s) with
                    | Resolved t => Resolved (setMessages (λ _, t) s)
                    | Rejected => Rejected
                    end
                | None => Resolved s
                end = Resolved s).
  { destruct (legacyMessages data) as [ms|]; [|done]. simpl in Hm.
    rewrite addMissing_held by done. by destruct s. }
  rewrite Hs2. fold (withLegacyPrompts (legacyPrompts data) s).
  destruct (legacyImages data) as [imgs|]; [|done]. simpl in Hi.
  assert (filter (λ x, legacyId x ∉
                    Table.primaryKeys (images (withLegacyPrompts (legacyPrompts data) s)))
                 imgs = []) as ->; [|done].
  apply elem_of_nil_inv. intros img [Hn Hin]%list_elem_of_filter.
  apply Hn, elem_of_primaryKeys.
  assert (images (withLegacyPrompts (legacyPrompts data) s) = images s) as ->; [|by apply Hi].
  unfold withLegacyPrompts. destruct (legacyPrompts data) as [ps|]; [|done].
  clear. unfold addPrompts. revert s. induction ps.*2 as [|p l IH]; intros s; [done|].
  cbn [foldl]. by rewrite IH.
Qed.

Lemma mergeLegacy_resolved data s s1 :
  mergeLegacy atob data s = Resolved s1 →
  ∃ s0,
    held (default [] (legacyChats data)) (chats s0)
    ∧ held (default [] (legacyMessages data)) (messages s0)
    ∧ images s0 = images s ∧ prompts s0 = prompts s ∧ promptSeq s0 = promptSeq s
    ∧ (∀ k v, messages s !! k = Some v → messages s0 !! k = Some v)
    ∧ (∀ k v, messages s0 !! k = Some v →
         messages s !! k = Some v ∨ (k, v) ∈ default [] (legacyMessages data))
    ∧ chats s1 = chats s0 ∧ messages s1 = messages s0
    ∧ prompts s1 = prompts (withLegacyPrompts (legacyPrompts data) s0)
    ∧ promptSeq s1 = promptSeq (withLegacyPrompts (legacyPrompts data) s0)
    ∧ heldImages (default [] (legacyImages data)) (images s1)
    ∧ (∀ k v, images s !! k = Some v → images s1 !! k = Some v)
    ∧ (∀ k v, images s1 !! k = Some v →
         images s !! k = Some v
         ∨ ∃ img, img ∈ default [] (legacyImages data) ∧ hydrate atob img = Some (k, v)).
Proof.
  unfold mergeLegacy.
  destruct (match legacyChats data with Some _ => _ | None => _ end) as [sa|] eqn:Ea; [|done].
  destruct (match legacyMessages data with Some _ => _ | None => _ end) as [sb|] eqn:Eb;
    [|done].
  fold (withLegacyPrompts (legacyPrompts data) sb).
  set (sp := withLegacyPrompts (legacyPrompts data) sb).
  intros Himgs. exists sb.
  assert (Ha : held (default [] (legacyChats data)) (chats sa)
               ∧ messages sa = messages s ∧ images sa = images s
               ∧ prompts sa = prompts s ∧ promptSeq sa = promptSeq s).
  { destruct (legacyChats data) as [cs|]; simpl.
    - destruct (addMissing cs (chats s)) as [t|] eqn:E; [|done].
      injection Ea as <-. simpl. by apply addMissing_resolved in E as [? _].
    - injection Ea as <-. split; [|done]. intros r Hr. by apply not_elem_of_nil in Hr. }
  destruct Ha as (Hca & Hma & Hia & Hpa & Hqa).
  assert (Hb : held (default [] (legacyMessages data)) (messages sb)
               ∧ chats sb = chats sa ∧ images sb = images sa
               ∧ prompts sb = prompts sa ∧ promptSeq sb = promptSeq sa
               ∧ (∀ k v, messages sa !! k = Some v → messages sb !! k = Some v)
               ∧ (∀ k v, messages sb !! k = Some v →
                    messages sa !! k = Some v ∨ (k, v) ∈ default [] (legacyMessages data))).
  { destruct (legacyMessages data) as [ms|]; simpl.
    - destruct (addMissing ms (messages sa)) as [t|] eqn:E; [|done].
      injection Eb as <-. simpl. apply addMissing_resolved in E as (? & ? & ?). done.
    - injection Eb as <-. split; [intros r Hr; by apply not_elem_of_nil in Hr|].
      repeat split; auto. }
  destruct Hb as (Hmb & Hcb & Hib & Hpb & Hqb & Hsub & Hnew).
  assert (Hsp : chats sp = chats sb ∧ messages sp = messages sb ∧ images sp = images sb).
  { unfold sp, withLegacyPrompts. destruct (legacyPrompts data) as [ps|]; [|done].
    clear. unfold addPrompts. revert sb. induction ps.*2 as [|p l IH]; intros sb; [done|].
    cbn [foldl]. destruct (IH {| chats := chats sb; messages := messages sb;
      images := images sb; prompts := <[(promptSeq sb + 1)%N:=p]> (prompts sb);
      promptSeq := (promptSeq sb + 1)%N |}) as (-> & -> & ->). done. }
  destruct Hsp as (Hcs & Hms & His).
  rewrite Hcb, Hib, Hpb, Hqb, Hia, Hpa, Hqa. rewrite <- Hma.
  do 7 (split; [by auto|]).
  assert (Himg : chats s1 = chats sp ∧ messages s1 = messages sp
                 ∧ prompts s1 = prompts sp ∧ promptSeq s1 = promptSeq sp
                 ∧ heldImages (default [] (legacyImages data)) (images s1)
                 ∧ (∀ k v, images sp !! k = Some v → images s1 !! k = Some v)
                 ∧ (∀ k v, images s1 !! k = Some v →
                      images sp !! k = Some v
                      ∨ ∃ img, img ∈ default [] (legacyImages data)
                               ∧ hydrate atob img = Some (k, v))).
  { destruct (legacyImages data) as [imgs|]; simpl.
    - set (cands := filter (λ x, legacyId x ∉ Table.primaryKeys (images sp)) imgs) in *.
      assert (Hsplit : ∀ img, img ∈ imgs →
                         is_Some (images sp !! legacyId img) ∨ img ∈ cands).
      { intros img Hin.
        destruct (decide (legacyId img ∈ Table.primaryKeys (images sp))) as [Hk|Hk].
        - left. by apply elem_of_primaryKeys.
        - right. by apply list_elem_of_filter. }
      case_bool_decide as Hlen.
      + destruct (hydrateAll atob cands) as [hs|] eqn:Eh; [|done].
        destruct (bulkAdd_spec hs (images sp)) as (H1 & H2 & H3).
        destruct (Table.bulkAdd hs (images sp)) as [[[]|] t] eqn:E; [|done].
        injection Himgs as <-. cbn [fst snd] in *. simpl.
        destruct (hydrateAll_resolved cands hs Eh) as [Hids Hfrom].
        destruct (H3 eq_refl) as [_ Hall].
        do 4 (split; [done|]). split; [|split; [done|]].
        * intros img Hin. destruct (Hsplit img Hin) as [[v Hv]|Hc].
          -- exists v. by apply H1.
          -- assert (Hid : legacyId img ∈ hs.*1)
               by (rewrite Hids; apply list_elem_of_fmap; by exists img).
             apply list_elem_of_fmap in Hid as ([k v] & Hk & Hr). simpl in Hk. subst k.
             destruct (Hall _ _ Hr) as [_ ?]. eauto.
        * intros k v Hk. destruct (H2 k v Hk) as [?|Hr]; [by left | right].
          destruct (Hfrom _ Hr) as (img & Hc & Hh). exists img. split; [|done].
          by apply list_elem_of_filter in Hc as [_ ?].
      + injection Himgs as <-. do 4 (split; [done|]). split; [|split; [done | by left]].
        intros img Hin. destruct (Hsplit img Hin) as [?|Hc]; [done|].
        exfalso. apply Hlen. by eapply nonempty_length.
    - injection Himgs as <-. do 4 (split; [done|]). split; [|split; [done | by left]].
      intros img Hin. by apply not_elem_of_nil in Hin. }
  destruct Himg as (G1 & G2 & G3 & G4 & G5 & G6 & G7).
  rewrite G1, G2, G3, G4, Hcs, Hms. do 5 (split; [done|]).
  rewrite His, Hib, Hia in G6, G7. done.
Qed.
End LegacyFacts.

Lemma promptKeysOk_ext s s' :
  prompts s' = prompts s → promptSeq s' = promptSeq s → promptKeysOk s → promptKeysOk s'.
Proof. unfold promptKeysOk. by intros -> ->. Qed.

(** * The two invariants of the images table *)

Lemma ownersOk_spec s : ownersOk s = true ↔ imageInvariant s.
Proof.
  unfold ownersOk, imageInvariant. rewrite forallb_forall. split.
  - intros H x img Hx. specialize (H (x, img)). simpl in H.
    destruct (isGalleryVisible img); [by left | right].
    apply isImageReferenced_spec, Is_true_true, H.
    by apply list_elem_of_In, elem_of_toArray.
  - intros H [x img] Hin. apply list_elem_of_In, elem_of_toArray in Hin. simpl.
    destruct (H x img Hin) as [->|Href]; [done|].
    apply isImageReferenced_spec, Is_true_true in Href. rewrite Href. apply orb_true_r.
Qed.

Lemma plain_indexed img : plain img → indexed img.
Proof. intros [Hv Ht]. unfold indexed. rewrite Hv, Ht. naive_solver. Qed.

Section CreateFacts.
Import App.

Lemma storeFiles_spec files : ∀ acc s,
  let res := storeFiles files acc s in
  messages res.2 = messages s ∧ chats res.2 = chats s
  ∧ prompts res.2 = prompts s ∧ promptSeq res.2 = promptSeq s
  ∧ (∀ k v, images s !! k = Some v → images res.2 !! k = Some v)
  ∧ (∀ k v, images res.2 !! k = Some v →
       images s !! k = Some v ∨ (plain v ∧ k ∈ imgId <$> files))
  ∧ (∀ ids, res.1 = Stored ids →
       ids = acc ++ (imgId <$> files)
       ∧ ∀ k, k ∈ imgId <$> files → is_Some (images res.2 !! k)).
Proof.
  induction files as [|f files IH]; intros acc s.
  - simpl. do 6 (split; [by auto|]). intros ids [= <-]. rewrite app_nil_r.
    split; [done|]. intros k Hk. by apply not_elem_of_nil in Hk.
  - cbn [storeFiles]. destruct (acceptedType f) as [ty|].
    2:{ simpl. do 6 (split; [by auto|]). intros; done. }
    unfold Table.add. destruct (images s !! imgId f) as [old|] eqn:E.
    { simpl. do 6 (split; [by auto|]). intros; done. }
    set (rec := {| blob := optimized f; thumbnail := Some (thumb f);
                   mimeType := finalMime f ty; createdAt := fileNow f;
                   isGalleryVisible := false; galleryTimestamp := None |}).
    specialize (IH (acc ++ [imgId f]) (setImages (λ _, <[imgId f := rec]> (images s)) s)).
    cbv zeta in IH. destruct IH as (I1 & I2 & I3 & I4 & I5 & I6 & I7).
    cbv zeta. rewrite I1, I2, I3, I4. simpl in I5, I6.
    do 4 (split; [done|]). split; [|split].
    + intros k v Hk. apply I5. rewrite lookup_insert_ne; [done|]. intros <-. congruence.
    + intros k v Hk. destruct (I6 k v Hk) as [Hin|[Hp Hin]].
      * destruct (decide (imgId f = k)) as [<-|Hne].
        -- rewrite lookup_insert_eq in Hin. injection Hin as <-. right.
           split; [done|]. rewrite fmap_cons. by left.
        -- rewrite lookup_insert_ne in Hin by done. by left.
      * right. split; [done|]. rewrite fmap_cons. by right.
    + intros ids Hres. apply I7 in Hres as [-> Hall]. split; [by rewrite <- app_assoc|].
      intros k Hk. rewrite fmap_cons in Hk.
      apply elem_of_cons in Hk as [->|Hk]; [|by apply Hall].
      exists rec. apply I5. by rewrite lookup_insert_eq.
Qed.

Lemma saveGenerated_spec imgs : ∀ acc s,
  let res := saveGenerated imgs acc s in
  messages res.2 = messages s ∧ chats res.2 = chats s
  ∧ prompts res.2 = prompts s ∧ promptSeq res.2 = promptSeq s
  ∧ (∀ k v, images s !! k = Some v → images res.2 !! k = Some v)
  ∧ (∀ k v, images res.2 !! k = Some v →
       images s !! k = Some v ∨ (plain v ∧ k ∈ genId <$> imgs))
  ∧ (∀ ids, res.1 = Resolved ids →
       ids = acc ++ (genId <$> imgs)
       ∧ ∀ k, k ∈ genId <$> imgs → is_Some (images res.2 !! k)).
Proof.
  induction imgs as [|g imgs IH]; intros acc s.
  - simpl. do 6 (split; [by auto|]). intros ids [= <-]. rewrite app_nil_r.
    split; [done|]. intros k Hk. by apply not_elem_of_nil in Hk.
  - cbn [saveGenerated].
    unfold Table.add. destruct (images s !! genId g) as [old|] eqn:E.
    { simpl. do 6 (split; [by auto|]). intros; done. }
    set (rec := {| blob := genBlob g; thumbnail := Some (genThumb g);
                   mimeType := blob_type (genBlob g); createdAt := genNow g;
                   isGalleryVisible := false; galleryTimestamp := None |}).
    specialize (IH (acc ++ [genId g]) (setImages (λ _, <[genId g := rec]> (images s)) s)).
    cbv zeta in IH. destruct IH as (I1 & I2 & I3 & I4 & I5 & I6 & I7).
    cbv zeta. rewrite I1, I2, I3, I4. simpl in I5, I6.
    do 4 (split; [done|]). split; [|split].
    + intros k v Hk. apply I5. rewrite lookup_insert_ne; [done|]. intros <-. congruence.
    + intros k v Hk. destruct (I6 k v Hk) as [Hin|[Hp Hin]].
      * destruct (decide (genId g = k)) as [<-|Hne].
        -- rewrite lookup_insert_eq in Hin. injection Hin as <-. right.
           split; [done|]. rewrite fmap_cons. by left.
        -- rewrite lookup_insert_ne in Hin by done. by left.
      * right. split; [done|]. rewrite fmap_cons. by right.
    + intros ids Hres. apply I7 in Hres as [-> Hall]. split; [by rewrite <- app_assoc|].
      intros k Hk. rewrite fmap_cons in Hk.
      apply elem_of_cons in Hk as [->|Hk]; [|by apply Hall].
      exists rec. apply I5. by rewrite lookup_insert_eq.
Qed.
End CreateFacts.

(** ** The sparse index under each operation *)

Lemma imagesFrom_refl s : imagesFrom s s.
Proof. intros k v ?. by left. Qed.

Lemma imagesFrom_trans s1 s2 s3 : imagesFrom s1 s2 → imagesFrom s2 s3 → imagesFrom s1 s3.
Proof.
  intros H12 H23 k v Hk. destruct (H23 k v Hk) as [H2|?]; [|by right]. by apply H12.
Qed.

Lemma imagesFrom_same s s' : images s' = images s → imagesFrom s s'.
Proof. intros Heq k v Hk. left. by rewrite <- Heq. Qed.

Lemma imagesFrom_sparse s s' : imagesFrom s s' → sparseIndex s → sparseIndex s'.
Proof. intros Hfrom Hs k v Hk. destruct (Hfrom k v Hk) as [?|?]; [by eapply Hs | done]. Qed.

Section SparseFacts.
Import cleanupService dataService Gallery App.

Lemma bookmark_indexed ts img : indexed (bookmark ts img).
Proof. unfold indexed. simpl. naive_solver. Qed.

Lemma unbookmark_indexed img : indexed (unbookmark img).
Proof. unfold indexed. simpl. naive_solver. Qed.

Lemma from_deleteImagesIfOrphaned ids s : imagesFrom s (deleteImagesIfOrphaned ids s).
Proof.
  intros k v Hk. left. rewrite deleteImagesIfOrphaned_images in Hk.
  destruct (images s !! k) as [img|]; [|done]. by destruct (sweeps ids s k img).
Qed.

Lemma from_deleteMessagesWithCleanup S s : imagesFrom s (deleteMessagesWithCleanup S s).
Proof.
  unfold deleteMessagesWithCleanup. case_bool_decide; [apply imagesFrom_refl|].
  case_bool_decide; [|by apply imagesFrom_same].
  eapply imagesFrom_trans; [|apply from_deleteImagesIfOrphaned]. by apply imagesFrom_same.
Qed.

Lemma from_deleteMessagesSafe S s : imagesFrom s (deleteMessagesSafe S s).
Proof.
  intros k v Hk. left. rewrite safe_images in Hk.
  destruct (images s !! k) as [img|]; [|done].
  by destruct (_ && _).
Qed.

Lemma from_deleteChatWithCleanup c s : imagesFrom s (deleteChatWithCleanup c s).
Proof.
  unfold deleteChatWithCleanup. case_bool_decide; [|by apply imagesFrom_same].
  eapply imagesFrom_trans; [|apply from_deleteImagesIfOrphaned]. by apply imagesFrom_same.
Qed.

Lemma from_forceDeleteImages ids s : imagesFrom s (forceDeleteImages ids s).
Proof.
  destruct (forceDeleteImages_spec ids s) as (Himg & _).
  intros k v Hk. left. rewrite Himg in Hk. by destruct (decide (k ∈ ids)).
Qed.

Lemma cleanup_cases fl s :
  cleanupOrphanedImages fl s =
    if faulty (sweepRequests s) fl then (Resolved 0, s)
    else (Resolved (Z.of_nat (length (sweepOrphans s))),
          setImages (Table.bulkDelete (sweepOrphans s)) s).
Proof.
  pose proof (cleanup_transaction_run fl s) as Hrun. unfold cleanupOrphanedImages.
  destruct (Tx.transaction cleanupBody fl s) as [[r s'] fl']. simpl in Hrun.
  destruct (faulty (sweepRequests s) fl); by injection Hrun as -> ->.
Qed.

Lemma from_cleanup fl s : imagesFrom s (cleanupOrphanedImages fl s).2.
Proof.
  rewrite cleanup_cases. destruct (faulty _ fl); [apply imagesFrom_refl|].
  intros k v Hk. left. simpl in Hk. rewrite lookup_bulkDelete in Hk.
  by destruct (decide (k ∈ sweepOrphans s)).
Qed.

Lemma from_storeFiles files acc s : imagesFrom s (storeFiles files acc s).2.
Proof.
  destruct (storeFiles_spec files acc s) as (_ & _ & _ & _ & _ & H & _).
  intros k v Hk. destruct (H k v Hk) as [?|[? _]]; [by left | right; by apply plain_indexed].
Qed.

Lemma from_saveGenerated imgs acc s : imagesFrom s (saveGenerated imgs acc s).2.
Proof.
  destruct (saveGenerated_spec imgs acc s) as (_ & _ & _ & _ & _ & H & _).
  intros k v Hk. destruct (H k v Hk) as [?|[? _]]; [by left | right; by apply plain_indexed].
Qed.

Lemma addMessage_rest k m s s' :
  addMessage k m s = Resolved s' →
  images s' = images s ∧ chats s' = chats s ∧ prompts s' = prompts s
  ∧ promptSeq s' = promptSeq s ∧ messages s !! k = None ∧ messages s' = <[k := m]> (messages s).
Proof.
  unfold addMessage, Table.add. destruct (messages s !! k) eqn:E; [done|].
  by intros [= <-].
Qed.

Lemma recordFailure_rest c e msg now s :
  images (recordFailure c e msg now s) = images s
  ∧ (∀ k v, messages s !! k = Some v → messages (recordFailure c e msg now s) !! k = Some v).
Proof.
  unfold recordFailure. destruct (addMessage _ _ s) as [s'|] eqn:E; [|done].
  apply addMessage_rest in E as (-> & _ & _ & _ & Hnone & ->). split; [done|].
  intros k v Hk. rewrite lookup_insert_ne; [done|]. intros <-. congruence.
Qed.

Lemma from_handleSendMessage c k text files now s :
  imagesFrom s (handleSendMessage c k text files now s).1.
Proof.
  unfold handleSendMessage. pose proof (from_storeFiles files [] s) as Hf.
  destruct (storeFiles files [] s) as [[ids| |] s1]; simpl in *; try done.
  destruct (addMessage _ _ s1) as [s2|] eqn:E; [|done]. simpl.
  apply addMessage_rest in E as (Hi & _). eapply imagesFrom_trans; [exact Hf|].
  by apply imagesFrom_same.
Qed.

Lemma from_processGeneration c g e msg now s :
  imagesFrom s (processGeneration c g e msg now s).
Proof.
  unfold processGeneration. destruct g as [rt th imgs info k t| |].
  - pose proof (from_saveGenerated imgs [] s) as Hf.
    destruct (saveGenerated imgs [] s) as [[ids|] s1]; simpl in *.
    + destruct (addMessage _ _ s1) as [s2|] eqn:E.
      * apply addMessage_rest in E as (Hi & _). eapply imagesFrom_trans; [exact Hf|].
        by apply imagesFrom_same.
      * eapply imagesFrom_trans; [exact Hf|]. apply imagesFrom_same.
        by destruct (recordFailure_rest c e msg now s1).
    + eapply imagesFrom_trans; [exact Hf|]. apply imagesFrom_same.
      by destruct (recordFailure_rest c e msg now s1).
  - apply imagesFrom_refl.
  - apply imagesFrom_same. by destruct (recordFailure_rest c e msg now s).
Qed.

Lemma from_handleEditMessage c k text kept files s :
  imagesFrom s (handleEditMessage c k text kept files s).1.
Proof.
  unfold handleEditMessage. destruct (messages s !! k) as [target|]; [|apply imagesFrom_refl].
  set (later := (laterThan c target s).*1).
  eapply imagesFrom_trans; [apply (from_deleteMessagesWithCleanup later s)|].
  pose proof (from_storeFiles files kept (deleteMessagesWithCleanup later s)) as Hf.
  destruct (storeFiles files kept _) as [[ids| |] s2]; simpl in *; try done.
  eapply imagesFrom_trans; [exact Hf|].
  destruct (imageIds target) as [old|]; [|by apply imagesFrom_same].
  case_bool_decide; [|by apply imagesFrom_same].
  eapply imagesFrom_trans; [apply from_deleteImagesIfOrphaned|]. by apply imagesFrom_same.
Qed.

Lemma handleFork_images c k nc title newId now s :
  images (handleFork c k nc title newId now s).1 = images s.
Proof.
  unfold handleFork. destruct (messages s !! k); [|done].
  unfold Table.add. destruct (chats s !! nc); [done|]. simpl.
  by destruct (Table.bulkAdd _ _) as [[[]|] t].
Qed.

Lemma createNewChat_rest id now s :
  images (createNewChat id now s) = images s ∧ messages (createNewChat id now s) = messages s.
Proof. unfold createNewChat, Table.add. by destruct (chats s !! id). Qed.

Lemma from_updateEach {A} (key : A → string) (change : A → ImageBlob → ImageBlob) l s :
  (∀ a img, indexed (change a img)) → imagesFrom s (updateEach key change l s).
Proof.
  intros Hch k v Hk.
  pose proof (updateEach_related key change (λ i j, j = i ∨ indexed j) l s k) as H.
  rewrite Hk in H.
  assert (H1 : ∀ img : ImageBlob, img = img ∨ indexed img) by (by left).
  assert (H2 : ∀ i j w : ImageBlob,
            j = i ∨ indexed j → w = j ∨ indexed w → w = i ∨ indexed w)
    by (intros i j w [->|?] [->|?]; auto).
  assert (H3 : ∀ (a : A) (img : ImageBlob),
            a ∈ l → change a img = img ∨ indexed (change a img))
    by (intros a img' _; right; apply Hch).
  specialize (H H1 H2 H3).
  destruct (images s !! k) as [img|]; [|done]. destruct H as [->|?]; auto.
Qed.

Lemma from_handleBulkUnbookmark ids s : imagesFrom s (handleBulkUnbookmark ids s).
Proof. apply (from_updateEach id (λ _, unbookmark)). intros. apply unbookmark_indexed. Qed.

Lemma from_handleToggleGallery ids s : imagesFrom s (handleToggleGallery ids s).1.
Proof.
  unfold handleToggleGallery. destruct (existsb _ _).
  - case_bool_decide; [apply imagesFrom_refl|]. simpl.
    apply (from_updateEach fst (λ r, bookmark (createdAt r.2))).
    intros. apply bookmark_indexed.
  - simpl. apply (from_updateEach fst (λ _, unbookmark)). intros. apply unbookmark_indexed.
Qed.

Lemma from_alter k (f : ImageBlob → ImageBlob) s :
  (∀ img, indexed (f img)) → imagesFrom s (setImages (Table.update k f) s).
Proof.
  intros Hf j v Hj. simpl in Hj. unfold Table.update in Hj.
  destruct (decide (j = k)) as [->|Hne].
  - rewrite lookup_alter_eq in Hj. destruct (images s !! k); [|done].
    injection Hj as <-. right. apply Hf.
  - rewrite lookup_alter_ne in Hj by done. by left.
Qed.

Lemma from_handleToggleBookmark x s : imagesFrom s (Lightbox.handleToggleBookmark x s).1.
Proof.
  unfold Lightbox.handleToggleBookmark. destruct x as [id|]; [|apply imagesFrom_refl].
  case_bool_decide; [apply imagesFrom_refl|].
  destruct (images s !! id) as [img|]; [|apply imagesFrom_refl].
  destruct (isGalleryVisible img).
  - apply from_alter. apply unbookmark_indexed.
  - case_bool_decide; [apply imagesFrom_refl|]. apply from_alter. intros. apply bookmark_indexed.
Qed.
End SparseFacts.

Section ImportSparse.
Import importExportService.
Variable createThumbnail : Blob → Blob.
Variable atob : string → option (list Byte.byte).

Lemma addPrompts_rest ps : ∀ s,
  chats (addPrompts ps s) = chats s ∧ messages (addPrompts ps s) = messages s
  ∧ images (addPrompts ps s) = images s.
Proof.
  unfold addPrompts. induction ps as [|p ps IH]; intros s; [done|].
  cbn [foldl]. destruct (IH {| chats := chats s; messages := messages s;
    images := images s; prompts := <[(promptSeq s + 1)%N:=p]> (prompts s);
    promptSeq := (promptSeq s + 1)%N |}) as (-> & -> & ->). done.
Qed.

Lemma withPrompts_rest ps s :
  chats (withPrompts ps s) = chats s ∧ messages (withPrompts ps s) = messages s
  ∧ images (withPrompts ps s) = images s.
Proof.
  unfold withPrompts. destruct ps as [ps|]; [|done].
  case_bool_decide; [apply addPrompts_rest | done].
Qed.

Lemma withLegacyPrompts_rest ps s :
  chats (withLegacyPrompts ps s) = chats s ∧ messages (withLegacyPrompts ps s) = messages s
  ∧ images (withLegacyPrompts ps s) = images s.
Proof. unfold withLegacyPrompts. destruct ps as [ps|]; [apply addPrompts_rest | done]. Qed.

Lemma prepare_indexed zip m r : prepare createThumbnail zip m = Some r → indexed r.2.
Proof.
  unfold prepare. destruct (match imageFiles zip !! _ with Some _ => _ | None => _ end);
    [|done].
  intros [= <-]. unfold indexed. simpl. destruct (metaIsGalleryVisible m); naive_solver.
Qed.

Lemma hydrate_indexed img r : hydrate atob img = Some r → indexed r.2.
Proof.
  unfold hydrate. destruct (atob (legacyBlob img)); [|done].
  intros [= <-]. unfold indexed. simpl. destruct (legacyIsGalleryVisible img); naive_solver.
Qed.

(** What an import does to the images and messages tables: it only adds,
    and what it adds comes from the file. *)
Lemma importZip_effect zip s :
  let s' := (importZip createThumbnail zip s).2 in
  (∀ k v, images s !! k = Some v → images s' !! k = Some v)
  ∧ (∀ k v, images s' !! k = Some v →
       images s !! k = Some v
       ∨ ∃ data m, dataFile zip = Some data ∧ m ∈ default [] (dataImages data)
                   ∧ prepare createThumbnail zip m = Some (k, v))
  ∧ (∀ k v, messages s !! k = Some v → messages s' !! k = Some v).
Proof.
  unfold importZip. destruct (dataFile zip) as [data|] eqn:Ed; [|by auto].
  destruct (mergeMetadata data s) as [sm|] eqn:Em; [|by auto].
  destruct (mergeMetadata_resolved data s sm Em)
    as (s0 & -> & _ & _ & Hi0 & _ & _ & Hm0 & _).
  destruct (withPrompts_rest (dataPrompts data) s0) as (_ & Hmp & Hip).
  destruct (dataImages data) as [imgs|] eqn:Ei.
  - pose proof (importBatches_spec createThumbnail zip imgs (batchStarts (length imgs))
                  (Resolved ()) (withPrompts (dataPrompts data) s0)) as Hb.
    cbv zeta in Hb. fold (importBatches createThumbnail zip imgs
                            (withPrompts (dataPrompts data) s0)) in Hb.
    destruct (importBatches createThumbnail zip imgs _) as [[[]|] sb];
      cbn [fst snd] in *; destruct Hb as (_ & Hmb & _ & _ & Hsub & Hnew & _);
      rewrite Hip, Hi0 in Hsub, Hnew; rewrite Hmb, Hmp.
    + split; [done|]. split; [|done]. intros k v Hk.
      destruct (Hnew k v Hk) as [?|(m & ? & ?)]; [by left | right].
      exists data, m. by rewrite Ei.
    + split; [done|]. split; [|done]. intros k v Hk.
      destruct (Hnew k v Hk) as [?|(m & ? & ?)]; [by left | right].
      exists data, m. by rewrite Ei.
  - cbn [snd]. rewrite Hip, Hi0, Hmp. split; [done|]. split; [by left | done].
Qed.

Lemma importLegacyJson_effect file s :
  let s' := (importLegacyJson atob file s).2 in
  (∀ k v, images s !! k = Some v → images s' !! k = Some v)
  ∧ (∀ k v, images s' !! k = Some v →
       images s !! k = Some v
       ∨ ∃ data img, file = Some data ∧ img ∈ default [] (legacyImages data)
                     ∧ hydrate atob img = Some (k, v))
  ∧ (∀ k v, messages s !! k = Some v → messages s' !! k = Some v).
Proof.
  unfold importLegacyJson. destruct file as [data|]; [|by auto].
  destruct (mergeLegacy atob data s) as [sm|] eqn:Em; [|by auto].
  destruct (mergeLegacy_resolved atob data s sm Em)
    as (s0 & _ & _ & _ & _ & _ & Hm0 & _ & _ & Hms & _ & _ & _ & Hsub & Hnew).
  cbn [snd]. rewrite Hms. split; [done|]. split; [|done].
  intros k v Hk. destruct (Hnew k v Hk) as [?|(img & ? & ?)]; [by left | right].
  by exists data, img.
Qed.

Lemma from_importData file s : imagesFrom s (importData createThumbnail atob file s).2.
Proof.
  destruct file as [data|zip]; simpl.
  - destruct (importLegacyJson_effect data s) as (_ & Hnew & _).
    intros k v Hk. destruct (Hnew k v Hk) as [?|(d & img & _ & _ & Hh)]; [by left | right].
    by apply hydrate_indexed in Hh.
  - destruct (importZip_effect zip s) as (_ & Hnew & _).
    intros k v Hk. destruct (Hnew k v Hk) as [?|(d & m & _ & _ & Hp)]; [by left | right].
    by apply prepare_indexed in Hp.
Qed.

Lemma from_run o s : imagesFrom s (Session.run createThumbnail atob o s).
Proof.
  destruct o; simpl.
  - apply imagesFrom_same. by destruct (createNewChat_rest id now s).
  - by apply imagesFrom_same.
  - by apply imagesFrom_same.
  - apply from_handleSendMessage.
  - apply from_processGeneration.
  - apply from_handleEditMessage.
  - apply imagesFrom_same. apply handleFork_images.
  - apply from_deleteMessagesWithCleanup.
  - apply from_deleteMessagesSafe.
  - apply from_deleteChatWithCleanup.
  - apply from_forceDeleteImages.
  - apply from_handleBulkUnbookmark.
  - apply from_handleToggleGallery.
  - apply from_handleToggleBookmark.
  - apply from_importData.
  - apply from_cleanup.
Qed.

End ImportSparse.

Lemma upgradeV3_sparse s :
  (∀ x img, images s !! x = Some img →
            isGalleryVisible img = false → galleryTimestamp img = None) →
  sparseIndex (OkobitDB.upgradeV3 s).
Proof.
  intros Hstale x img Hx. unfold OkobitDB.upgradeV3 in Hx. simpl in Hx.
  rewrite lookup_fmap in Hx. destruct (images s !! x) as [old|] eqn:E; [|done].
  injection Hx as <-. specialize (Hstale x old E).
  unfold OkobitDB.upgradeImage, indexed.
  destruct (isGalleryVisible old) eqn:Hv; simpl.
  - unfold OkobitDB.falsy. destruct (galleryTimestamp old) as [ts|] eqn:Ht; simpl.
    + case_bool_decide; simpl; rewrite ?Hv, ?Ht; naive_solver.
    + rewrite Hv. naive_solver.
  - rewrite Hv, Hstale by done. naive_solver.
Qed.


(** ** The ownership invariant under each operation *)

Lemma referenced_keeps x s s' : keepsMessages s s' → referenced x s → referenced x s'.
Proof. intros Hk (k & m & Hm & Hl). exists k, m. split; [by apply Hk | done]. Qed.

Lemma referenced_same x s s' : messages s' = messages s → referenced x s → referenced x s'.
Proof. unfold referenced. by intros ->. Qed.

Lemma referenced_dec x s : referenced x s ∨ ¬ referenced x s.
Proof.
  destruct (cleanupService.isImageReferenced x s) eqn:E.
  - left. apply isImageReferenced_spec. by rewrite E.
  - right. by apply isImageReferenced_false.
Qed.

(** A store whose images are old images, bookmarked, or listed, and whose
    messages were kept, satisfies the invariant when the old one did. *)
Lemma invariant_grow s s' :
  imageInvariant s → keepsMessages s s' →
  (∀ x img, images s' !! x = Some img →
     images s !! x = Some img ∨ isGalleryVisible img = true ∨ referenced x s') →
  imageInvariant s'.
Proof.
  intros Hinv Hk Himg x img Hx. destruct (Himg x img Hx) as [Hold|[?|?]]; auto.
  destruct (Hinv x img Hold); [by left | right]. by eapply referenced_keeps.
Qed.

Section OwnerFacts.
Import cleanupService dataService Gallery App.

(** The sweep that follows a removal of references: when every image that
    lost its last reference is among the swept ids, the invariant holds
    again. *)
Lemma sweep_restores ids s0 s :
  imageInvariant s0 → images s = images s0 →
  (∀ x, referenced x s0 → ¬ referenced x s → x ∈ ids) →
  imageInvariant (deleteImagesIfOrphaned ids s).
Proof.
  intros Hinv Himg Hlost x img Hx.
  destruct (deleteImagesIfOrphaned_rest ids s) as (Hm & _).
  rewrite deleteImagesIfOrphaned_images in Hx.
  destruct (images s !! x) as [img0|] eqn:E; [|done].
  destruct (sweeps ids s x img0) eqn:Hsw; [done|]. injection Hx as <-.
  rewrite Himg in E. destruct (Hinv x img0 E) as [?|Href]; [by left|].
  destruct (isGalleryVisible img0) eqn:Hv; [by left|]. right.
  apply (referenced_same x s); [done|].
  destruct (referenced_dec x s) as [?|Hno]; [done|]. exfalso.
  unfold sweeps in Hsw. rewrite Hv in Hsw.
  rewrite bool_decide_eq_true_2 in Hsw by (by apply Hlost).
  apply isImageReferenced_false in Hno. by rewrite Hno in Hsw.
Qed.

Lemma deleteImagesIfOrphaned_nil s : deleteImagesIfOrphaned [] s = s.
Proof. done. Qed.

Lemma owners_deleteMessagesWithCleanup S s :
  imageInvariant s → imageInvariant (deleteMessagesWithCleanup S s).
Proof.
  intros Hinv. unfold deleteMessagesWithCleanup. case_bool_decide; [done|].
  set (cands := collectImageIds (Table.whereIdAnyOf S (messages s))).
  assert (Hgoal : imageInvariant
            (deleteImagesIfOrphaned cands (setMessages (Table.bulkDelete S) s))).
  { apply (sweep_restores cands s); [done | done |].
    intros x (k & m & Hk & Hl) Hno. apply collect_whereIdAnyOf.
    exists k, m. split; [|done].
    destruct (decide (k ∈ S)); [done|]. exfalso. apply Hno.
    apply referenced_after_bulkDelete. by exists k, m. }
  case_bool_decide as Hlen; [done|].
  assert (cands = []) as Hc by (destruct cands; [done | simpl in Hlen; lia]).
  by rewrite Hc in Hgoal.
Qed.

Lemma owners_deleteChatWithCleanup c s :
  imageInvariant s → imageInvariant (deleteChatWithCleanup c s).
Proof.
  intros Hinv. unfold deleteChatWithCleanup.
  set (msgs := whereChatIdEquals c (messages s)).
  set (cands := collectImageIds msgs).
  set (s2 := setChats (delete c) (setMessages (Table.bulkDelete msgs.*1) s)).
  assert (Hgoal : imageInvariant (deleteImagesIfOrphaned cands s2)).
  { apply (sweep_restores cands s); [done | done |].
    intros x (k & m & Hk & Hl) Hno. apply elem_of_collectImageIds.
    exists (k, m). split; [|done].
    destruct (decide (chatId m = c)) as [Hc|Hc].
    - apply list_elem_of_filter. split; [done | by apply elem_of_toArray].
    - exfalso. apply Hno. exists k, m. split; [|done]. simpl.
      rewrite lookup_bulkDelete, decide_False; [done|].
      intros ([k' m'] & Heq & Hin)%list_elem_of_fmap. simpl in Heq. subst k'.
      apply list_elem_of_filter in Hin as [Hc' Hin]. apply elem_of_toArray in Hin.
      simpl in Hc'. congruence. }
  case_bool_decide as Hlen; [done|].
  assert (cands = []) as Hc by (destruct cands; [done | simpl in Hlen; lia]).
  by rewrite Hc in Hgoal.
Qed.

Lemma deleteMessagesSafe_messages S s k :
  messages (deleteMessagesSafe S s) !! k = if decide (k ∈ S) then None else messages s !! k.
Proof.
  unfold deleteMessagesSafe. simpl.
  case_bool_decide; [case_bool_decide|]; simpl; apply lookup_bulkDelete.
Qed.

Lemma owners_deleteMessagesSafe S s :
  imageInvariant s → imageInvariant (deleteMessagesSafe S s).
Proof.
  intros Hinv x img Hx. rewrite safe_images in Hx.
  destruct (images s !! x) as [img0|] eqn:E; [|done].
  destruct (bool_decide _ && _ && _) eqn:Hdel; [done|]. injection Hx as <-.
  destruct (isGalleryVisible img0) eqn:Hv; [by left|]. right.
  destruct (Hinv x img0 E) as [?|(k & m & Hk & Hl)]; [congruence|].
  assert (Hout : listedOutside S x s).
  { destruct (decide (k ∈ S)) as [Hin|Hnin]; [|by exists k, m].
    rewrite bool_decide_eq_true_2 in Hdel by (apply collect_bulkGet; by exists k, m).
    simpl in Hdel. apply isReferencedElsewhere_spec.
    by destruct (isReferencedElsewhere S x s). }
  destruct Hout as (k' & m' & Hk' & Hm' & Hl'). exists k', m'. split; [|done].
  by rewrite deleteMessagesSafe_messages, decide_False.
Qed.

Lemma owners_forceDeleteImages ids s :
  imageInvariant s → imageInvariant (forceDeleteImages ids s).
Proof.
  intros Hinv x img Hx. destruct (forceDeleteImages_spec ids s) as (Himg & Hmsg & _).
  rewrite Himg in Hx. destruct (decide (x ∈ ids)) as [|Hn]; [done|].
  destruct (Hinv x img Hx) as [?|(k & m & Hk & Hl)]; [by left | right].
  exists k, (purge ids m). split; [by rewrite Hmsg, Hk|]. by apply purge_lists.
Qed.

Lemma owners_cleanup fl s :
  imageInvariant s → imageInvariant (cleanupOrphanedImages fl s).2.
Proof.
  intros Hinv. rewrite cleanup_cases. destruct (faulty _ fl); [done|].
  intros x img Hx. simpl in Hx. rewrite lookup_bulkDelete in Hx.
  destruct (decide (x ∈ sweepOrphans s)) as [|Hn]; [done|].
  destruct (Hinv x img Hx); [by left | by right].
Qed.
End OwnerFacts.

Section OwnerFacts2.
Import cleanupService Gallery App.

Lemma keepsMessages_insert k m s s' :
  messages s !! k = None → messages s' = <[k := m]> (messages s) → keepsMessages s s'.
Proof.
  intros Hnone Heq j v Hj. rewrite Heq, lookup_insert_ne; [done|]. intros <-. congruence.
Qed.

Lemma owners_handleSendMessage c k text files now s :
  imageInvariant s →
  (∃ ids s1, storeFiles files [] s = (Stored ids, s1)) → messages s !! k = None →
  imageInvariant (handleSendMessage c k text files now s).1.
Proof.
  intros Hinv (ids & s1 & Hst) Hfresh. unfold handleSendMessage.
  destruct (storeFiles_spec files [] s) as (Hm & _ & _ & _ & _ & Hnew & Hids).
  rewrite Hst in *. cbn [fst snd] in *.
  destruct (Hids ids eq_refl) as [-> _]. simpl app.
  set (msg := {| chatId := c; role := user; text := text;
                 imageIds := Some (imgId <$> files); timestamp := now;
                 thoughts := None; meta := None; error := None |}).
  cbv beta iota. unfold addMessage, Table.add.
  destruct (messages s1 !! k) eqn:Ek; [rewrite Hm in Ek; congruence|]. cbn [fst].
  apply (invariant_grow s); [done | |].
  - apply (keepsMessages_insert k msg); [done|]. simpl. by rewrite Hm.
  - intros x img Hx. simpl in Hx. destruct (Hnew x img Hx) as [?|[_ Hin]]; [by left|].
    right. right. exists k, msg. split; [simpl; by rewrite lookup_insert_eq|].
    exists (imgId <$> files). done.
Qed.

Lemma owners_recordFailure c e msg now s :
  imageInvariant s → imageInvariant (recordFailure c e msg now s).
Proof.
  intros Hinv. destruct (recordFailure_rest c e msg now s) as [Hi Hk].
  apply (invariant_grow s); [done | done |]. intros x img Hx. left. by rewrite <- Hi.
Qed.

Lemma owners_processGeneration c g e msg now s :
  imageInvariant s →
  match g with
  | Produced _ _ imgs _ k _ =>
      (∃ ids s1, saveGenerated imgs [] s = (Resolved ids, s1)) ∧ messages s !! k = None
  | _ => True
  end →
  imageInvariant (processGeneration c g e msg now s).
Proof.
  intros Hinv Hg. unfold processGeneration. destruct g as [rt th imgs info k t| |].
  - destruct Hg as [(ids & s1 & Hst) Hfresh].
    destruct (saveGenerated_spec imgs [] s) as (Hm & _ & _ & _ & _ & Hnew & Hids).
    rewrite Hst in *. cbn [fst snd] in *.
    destruct (Hids ids eq_refl) as [-> _]. simpl app.
    set (reply := {| chatId := c; role := model; text := rt;
                     imageIds := Some (genId <$> imgs); timestamp := t;
                     thoughts := th; meta := Some info; error := None |}).
    cbv beta iota. unfold addMessage, Table.add.
    destruct (messages s1 !! k) eqn:Ek; [rewrite Hm in Ek; congruence|].
    apply (invariant_grow s); [done | |].
    + apply (keepsMessages_insert k reply); [done|]. simpl. by rewrite Hm.
    + intros x img Hx. simpl in Hx. destruct (Hnew x img Hx) as [?|[_ Hin]]; [by left|].
      right. right. exists k, reply. split; [simpl; by rewrite lookup_insert_eq|].
      exists (genId <$> imgs). done.
  - done.
  - by apply owners_recordFailure.
Qed.

Lemma owners_handleEditMessage c k text kept files s :
  imageInvariant s →
  (∀ target, messages s !! k = Some target →
     (∀ x, lists target x → x ∈ kept)
     ∧ ∃ final s2,
         storeFiles files kept (deleteMessagesWithCleanup (laterThan c target s).*1 s)
         = (Stored final, s2)) →
  imageInvariant (handleEditMessage c k text kept files s).1.
Proof.
  intros Hinv Hguard. unfold handleEditMessage.
  destruct (messages s !! k) as [target|] eqn:Ek; [|done].
  destruct (Hguard target eq_refl) as (Hkept & final & s2 & Hst).
  set (later := (laterThan c target s).*1) in *.
  pose proof (owners_deleteMessagesWithCleanup later s Hinv) as Hinv1.
  set (s1 := deleteMessagesWithCleanup later s) in *.
  assert (Hk1 : messages s1 !! k = Some target).
  { unfold s1. rewrite deleteMessagesWithCleanup_messages, decide_False; [done|].
    intros ([k' m'] & Heq & Hin)%list_elem_of_fmap. simpl in Heq. subst k'.
    apply list_elem_of_filter in Hin as [Hlt Hin]. simpl in Hlt.
    apply list_elem_of_filter in Hin as [_ Hin]. apply elem_of_toArray in Hin.
    assert (m' = target) as -> by congruence. lia. }
  destruct (storeFiles_spec files kept s1) as (Hm & _ & _ & _ & _ & Hnew & Hids).
  rewrite Hst in *. cbn [fst snd] in *. destruct (Hids final eq_refl) as [-> _].
  assert (Hs3 : match imageIds target with
                | Some old =>
                    if bool_decide (0 < length (filter (λ id, id ∉ kept) old))%nat
                    then deleteImagesIfOrphaned (filter (λ id, id ∉ kept) old) s2
                    else s2
                | None => s2
                end = s2).
  { destruct (imageIds target) as [old|] eqn:Eo; [|done].
    assert (filter (λ id, id ∉ kept) old = []) as ->; [|done].
    apply elem_of_nil_inv. intros x [Hn Hx]%list_elem_of_filter.
    apply Hn, Hkept. by exists old. }
  rewrite Hs3. cbn [fst].
  set (target' := setTextAndImageIds text (kept ++ (imgId <$> files)) target).
  assert (Hk4 : ∀ j, messages (setMessages
                 (Table.update k (setTextAndImageIds text (kept ++ (imgId <$> files)))) s2) !! j
               = if decide (j = k) then Some target' else messages s1 !! j).
  { intros j. simpl. unfold Table.update. rewrite Hm. destruct (decide (j = k)) as [->|Hne].
    - by rewrite lookup_alter_eq, Hk1.
    - by rewrite lookup_alter_ne. }
  intros x img Hx. simpl in Hx.
  destruct (Hnew x img Hx) as [Hold|[_ Hin]].
  - destruct (Hinv1 x img Hold) as [?|(j & m & Hj & Hl)]; [by left | right].
    destruct (decide (j = k)) as [->|Hne].
    + exists k, target'. split; [by rewrite Hk4, decide_True|].
      assert (m = target) as -> by congruence.
      exists (kept ++ (imgId <$> files)). split; [done|].
      apply elem_of_app. left. by apply Hkept.
    + exists j, m. split; [by rewrite Hk4, decide_False | done].
  - right. exists k, target'. split; [by rewrite Hk4, decide_True|].
    exists (kept ++ (imgId <$> files)). split; [done|]. apply elem_of_app. by right.
Qed.

Lemma owners_handleFork c k nc title newId now s :
  imageInvariant s → imageInvariant (handleFork c k nc title newId now s).1.
Proof.
  intros Hinv. apply (invariant_grow s); [done | |].
  - unfold handleFork. destruct (messages s !! k); [|by intros ? ? ?].
    unfold Table.add. destruct (chats s !! nc); [by intros ? ? ?|].
    set (new := (λ r, (newId r.1, copyInto nc r.2)) <$> _).
    destruct (bulkAdd_spec new (messages s)) as (Hsub & _).
    simpl. destruct (Table.bulkAdd new (messages s)) as [[[]|] t]; simpl in *;
      intros j v Hj; by apply Hsub.
  - intros x img Hx. left. by rewrite handleFork_images in Hx.
Qed.

Lemma updateEach_domain {A} (key : A → string) (change : A → ImageBlob → ImageBlob) l s x img :
  images (updateEach key change l s) !! x = Some img → is_Some (images s !! x).
Proof.
  intros Hx. pose proof (updateEach_related key change (λ _ _, True) l s x) as H.
  rewrite Hx in H. destruct (images s !! x); [eauto|]. exfalso. by apply H.
Qed.

Lemma owners_unbookmarkEach {A} (key : A → string) l s :
  imageInvariant s →
  (∀ x, x ∈ key <$> l → is_Some (images s !! x) → referenced x s) →
  imageInvariant (updateEach key (λ _, unbookmark) l s).
Proof.
  intros Hinv Href x img Hx.
  destruct (updateEach_rest key (λ _, unbookmark) l s) as (Hm & _).
  destruct (decide (x ∈ key <$> l)) as [Hin|Hnin].
  - right. apply (referenced_same x s); [done|]. apply Href; [done|].
    by eapply updateEach_domain.
  - rewrite updateEach_other in Hx by done.
    destruct (Hinv x img Hx); [by left | right]. by apply (referenced_same x s).
Qed.

Lemma owners_bookmarkEach {A} (key : A → string) (ts : A → Z) l s :
  imageInvariant s → imageInvariant (updateEach key (λ a, bookmark (ts a)) l s).
Proof.
  intros Hinv x img Hx.
  destruct (updateEach_rest key (λ a, bookmark (ts a)) l s) as (Hm & _).
  pose proof (updateEach_related key (λ a, bookmark (ts a))
                (λ i j, isGalleryVisible i = true → isGalleryVisible j = true) l s x) as H.
  rewrite Hx in H. destruct (images s !! x) as [old|] eqn:E.
  - destruct (Hinv x old E) as [Hv|?].
    + left. apply H; auto.
    + right. by apply (referenced_same x s).
  - exfalso. apply H; auto.
Qed.

Lemma owners_handleBulkUnbookmark ids s :
  imageInvariant s →
  (∀ x, x ∈ ids → is_Some (images s !! x) → referenced x s) →
  imageInvariant (handleBulkUnbookmark ids s).
Proof.
  intros Hinv Href. apply (owners_unbookmarkEach id ids s Hinv).
  intros x Hx. apply Href. by rewrite list_fmap_id in Hx.
Qed.

Lemma owners_handleToggleGallery ids s :
  imageInvariant s →
  (∃ y, y ∈ ids ∧ unsaved (images s) y)
  ∨ (∀ x, x ∈ ids → is_Some (images s !! x) → referenced x s) →
  imageInvariant (handleToggleGallery ids s).1.
Proof.
  intros Hinv Hguard. unfold handleToggleGallery.
  set (valid := omap id (Table.bulkGet ids (images s))).
  set (toSave := filter (λ r : string * ImageBlob, negb (isGalleryVisible r.2)) valid).
  assert (Hkeys : toSave.*1 = filter (λ z, unsaved (images s) z) ids) by apply toSave_keys.
  rewrite existsb_filter_nonempty. fold toSave.
  case_bool_decide as Hany.
  - case_bool_decide; [done|]. cbn [fst].
    apply (owners_bookmarkEach fst (λ r, createdAt r.2) toSave s Hinv).
  - cbn [fst]. apply (owners_unbookmarkEach fst valid s Hinv).
    intros x Hx Hs. destruct Hguard as [(y & Hy & Hun)|Hall].
    + exfalso. apply Hany. rewrite <- (length_fmap fst toSave), Hkeys.
      eapply nonempty_length, list_elem_of_filter. split; [exact Hun | exact Hy].
    + apply Hall; [|done]. apply list_elem_of_fmap in Hx as ([k v] & -> & Hin).
      by apply elem_of_omap_bulkGet in Hin as [? _].
Qed.

Lemma owners_handleToggleBookmark x s :
  imageInvariant s →
  (∀ i img, x = Some i → images s !! i = Some img →
            isGalleryVisible img = true → referenced i s) →
  imageInvariant (Lightbox.handleToggleBookmark x s).1.
Proof.
  intros Hinv Hguard. unfold Lightbox.handleToggleBookmark.
  destruct x as [i|]; [|done]. case_bool_decide; [done|].
  destruct (images s !! i) as [img|] eqn:E; [|done].
  destruct (isGalleryVisible img) eqn:Hv; cbn [fst].
  - apply (owners_unbookmarkEach (λ y : string, y) [i] s Hinv). intros y Hy _.
    rewrite list_fmap_id in Hy. apply list_elem_of_singleton in Hy as ->.
    by eapply Hguard.
  - case_bool_decide; [done|]. cbn [fst].
    apply (owners_bookmarkEach (λ y : string, y) (λ _, createdAt img) [i] s Hinv).
Qed.
End OwnerFacts2.

Section OwnerImport.
Import importExportService.
Variable createThumbnail : Blob → Blob.
Variable atob : string → option (list Byte.byte).

Lemma importData_keeps file s :
  let s' := (importData createThumbnail atob file s).2 in
  (∀ k v, images s !! k = Some v → images s' !! k = Some v) ∧ keepsMessages s s'.
Proof.
  destruct file as [data|zip]; simpl.
  - destruct (importLegacyJson_effect atob data s) as (? & _ & ?). done.
  - destruct (importZip_effect createThumbnail zip s) as (? & _ & ?). done.
Qed.

Lemma owners_importData file s :
  imageInvariant s →
  (∀ x img, images (importData createThumbnail atob file s).2 !! x = Some img →
            images s !! x = None →
            isGalleryVisible img = true
            ∨ referenced x (importData createThumbnail atob file s).2) →
  imageInvariant (importData createThumbnail atob file s).2.
Proof.
  intros Hinv Hguard. destruct (importData_keeps file s) as [Hsub Hkeep].
  apply (invariant_grow s); [done | done |].
  intros x img Hx. destruct (images s !! x) as [old|] eqn:E.
  - left. apply Hsub in E. congruence.
  - right. by apply Hguard.
Qed.

Lemma owners_run o s :
  imageInvariant s → keepsOwners createThumbnail atob o s →
  imageInvariant (Session.run createThumbnail atob o s).
Proof.
  intros Hinv Hguard. destruct o; simpl in *.
  - destruct (createNewChat_rest id now s) as [Hi Hm].
    apply (invariant_grow s); [done | unfold keepsMessages; by rewrite Hm |].
    intros x img Hx. left. by rewrite <- Hi.
  - done.
  - done.
  - destruct Hguard. by apply owners_handleSendMessage.
  - by apply owners_processGeneration.
  - by apply owners_handleEditMessage.
  - by apply owners_handleFork.
  - by apply owners_deleteMessagesWithCleanup.
  - by apply owners_deleteMessagesSafe.
  - by apply owners_deleteChatWithCleanup.
  - by apply owners_forceDeleteImages.
  - by apply owners_handleBulkUnbookmark.
  - by apply owners_handleToggleGallery.
  - by apply owners_handleToggleBookmark.
  - by apply owners_importData.
  - by apply owners_cleanup.
Qed.
End OwnerImport.

(** ** The operations on the scenario stores *)
Section Runs.
Import cleanupService dataService Gallery importExportService.

Example extension_png : extension "image/png" = "png".
Proof. reflexivity. Qed.

Example extension_missing : extension "application" = "bin" ∧ extension "image/" = "bin".
Proof. split; reflexivity. Qed.

Example fileName_X : fileName "X" "image/png" = "X.png".
Proof. reflexivity. Qed.

Example batchStarts_12 : batchStarts 12 = [0; 5; 10]%nat ∧ batchStarts 10 = [0; 5]%nat.
Proof. split; reflexivity. Qed.

(** Fork scenario: deleting one of the two messages keeps X, deleting both
    removes it; both deletion routines agree. *)
Example fork_delete_one :
  images (deleteMessagesWithCleanup ["M1"] Scenario.forked) !! "X"
    = Some (Scenario.image false None)
  ∧ images (deleteMessagesSafe ["M1"] Scenario.forked) !! "X"
    = Some (Scenario.image false None).
Proof. split; vm_compute; reflexivity. Qed.

Example fork_delete_both :
  images (deleteMessagesWithCleanup ["M1"; "M2"] Scenario.forked) !! "X" = None
  ∧ deleteMessagesSafe ["M1"; "M2"] Scenario.forked
    = deleteMessagesWithCleanup ["M1"; "M2"] Scenario.forked.
Proof. split; vm_compute; reflexivity. Qed.

(** A bookmarked image outlives its message. *)
Example bookmarked_survives :
  images (deleteMessagesWithCleanup ["M1"] Scenario.bookmarkedX) !! "X"
    = Some (Scenario.image true (Some 1700000000000)).
Proof. vm_compute. reflexivity. Qed.

(** Forced deletion of X in the fork scenario empties both reference lists. *)
Example fork_forceDelete :
  images (forceDeleteImages ["X"] Scenario.forked) !! "X" = None
  ∧ imageIds <$> messages (forceDeleteImages ["X"] Scenario.forked) !! "M1" = Some (Some [])
  ∧ imageIds <$> messages (forceDeleteImages ["X"] Scenario.forked) !! "M2" = Some (Some []).
Proof. repeat split; vm_compute; reflexivity. Qed.

(** The sweep with an empty candidate list does nothing. *)
Example sweep_nothing s : deleteImagesIfOrphaned [] s = s.
Proof. reflexivity. Qed.

(** The restored image gets the inferred timestamp: the archive entry is
    bookmarked and carries none. *)
Example restored_X :
  galleryTimestamp <$> images Scenario.restored !! "X" = Some (Some 1700000000000)
  ∧ size (prompts Scenario.restored) = 1%nat.
Proof. split; vm_compute; reflexivity. Qed.

(** Editing the message M1 so that its attachment X is dropped: the sweep of
    the removed ids runs while M1 still lists X, so X stays in the images
    table although no message lists it afterwards. *)
Example edit_keeps_dropped_attachment :
  let s' := (App.handleEditMessage "A" "M1" "another fox" [] [] Scenario.single).1 in
  imageIds <$> messages s' !! "M1" = Some (Some [])
  ∧ images s' !! "X" = Some (Scenario.image false None)
  ∧ ownersOk Scenario.single = true ∧ ownersOk s' = false.
Proof. repeat split; vm_compute; reflexivity. Qed.
End Runs.

(** ** Requests to the gallery handlers *)
Section GalleryRequests.
Import Gallery.








End GalleryRequests.


(** * The specification's claims *)

Section Claims.
Import cleanupService dataService Gallery importExportService.

(** C1, as the code has it.  The ownership invariant (every stored image is
    bookmarked or listed by a stored message) is kept by every operation that
    meets [keepsOwners]: deleting messages (either variant), deleting a chat,
    forced deletion, forking, the startup sweep and chat bookkeeping always;
    sending a message and generating when their writes go through;
    bookmarking always; unbookmarking when the images concerned are listed by
    a message; importing when every image it adds is bookmarked or listed by a
    message of the resulting store; editing a message when it drops none of
    the message's attachments.  A sweep that meets no failure leaves a
    store that satisfies the invariant whatever the store it started from, so
    an image orphaned by an unbookmark goes with the next sweep. *)
Theorem ownership_kept (createThumbnail : Blob → Blob)
    (atob : string → option (list Byte.byte)) :
  (∀ o s,
     imageInvariant s → keepsOwners createThumbnail atob o s →
     imageInvariant (Session.run createThumbnail atob o s))
  ∧ (∀ fl s,
       true ∉ take (sweepRequests s) fl →
       imageInvariant (cleanupOrphanedImages fl s).2).
Proof.
  split; [apply owners_run|].
  intros fl s Hok. rewrite cleanup_cases. unfold faulty.
  rewrite bool_decide_eq_false_2 by done.
  intros x img Hx. simpl in Hx. rewrite lookup_bulkDelete in Hx.
  destruct (decide (x ∈ sweepOrphans s)) as [|Hn]; [done|].
  destruct (isGalleryVisible img) eqn:Hv; [by left | right].
  destruct (referenced_dec x s) as [?|Hno]; [done|].
  exfalso. apply Hn, elem_of_sweepOrphans. by exists img.
Qed.

Lemma ownership_kept_witness :
  imageInvariant
    (Session.run Scenario.sameBlob Scenario.noBase64
       (Session.SendMessage "A" "M2" "a fox" [Scenario.attachment] 1700000000003)
       emptyStore)
  ∧ imageInvariant (cleanupOrphanedImages [] Scenario.withOrphan).2.
Proof.
  destruct (ownership_kept Scenario.sameBlob Scenario.noBase64) as [Hstep Hsweep].
  split.
  - apply Hstep.
    + apply ownersOk_spec. vm_compute. reflexivity.
    + split.
      * exists ["X"], (App.storeFiles [Scenario.attachment] [] emptyStore).2.
        vm_compute. reflexivity.
      * vm_compute. reflexivity.
  - apply Hsweep. rewrite take_nil. apply not_elem_of_nil.
Defined.

(** C1, as stated, fails: the session [Scenario.orphaning] is made of public
    operations only; before its last step the invariant holds, and after the
    unbookmark the image X is stored, not bookmarked, and listed by no
    message. *)
Lemma unbookmark_leaves_orphan :
  Session.reachable Scenario.sameBlob Scenario.noBase64
    (Session.runAll Scenario.sameBlob Scenario.noBase64 Scenario.orphaning emptyStore)
  ∧ imageInvariant
      (Session.runAll Scenario.sameBlob Scenario.noBase64 (take 4 Scenario.orphaning)
         emptyStore)
  ∧ ¬ imageInvariant
        (Session.runAll Scenario.sameBlob Scenario.noBase64 Scenario.orphaning emptyStore).
Proof.
  split; [by exists Scenario.orphaning|]. split.
  - apply ownersOk_spec. vm_compute. reflexivity.
  - rewrite <- ownersOk_spec. vm_compute. discriminate.
Qed.

(** C2. Reference survival.  Let X be a stored image that is not bookmarked
    and is listed by a message whose id is in S.  After deleting S with
    cleanup, by [deleteMessagesWithCleanup] or by [deleteMessagesSafe], X is
    still stored exactly when some message outside S lists it.  In particular,
    when two messages of different chats list X, deleting one of them keeps X,
    and deleting both removes X when no third message lists it. *)
Theorem deletion_keeps_shared_image (S : list string) (x : string) (img : ImageBlob)
    (s : Store) :
  images s !! x = Some img →
  isGalleryVisible img = false →
  attachedIn S x s →
  (is_Some (images (deleteMessagesWithCleanup S s) !! x) ↔ listedOutside S x s)
  ∧ (is_Some (images (deleteMessagesSafe S s) !! x) ↔ listedOutside S x s)
  ∧ ∀ k1 k2 m1 m2,
      messages s !! k1 = Some m1 → messages s !! k2 = Some m2 →
      chatId m1 ≠ chatId m2 → lists m1 x → lists m2 x →
      is_Some (images (deleteMessagesWithCleanup [k1] s) !! x)
      ∧ is_Some (images (deleteMessagesSafe [k1] s) !! x)
      ∧ ((∀ k m, messages s !! k = Some m → lists m x → k = k1 ∨ k = k2) →
         images (deleteMessagesWithCleanup [k1; k2] s) !! x = None
         ∧ images (deleteMessagesSafe [k1; k2] s) !! x = None).
Proof.
  intros Hx Hg Hatt.
  split; [by eapply cleanup_keeps_iff|]. split; [by eapply safe_keeps_iff|].
  intros k1 k2 m1 m2 H1 H2 Hchat Hl1 Hl2.
  assert (Hne : k2 ≠ k1) by (intros ->; congruence).
  assert (Hin1 : attachedIn [k1] x s) by (exists k1, m1; set_solver).
  assert (Hin2 : attachedIn [k1; k2] x s) by (exists k1, m1; set_solver).
  assert (Hout : listedOutside [k1] x s) by (exists k2, m2; set_solver).
  split; [by eapply cleanup_keeps_iff|]. split; [by eapply safe_keeps_iff|].
  intros Honly.
  assert (Hnone : ¬ listedOutside [k1; k2] x s).
  { intros (k & m & Hk & Hm & Hl). destruct (Honly k m Hm Hl); set_solver. }
  split; apply eq_None_not_Some; intros Hsome; apply Hnone.
  - by eapply cleanup_keeps_iff.
  - by eapply safe_keeps_iff.
Qed.

Lemma deletion_keeps_shared_image_witness :
  (is_Some (images (deleteMessagesWithCleanup ["M1"] Scenario.forked) !! "X")
   ↔ listedOutside ["M1"] "X" Scenario.forked)
  ∧ (is_Some (images (deleteMessagesSafe ["M1"] Scenario.forked) !! "X")
     ↔ listedOutside ["M1"] "X" Scenario.forked)
  ∧ ∀ k1 k2 m1 m2,
      messages Scenario.forked !! k1 = Some m1 → messages Scenario.forked !! k2 = Some m2 →
      chatId m1 ≠ chatId m2 → lists m1 "X" → lists m2 "X" →
      is_Some (images (deleteMessagesWithCleanup [k1] Scenario.forked) !! "X")
      ∧ is_Some (images (deleteMessagesSafe [k1] Scenario.forked) !! "X")
      ∧ ((∀ k m, messages Scenario.forked !! k = Some m → lists m "X" → k = k1 ∨ k = k2) →
         images (deleteMessagesWithCleanup [k1; k2] Scenario.forked) !! "X" = None
         ∧ images (deleteMessagesSafe [k1; k2] Scenario.forked) !! "X" = None).
Proof.
  apply (deletion_keeps_shared_image ["M1"] "X" (Scenario.image false None) Scenario.forked).
  - vm_compute. reflexivity.
  - reflexivity.
  - exists "M1", (Scenario.message "A" ["X"] 1).
    split; [apply list_elem_of_here|]. split; [vm_compute; reflexivity|].
    exists ["X"]. split; [reflexivity | apply list_elem_of_here].
Defined.

(** C3. Forced deletion.  [forceDeleteImages deleted] removes every listed
    image from the images table whether it is bookmarked or not and leaves
    the other images alone; every message is replaced by its purged form,
    whose [imageIds] are the old ones without the deleted ids, in their old
    order; afterwards no message lists a deleted id. *)
Theorem forceDelete_removes_every_reference (deleted : list string) (s : Store) :
  let s' := forceDeleteImages deleted s in
  (∀ x, x ∈ deleted → images s' !! x = None)
  ∧ (∀ x, x ∉ deleted → images s' !! x = images s !! x)
  ∧ (∀ k, messages s' !! k = purge deleted <$> messages s !! k)
  ∧ (∀ m, imageIds (purge deleted m) = filter (λ id, id ∉ deleted) <$> imageIds m)
  ∧ (∀ k m x, messages s' !! k = Some m → x ∈ deleted → ¬ lists m x).
Proof.
  destruct (forceDeleteImages_spec deleted s) as (Himg & Hmsg & _).
  intros s'. subst s'. split; [|split; [|split; [|split]]].
  - intros x Hx. rewrite Himg. by destruct (decide (x ∈ deleted)).
  - intros x Hx. rewrite Himg. by destruct (decide (x ∈ deleted)).
  - done.
  - intros m. unfold purge. destruct (imageIds m) eqn:E; simpl; [done | by rewrite E].
  - intros k m x Hk Hx Hl. rewrite Hmsg in Hk.
    destruct (messages s !! k) as [m0|]; [|done]. injection Hk as <-.
    apply purge_lists in Hl as [_ Hn]. done.
Qed.

(** C4. The gallery cap.  In the lightbox, bookmarking an image that is not
    bookmarked is refused with the gallery-full alert, and the store is left
    as it is, when the gallery count (taken over the index) is 50 or more.
    In [handleToggleGallery], a request whose distinct not-yet-bookmarked
    images would take the count (taken over [isGalleryVisible]) past 50 is
    refused as a whole, the store left as it is.  So asking for a 51st image
    when 50 are bookmarked changes nothing and the count stays at 50, through
    [handleToggleGallery] in any store and through the lightbox in a store
    whose index is exact. *)
Theorem gallery_capacity_enforced (s : Store) :
  (∀ id img,
     id ≠ "" → images s !! id = Some img → isGalleryVisible img = false →
     50 <= countAbove0 (images s) →
     Lightbox.handleToggleBookmark (Some id) s = (s, Some GalleryFull))
  ∧ (∀ ids,
       (0 < length (unsavedIn ids s))%nat →
       countGalleryVisible (images s) + Z.of_nat (length (unsavedIn ids s)) > 50 →
       App.handleToggleGallery ids s = (s, Some GalleryFull))
  ∧ (∀ id img,
       images s !! id = Some img → isGalleryVisible img = false →
       countGalleryVisible (images s) = 50 →
       App.handleToggleGallery [id] s = (s, Some GalleryFull)
       ∧ countGalleryVisible (images (App.handleToggleGallery [id] s).1) = 50)
  ∧ (∀ id img,
       exactIndex s →
       id ≠ "" → images s !! id = Some img → isGalleryVisible img = false →
       countGalleryVisible (images s) = 50 →
       Lightbox.handleToggleBookmark (Some id) s = (s, Some GalleryFull)
       ∧ countGalleryVisible (images (Lightbox.handleToggleBookmark (Some id) s).1) = 50).
Proof.
  assert (Hsingle : ∀ id img,
     id ≠ "" → images s !! id = Some img → isGalleryVisible img = false →
     50 <= countAbove0 (images s) →
     Lightbox.handleToggleBookmark (Some id) s = (s, Some GalleryFull)).
  { intros id img Hid Hx Hg Hfull. unfold Lightbox.handleToggleBookmark.
    rewrite bool_decide_eq_false_2 by done. rewrite Hx, Hg.
    rewrite bool_decide_eq_true_2 by lia. done. }
  assert (Hbulk : ∀ ids,
       (0 < length (unsavedIn ids s))%nat →
       countGalleryVisible (images s) + Z.of_nat (length (unsavedIn ids s)) > 50 →
       App.handleToggleGallery ids s = (s, Some GalleryFull)).
  { intros ids Hpos Hover. unfold App.handleToggleGallery.
    set (valid := omap id (Table.bulkGet ids (images s))).
    set (toSave := filter (λ r : string * ImageBlob, negb (isGalleryVisible r.2)) valid).
    assert (Hlen : (length (unsavedIn ids s) ≤ length toSave)%nat).
    { rewrite <- (length_fmap fst toSave). unfold toSave, valid. rewrite toSave_keys.
      apply length_remove_dups. }
    rewrite existsb_filter_nonempty. fold toSave.
    rewrite bool_decide_eq_true_2 by lia.
    rewrite bool_decide_eq_true_2 by lia. done. }
  split; [done|]. split; [done|]. split.
  - intros id img Hx Hg Hfull.
    assert (Hu : unsavedIn [id] s = [id]).
    { unfold unsavedIn. rewrite filter_cons, decide_True; [done|].
      unfold unsaved. by rewrite Hx, Hg. }
    rewrite Hbulk; [done | rewrite Hu; simpl; lia | rewrite Hu; simpl; lia].
  - intros id img Hexact Hid Hx Hg Hfull.
    rewrite (Hsingle id img) by (rewrite ?counts_agree; done || lia). done.
Qed.

Lemma gallery_capacity_enforced_witness :
  Lightbox.handleToggleBookmark (Some "X") Scenario.fullGallery
    = (Scenario.fullGallery, Some GalleryFull)
  ∧ App.handleToggleGallery ["X"; "M"; "X"] Scenario.fullGallery
    = (Scenario.fullGallery, Some GalleryFull)
  ∧ App.handleToggleGallery ["X"] Scenario.fullGallery
    = (Scenario.fullGallery, Some GalleryFull).
Proof.
  destruct (gallery_capacity_enforced Scenario.fullGallery) as (Hsingle & Hbulk & Hlast & _).
  split; [|split].
  - apply (Hsingle "X" (Scenario.image false None)).
    + discriminate.
    + vm_compute. reflexivity.
    + reflexivity.
    + vm_compute. discriminate.
  - apply (Hbulk ["X"; "M"; "X"]).
    + vm_compute. lia.
    + vm_compute. reflexivity.
  - apply (Hlast "X" (Scenario.image false None)).
    + vm_compute. reflexivity.
    + reflexivity.
    + vm_compute. reflexivity.
Defined.

(** C5. The sparse index is exact in every reachable store: an image record
    has [isGalleryVisible] set exactly when its [galleryTimestamp] is present.
    Every operation of a session keeps it so (bookmarking and unbookmarking by
    any of the handlers, the creation of images on send, generation and edit,
    the import of an archive or of a legacy document, deletions and the
    sweep).  The version-3 upgrade keeps it, and establishes it for a store
    in which no image that is not bookmarked carries a timestamp (as before
    version 3, where the field did not exist). *)
Theorem sparse_index_exact (createThumbnail : Blob → Blob)
    (atob : string → option (list Byte.byte)) :
  (∀ s, Session.reachable createThumbnail atob s → sparseIndex s)
  ∧ (∀ o s, sparseIndex s → sparseIndex (Session.run createThumbnail atob o s))
  ∧ (∀ s, sparseIndex s → sparseIndex (OkobitDB.upgradeV3 s))
  ∧ (∀ s, (∀ x img, images s !! x = Some img → galleryTimestamp img = None) →
          sparseIndex (OkobitDB.upgradeV3 s)).
Proof.
  assert (Hstep : ∀ o s, sparseIndex s → sparseIndex (Session.run createThumbnail atob o s)).
  { intros o s. apply imagesFrom_sparse, from_run. }
  split; [|split; [done|split]].
  - intros s [os ->]. unfold Session.runAll.
    assert (Hall : ∀ s0, sparseIndex s0 →
              sparseIndex (foldl (λ acc o, Session.run createThumbnail atob o acc) s0 os)).
    { induction os as [|o os IH]; intros s0 H0; [done|]. simpl. apply IH, Hstep, H0. }
    apply Hall. intros x img Hx. simpl in Hx. by rewrite lookup_empty in Hx.
  - intros s Hs. apply upgradeV3_sparse. intros x img Hx Hv.
    destruct (galleryTimestamp img) as [ts|] eqn:Ht; [|done].
    apply Hs in Hx. unfold indexed in Hx. rewrite Hv, Ht in Hx.
    destruct Hx as [_ Hx]. by discriminate Hx.
  - intros s Hnone. apply upgradeV3_sparse. intros x img Hx _. by eapply Hnone.
Qed.

Lemma sparse_index_exact_witness :
  sparseIndex (Session.run Scenario.sameBlob Scenario.noBase64
                 (Session.ImportData Scenario.backup) emptyStore)
  ∧ sparseIndex (OkobitDB.upgradeV3 Scenario.forked).
Proof.
  destruct (sparse_index_exact Scenario.sameBlob Scenario.noBase64)
    as (_ & Hstep & _ & Hup).
  split.
  - apply Hstep. intros x img Hx. simpl in Hx. by rewrite lookup_empty in Hx.
  - apply Hup. intros x img Hx. unfold Scenario.forked, images in Hx.
    apply lookup_singleton_Some in Hx as [_ <-]. reflexivity.
Defined.

(** C6. Importing a file a second time.  When an import has gone through,
    importing the same file again goes through as well and leaves the chats,
    messages and images tables exactly as the first import left them, while
    the prompts table grows once more by the number of prompt entries in the
    file.  (The key generator of [prompts] is assumed at or above the keys in
    use, as the engine keeps it.) *)
Theorem import_twice (createThumbnail : Blob → Blob)
    (atob : string → option (list Byte.byte))
    (file : BackupFile) (s s1 : Store) (cfg : option AppConfig) :
  promptKeysOk s →
  importData createThumbnail atob file s = (Resolved cfg, s1) →
  ∃ s2,
    importData createThumbnail atob file s1 = (Resolved cfg, s2)
    ∧ chats s2 = chats s1 ∧ messages s2 = messages s1 ∧ images s2 = images s1
    ∧ size (prompts s2) = (size (prompts s1) + promptEntries file)%nat.
Proof.
  intros Hok Hfirst. destruct file as [[data|]|zip]; simpl in *; [| done |].
  - (* legacy document *)
    destruct (mergeLegacy atob data s) as [sm|] eqn:Em; [|done].
    injection Hfirst as <- <-.
    destruct (mergeLegacy_resolved atob data s sm Em)
      as (s0 & Hc & Hm & _ & Hp0 & Hq0 & _ & _ & Hcs & Hms & Hps & Hqs & Hi & _ & _).
    assert (Hok0 : promptKeysOk s0) by by eapply promptKeysOk_ext.
    destruct (withLegacyPrompts_spec (legacyPrompts data) s0 Hok0) as (Hok1 & _).
    assert (Hokm : promptKeysOk sm) by by eapply promptKeysOk_ext.
    rewrite <- Hcs in Hc. rewrite <- Hms in Hm.
    rewrite (mergeLegacy_held atob data sm Hc Hm Hi).
    destruct (withLegacyPrompts_spec (legacyPrompts data) sm Hokm) as (_ & Hsz & ? & ? & ?).
    eexists. split; [done|]. done.
  - (* zip archive *)
    unfold importZip in *.
    destruct (dataFile zip) as [data|] eqn:Ed; [|done].
    destruct (mergeMetadata data s) as [sm|] eqn:Em; [|done].
    destruct (mergeMetadata_resolved data s sm Em)
      as (s0 & -> & Hc & Hm & _ & Hp0 & Hq0 & _ & _).
    assert (Hok0 : promptKeysOk s0) by by eapply promptKeysOk_ext.
    destruct (withPrompts_spec (dataPrompts data) s0 Hok0) as (Hokm & _ & Hcm & Hmm & _).
    rewrite <- Hcm in Hc. rewrite <- Hmm in Hm.
    destruct (dataImages data) as [imgs|] eqn:Ei.
    + destruct (importBatches createThumbnail zip imgs _) as [[[]|] sb] eqn:Eb; [|done].
      injection Hfirst as <- <-.
      destruct (importBatches_resolved createThumbnail zip imgs _ _ Eb)
        as (Hcb & Hmb & Hpb & Hqb & _ & Hheld).
      rewrite <- Hcb in Hc. rewrite <- Hmb in Hm.
      assert (Hokb : promptKeysOk sb) by by eapply promptKeysOk_ext.
      rewrite (mergeMetadata_held data sb Hc Hm).
      destruct (withPrompts_spec (dataPrompts data) sb Hokb) as (_ & Hsz & ? & ? & Himg).
      rewrite importBatches_present; [eexists; split; [done|]; done|].
      intros m Hin Hp. rewrite Himg. by apply Hheld.
    + injection Hfirst as <- <-.
      rewrite (mergeMetadata_held data _ Hc Hm).
      destruct (withPrompts_spec (dataPrompts data) _ Hokm) as (_ & Hsz & ? & ? & ?).
      eexists. split; [done|]. done.
Qed.

Lemma import_twice_witness :
  ∃ s2,
    importData Scenario.sameBlob Scenario.noBase64 Scenario.backup Scenario.restored
      = (Resolved None, s2)
    ∧ chats s2 = chats Scenario.restored ∧ messages s2 = messages Scenario.restored
    ∧ images s2 = images Scenario.restored
    ∧ size (prompts s2) = (size (prompts Scenario.restored) + 1)%nat.
Proof.
  apply (import_twice Scenario.sameBlob Scenario.noBase64 Scenario.backup
           emptyStore Scenario.restored None).
  - intros k [v Hv]. simpl in Hv. by rewrite lookup_empty in Hv.
  - vm_compute. reflexivity.
Defined.



(** C8. The maintenance sweep never rejects: whatever the schedule of store
    failures, [cleanupOrphanedImages] resolves with a number.  When no request
    of the run fails, the number is the number of images it deleted, and the
    deleted images are exactly the stored images that are not bookmarked and
    that no message lists; when some request fails (the commit included), it
    resolves with 0 and the store is as it was before the sweep. *)
Theorem cleanup_never_rejects (fl : Tx.faults) (s : Store) :
  (∃ n, (cleanupOrphanedImages fl s).1 = Resolved n)
  ∧ (true ∉ take (sweepRequests s) fl →
       cleanupOrphanedImages fl s
       = (Resolved (Z.of_nat (length (sweepOrphans s))),
          setImages (Table.bulkDelete (sweepOrphans s)) s))
  ∧ (true ∈ take (sweepRequests s) fl → cleanupOrphanedImages fl s = (Resolved 0, s))
  ∧ (∀ x, x ∈ sweepOrphans s ↔
          ∃ img, images s !! x = Some img ∧ isGalleryVisible img = false ∧ ¬ referenced x s)
  ∧ (∀ x, images (setImages (Table.bulkDelete (sweepOrphans s)) s) !! x
          = if decide (x ∈ sweepOrphans s) then None else images s !! x)
  ∧ (size (images (setImages (Table.bulkDelete (sweepOrphans s)) s))
     + length (sweepOrphans s))%nat = size (images s).
Proof.
  pose proof (cleanup_cases fl s) as Hcases.
  split; [|split; [|split; [|split; [|split]]]].
  - rewrite Hcases. destruct (faulty (sweepRequests s) fl); eauto.
  - intros Hok. rewrite Hcases. unfold faulty. by rewrite bool_decide_eq_false_2.
  - intros Hbad. rewrite Hcases. unfold faulty. by rewrite bool_decide_eq_true_2.
  - apply elem_of_sweepOrphans.
  - intros x. simpl. apply lookup_bulkDelete.
  - simpl. apply size_bulkDelete; [apply NoDup_sweepOrphans|].
    intros k (img & Hk & _)%elem_of_sweepOrphans. eauto.
Qed.

Lemma cleanup_never_rejects_witness :
  cleanupOrphanedImages [false; false] Scenario.withOrphan
    = (Resolved 1, setImages (Table.bulkDelete ["O"]) Scenario.withOrphan)
  ∧ cleanupOrphanedImages [false; false; true] Scenario.withOrphan
    = (Resolved 0, Scenario.withOrphan).
Proof.
  destruct (cleanup_never_rejects [false; false] Scenario.withOrphan) as (_ & Hok & _).
  destruct (cleanup_never_rejects [false; false; true] Scenario.withOrphan)
    as (_ & _ & Hbad & _).
  split.
  - rewrite Hok; [vm_compute; reflexivity|].
    vm_compute. intros Hin. repeat (apply elem_of_cons in Hin as [Hin|Hin]; [discriminate|]).
    by apply not_elem_of_nil in Hin.
  - apply Hbad. vm_compute. do 2 apply list_elem_of_further. apply list_elem_of_here.
Defined.

(** C9. Export does not depend on the stored API key: two configurations
    that differ only in [apiKey] give the same archive (manifest and image
    files), and the configuration copy inside the manifest always has the
    empty string as its credential, with every other setting as in the live
    configuration. *)
Theorem export_hides_api_key (c : AppConfig) (k1 k2 : string) (now : Z) (s : Store) :
  exportData (withApiKey k1 c) now s = exportData (withApiKey k2 c) now s
  ∧ apiKey (config (okobit_data (exportData (withApiKey k1 c) now s))) = ""
  ∧ config (okobit_data (exportData (withApiKey k1 c) now s)) = withApiKey "" c.
Proof.
  unfold exportData. cbn [okobit_data config].
  assert (Hsan : ∀ k, sanitize (withApiKey k c) = withApiKey "" c) by (intros k; reflexivity).
  rewrite !Hsan. split; [reflexivity|]. split; reflexivity.
Qed.

(** C10. In a store whose sparse index is exact (an image has a
    [galleryTimestamp], and a positive one, exactly when it is bookmarked),
    the count taken over the index by the gallery view and the lightbox
    equals the count taken over [isGalleryVisible] by the capacity check of
    [handleToggleGallery]. *)
Theorem gallery_counts_agree (s : Store) :
  exactIndex s →
  GalleryView.totalCount s = countGalleryVisible (images s)
  ∧ countAbove0 (images s) = countGalleryVisible (images s).
Proof.
  intros Hinv. unfold GalleryView.totalCount. split; by apply counts_agree.
Qed.

Lemma gallery_counts_agree_witness :
  GalleryView.totalCount Scenario.bookmarkedX = countGalleryVisible (images Scenario.bookmarkedX)
  ∧ countAbove0 (images Scenario.bookmarkedX) = countGalleryVisible (images Scenario.bookmarkedX).
Proof.
  apply (gallery_counts_agree Scenario.bookmarkedX).
  intros x img Hx. unfold Scenario.bookmarkedX, images in Hx.
  apply lookup_singleton_Some in Hx as [<- <-]. simpl.
  split; [intros _; exists 1700000000000; split; [reflexivity | lia] | reflexivity].
Defined.

End Claims.

(** * Beyond the specification: further properties of the code *)

Section StoreFacts.

Lemma store_eq (s s' : Store) :
  chats s = chats s' → messages s = messages s' → images s = images s' →
  prompts s = prompts s' → promptSeq s = promptSeq s' → s = s'.
Proof. destruct s, s'; simpl; intros; by subst. Qed.

End StoreFacts.

Section DeletionAgreement.
Import cleanupService dataService.

Lemma cleanup_images S s x :
  images (deleteMessagesWithCleanup S s) !! x =
    match images s !! x with
    | Some img =>
        if bool_decide (x ∈ collectImageIds (Table.whereIdAnyOf S (messages s)))
           && negb (isGalleryVisible img)
           && negb (isImageReferenced x (setMessages (Table.bulkDelete S) s))
        then None else Some img
    | None => None
    end.
Proof.
  unfold deleteMessagesWithCleanup.
  destruct (bool_decide (length S = 0%nat)) eqn:HS.
  { apply bool_decide_eq_true in HS. apply nil_length_inv in HS as ->.
    destruct (images s !! x) as [img|] eqn:Hx; [|done].
    rewrite bool_decide_eq_false_2; [done|].
    intros Hin. apply collect_whereIdAnyOf in Hin as (k & m & Hk & _). by apply elem_of_nil in Hk. }
  set (cands := collectImageIds _).
  destruct (bool_decide (0 < length cands)%nat) eqn:Hc.
  - rewrite deleteImagesIfOrphaned_images. simpl.
    destruct (images s !! x) as [img|]; [|done]. done.
  - simpl. apply bool_decide_eq_false in Hc.
    assert (cands = []) as -> by (destruct cands; [done | simpl in Hc; lia]).
    destruct (images s !! x) as [img|]; [|done].
    rewrite bool_decide_eq_false_2; [done | apply not_elem_of_nil].
Qed.

Lemma safe_rest S s :
  chats (deleteMessagesSafe S s) = chats s
  ∧ prompts (deleteMessagesSafe S s) = prompts s
  ∧ promptSeq (deleteMessagesSafe S s) = promptSeq s.
Proof.
  unfold deleteMessagesSafe.
  repeat (match goal with |- context [if ?b then _ else _] => destruct b end); done.
Qed.

Lemma cleanup_rest S s :
  chats (deleteMessagesWithCleanup S s) = chats s
  ∧ prompts (deleteMessagesWithCleanup S s) = prompts s
  ∧ promptSeq (deleteMessagesWithCleanup S s) = promptSeq s.
Proof.
  unfold deleteMessagesWithCleanup.
  destruct (bool_decide (length S = 0%nat)); [done|].
  match goal with |- context [if ?b then _ else _] => destruct b end; [|done].
  match goal with |- context [deleteImagesIfOrphaned ?c ?t] =>
    destruct (deleteImagesIfOrphaned_rest c t) as (_ & -> & -> & ->) end.
  done.
Qed.

(** X1.  [deleteMessagesSafe] (dataService) and [deleteMessagesWithCleanup]
    (cleanupService) are interchangeable: for every list of message ids and
    every store they leave the same store behind. *)
Theorem deletion_routines_agree (messageIds : list string) (s : Store) :
  deleteMessagesSafe messageIds s = deleteMessagesWithCleanup messageIds s.
Proof.
  destruct (safe_rest messageIds s) as (Hc & Hp & Hq).
  destruct (cleanup_rest messageIds s) as (Hc' & Hp' & Hq').
  apply store_eq; [congruence | | | congruence | congruence].
  - apply map_eq. intros k.
    by rewrite deleteMessagesSafe_messages, deleteMessagesWithCleanup_messages.
  - apply map_eq. intros x. rewrite safe_images, cleanup_images.
    destruct (images s !! x) as [img|]; [|done].
    assert (bool_decide (x ∈ collectImageIds (omap id (Table.bulkGet messageIds (messages s))))
            = bool_decide (x ∈ collectImageIds (Table.whereIdAnyOf messageIds (messages s)))) as ->.
    { apply bool_decide_ext. by rewrite collect_bulkGet, collect_whereIdAnyOf. }
    assert (isReferencedElsewhere messageIds x s
            = isImageReferenced x (setMessages (Table.bulkDelete messageIds) s)) as ->; [|done].
    apply eq_bool_prop_intro.
    by rewrite isReferencedElsewhere_spec, isImageReferenced_spec, referenced_after_bulkDelete.
Qed.
End DeletionAgreement.

Section Repetition.
Import cleanupService.

Lemma sweepOrphans_after s : sweepOrphans (setImages (Table.bulkDelete (sweepOrphans s)) s) = [].
Proof.
  apply elem_of_nil_inv. intros x (img & Hx & Hv & Hr)%elem_of_sweepOrphans.
  simpl in Hx. rewrite lookup_bulkDelete in Hx.
  destruct (decide (x ∈ sweepOrphans s)) as [|Hn]; [done|].
  apply Hn, elem_of_sweepOrphans. exists img. split_and!; [done..|].
  intros (k & m & Hk & Hl). apply Hr. by exists k, m.
Qed.

(** X2.  The maintenance sweep is idempotent: once a run of
    [cleanupOrphanedImages] has gone through without a failed request, a
    second run on the store it left (with any schedule of failures) resolves
    with 0 and changes nothing. *)
Theorem sweep_twice (fl fl' : Tx.faults) (s : Store) :
  true ∉ take (sweepRequests s) fl →
  cleanupOrphanedImages fl' (cleanupOrphanedImages fl s).2
  = (Resolved 0, (cleanupOrphanedImages fl s).2).
Proof.
  intros Hok.
  assert (cleanupOrphanedImages fl s
          = (Resolved (Z.of_nat (length (sweepOrphans s))),
             setImages (Table.bulkDelete (sweepOrphans s)) s)) as ->.
  { rewrite cleanup_cases. unfold faulty. by rewrite bool_decide_eq_false_2. }
  cbn [snd]. rewrite cleanup_cases. destruct (faulty _ fl'); [done|].
  by rewrite sweepOrphans_after, setImages_bulkDelete_nil.
Qed.

Lemma sweep_twice_witness :
  cleanupOrphanedImages [] (cleanupOrphanedImages [false] Scenario.withOrphan).2
  = (Resolved 0, (cleanupOrphanedImages [false] Scenario.withOrphan).2).
Proof.
  apply sweep_twice. vm_compute. intros Hin.
  apply elem_of_cons in Hin as [Hin|Hin]; [discriminate|].
  by apply not_elem_of_nil in Hin.
Defined.

(** X3.  Forced deletion is idempotent: deleting the same images a second
    time fails on nothing (the records are gone, no message lists them any
    more) and leaves the store as the first deletion left it. *)
Theorem forceDelete_twice (imageIds : list string) (s : Store) :
  forceDeleteImages imageIds (forceDeleteImages imageIds s) = forceDeleteImages imageIds s.
Proof.
  destruct (forceDeleteImages_spec imageIds s) as (Hi & Hm & Hc & Hp & Hq).
  destruct (forceDeleteImages_spec imageIds (forceDeleteImages imageIds s))
    as (Hi' & Hm' & Hc' & Hp' & Hq').
  cbv zeta in *.
  apply store_eq; [congruence | | | congruence | congruence].
  - apply map_eq. intros k. rewrite Hm', Hm.
    destruct (messages s !! k) as [m|]; [|done]. simpl. by rewrite purge_purge.
  - apply map_eq. intros x. rewrite Hi', Hi. by destruct (decide (x ∈ imageIds)).
Qed.
End Repetition.

Section ForkRoundTrip.
Import cleanupService App.

Lemma deleteImagesIfOrphaned_referenced ids s :
  (∀ x, x ∈ ids → referenced x s) → deleteImagesIfOrphaned ids s = s.
Proof.
  intros Href.
  destruct (deleteImagesIfOrphaned_rest ids s) as (Hm & Hc & Hp & Hq).
  apply store_eq; [done..| |done|done].
  apply map_eq. intros x. rewrite deleteImagesIfOrphaned_images.
  destruct (images s !! x) as [img|]; [|done].
  unfold sweeps. destruct (bool_decide (x ∈ ids)) eqn:Hin; [|done].
  apply bool_decide_eq_true in Hin.
  assert (isImageReferenced x s = true) as ->.
  { apply Is_true_true, isImageReferenced_spec, Href, Hin. }
  by rewrite andb_false_r.
Qed.

(** X4.  Forking and then deleting the fork is a round trip.  When
    [handleFork] went through (no alert) with a chat id that no chat and no
    message of the store used, [deleteChatWithCleanup] on the new chat gives
    back the store as it was before the fork: the copies go, the originals
    and every image they list stay. *)
Theorem fork_then_delete (activeChatId msgId newChatId newTitle : string)
    (newId : string → string) (now : Z) (s s' : Store) :
  handleFork activeChatId msgId newChatId newTitle newId now s = (s', None) →
  chats s !! newChatId = None →
  (∀ j m, messages s !! j = Some m → chatId m ≠ newChatId) →
  deleteChatWithCleanup newChatId s' = s.
Proof.
  intros Hf Hnc Hfresh.
  assert (Hnone : ∀ t : Store, chats t = chats s → messages t = messages s →
                    images t = images s → prompts t = prompts s →
                    promptSeq t = promptSeq s → t = s).
  { intros t ?????. by apply store_eq. }
  unfold handleFork in Hf.
  destruct (messages s !! msgId) as [target|] eqn:Ek.
  - unfold Table.add in Hf. rewrite Hnc in Hf.
    set (copies := (λ r, (newId r.1, copyInto newChatId r.2)) <$> _) in Hf.
    set (c0 := {| title := newTitle |}) in Hf.
    destruct (Table.bulkAdd copies (messages (setChats (λ _, <[newChatId:=c0]> (chats s)) s)))
      as [[[]|] t'] eqn:Eb; [|discriminate].
    injection Hf as <-. simpl in Eb.
    destruct (bulkAdd_spec copies (messages s)) as (H1 & H2 & H3).
    rewrite Eb in H1, H2, H3. cbn [fst snd] in *.
    destruct (H3 eq_refl) as [_ H4]. clear H3.
    assert (Hcopy : ∀ j m, (j, m) ∈ copies →
              chatId m = newChatId ∧ ∃ j0 m0, messages s !! j0 = Some m0
                                              ∧ imageIds m = imageIds m0).
    { intros j m ([j0 m0] & [= -> ->] & Hin)%list_elem_of_fmap. split; [done|].
      apply list_elem_of_filter in Hin as [_ Hin].
      apply list_elem_of_filter in Hin as [_ Hin]. apply elem_of_toArray in Hin.
      by exists j0, m0. }
    unfold deleteChatWithCleanup. cbn [messages setMessages setChats chats].
    set (msgs := whereChatIdEquals newChatId t').
    assert (Hmsgs : ∀ j m, (j, m) ∈ msgs ↔ (j, m) ∈ copies).
    { intros j m. unfold msgs, whereChatIdEquals. rewrite list_elem_of_filter, elem_of_toArray.
      simpl. split.
      - intros [Hc Hj]. destruct (H2 j m Hj) as [Ho|?]; [|done].
        by destruct (Hfresh j m Ho).
      - intros Hin. split; [by apply (Hcopy j m) | by apply H4]. }
    set (s2 := setChats _ _).
    assert (Hs2 : s2 = s).
    { apply Hnone; try done.
      - simpl. by apply delete_insert_id.
      - simpl. apply map_eq. intros j. rewrite lookup_bulkDelete.
        destruct (decide (j ∈ msgs.*1)) as [Hin|Hn].
        + apply list_elem_of_fmap in Hin as ([j' m] & -> & Hin). simpl.
          symmetry. by apply (H4 j' m), Hmsgs.
        + destruct (t' !! j) as [v|] eqn:Ej.
          * destruct (H2 j v Ej) as [?|Hin]; [done|]. exfalso. apply Hn.
            apply list_elem_of_fmap. exists (j, v). split; [done | by apply Hmsgs].
          * destruct (messages s !! j) as [v|] eqn:Eo; [|done].
            by rewrite (H1 j v Eo) in Ej. }
    rewrite Hs2. destruct (bool_decide _); [|done].
    apply deleteImagesIfOrphaned_referenced.
    intros x ([j m] & Hin & Hl)%elem_of_collectImageIds.
    apply Hmsgs, Hcopy in Hin as (_ & j0 & m0 & Hj0 & Hids).
    exists j0, m0. split; [done|]. destruct Hl as (ids & Hl & Hx). simpl in Hl.
    exists ids. by rewrite <- Hids.
  - injection Hf as <-. unfold deleteChatWithCleanup.
    assert (whereChatIdEquals newChatId (messages s) = []) as ->.
    { apply elem_of_nil_inv. intros [j m] [Hc Hin]%list_elem_of_filter.
      apply elem_of_toArray in Hin. by destruct (Hfresh j m Hin). }
    simpl. apply Hnone; try done. simpl. by apply delete_id.
Qed.

Lemma fork_then_delete_witness :
  deleteChatWithCleanup "B"
    (handleFork "A" "M1" "B" "Original (Copy)" (λ k, k +:+ "-copy") 1700000000005
       Scenario.single).1
  = Scenario.single.
Proof.
  apply (fork_then_delete "A" "M1" "B" "Original (Copy)" (λ k, k +:+ "-copy") 1700000000005).
  - vm_compute. reflexivity.
  - vm_compute. reflexivity.
  - intros j m Hj. unfold Scenario.single in Hj. simpl in Hj.
    apply lookup_singleton_Some in Hj as [_ <-]. discriminate.
Defined.
End ForkRoundTrip.

Section AdditiveImport.
Import importExportService.
Variable createThumbnail : Blob → Blob.
Variable atob : string → option (list Byte.byte).

Lemma addMissing_keeps {V} (rs : list (string * V)) (t t' : gmap string V) :
  addMissing rs t = Resolved t' → ∀ k v, t !! k = Some v → t' !! k = Some v.
Proof. intros H. by destruct (addMissing_resolved rs t t' H) as (_ & ? & _). Qed.

Lemma addPrompts_keeps ps : ∀ s,
  promptKeysOk s → ∀ k v, prompts s !! k = Some v → prompts (addPrompts ps s) !! k = Some v.
Proof.
  unfold addPrompts. induction ps as [|p ps IH]; intros s Hok k v Hk; [done|].
  cbn [foldl]. apply IH.
  - intros j Hj. simpl in *. destruct (decide (j = (promptSeq s + 1)%N)) as [->|Hne]; [lia|].
    rewrite lookup_insert_ne in Hj by done. apply Hok in Hj. lia.
  - simpl. rewrite lookup_insert_ne; [done|]. intros <-.
    assert (promptSeq s + 1 ≤ promptSeq s)%N; [|lia]. apply Hok. by rewrite Hk.
Qed.

Lemma addPrompts_chats ps : ∀ s, chats (addPrompts ps s) = chats s.
Proof. unfold addPrompts. induction ps as [|p ps IH]; intros s; [done|]. cbn [foldl]. by rewrite IH. Qed.

Lemma mergeMetadata_keeps data s s1 :
  mergeMetadata data s = Resolved s1 →
  (∀ k v, chats s !! k = Some v → chats s1 !! k = Some v)
  ∧ (promptKeysOk s → ∀ k v, prompts s !! k = Some v → prompts s1 !! k = Some v).
Proof.
  unfold mergeMetadata. intros H.
  set (P := λ s0 : Store, (∀ k v, chats s !! k = Some v → chats s0 !! k = Some v)
                          ∧ prompts s0 = prompts s ∧ promptSeq s0 = promptSeq s).
  assert (HP : P s) by done.
  destruct (match dataChats data with Some _ => _ | None => _ end) as [sa|] eqn:Ea;
    [|discriminate].
  assert (Ha : P sa).
  { destruct (dataChats data) as [cs|]; [|by injection Ea as <-].
    destruct (bool_decide _); [|by injection Ea as <-].
    destruct (addMissing cs (chats s)) as [t|] eqn:Et; [|discriminate].
    injection Ea as <-. split; [|done]. simpl. by apply addMissing_keeps with cs. }
  destruct (match dataMessages data with Some _ => _ | None => _ end) as [sb|] eqn:Eb;
    [|discriminate].
  assert (Hb : P sb).
  { destruct (dataMessages data) as [ms|]; [|by injection Eb as <-].
    destruct (bool_decide _); [|by injection Eb as <-].
    destruct (addMissing ms (messages sa)) as [t|] eqn:Et; [|discriminate].
    by injection Eb as <-. }
  destruct Hb as (Hc & Hp & Hq).
  assert (Hok : promptKeysOk s → promptKeysOk sb).
  { intros Hok k Hk. rewrite Hq. apply Hok. by rewrite <- Hp. }
  destruct (dataPrompts data) as [ps|]; [|injection H as <-; split; [done | by rewrite Hp]].
  destruct (bool_decide _); [|injection H as <-; split; [done | by rewrite Hp]].
  injection H as <-. split.
  - by rewrite addPrompts_chats.
  - intros Hs k v Hk. apply addPrompts_keeps; [by apply Hok | by rewrite Hp].
Qed.

Lemma mergeLegacy_keeps data s s1 :
  mergeLegacy atob data s = Resolved s1 →
  (∀ k v, chats s !! k = Some v → chats s1 !! k = Some v)
  ∧ (promptKeysOk s → ∀ k v, prompts s !! k = Some v → prompts s1 !! k = Some v).
Proof.
  unfold mergeLegacy. intros H.
  set (P := λ s0 : Store, (∀ k v, chats s !! k = Some v → chats s0 !! k = Some v)
                          ∧ prompts s0 = prompts s ∧ promptSeq s0 = promptSeq s).
  destruct (match legacyChats data with Some _ => _ | None => _ end) as [sa|] eqn:Ea;
    [|discriminate].
  assert (Ha : P sa).
  { destruct (legacyChats data) as [cs|]; [|by injection Ea as <-].
    destruct (addMissing cs (chats s)) as [t|] eqn:Et; [|discriminate].
    injection Ea as <-. split; [|done]. simpl. by apply addMissing_keeps with cs. }
  destruct (match legacyMessages data with Some _ => _ | None => _ end) as [sb|] eqn:Eb;
    [|discriminate].
  assert (Hb : P sb).
  { destruct (legacyMessages data) as [ms|]; [|by injection Eb as <-].
    destruct (addMissing ms (messages sa)) as [t|] eqn:Et; [|discriminate].
    by injection Eb as <-. }
  destruct Hb as (Hc & Hp & Hq).
  set (s3 := match legacyPrompts data with Some _ => _ | None => _ end) in H.
  assert (H3 : (∀ k v, chats s !! k = Some v → chats s3 !! k = Some v)
               ∧ (promptKeysOk s → ∀ k v, prompts s !! k = Some v → prompts s3 !! k = Some v)).
  { unfold s3. destruct (legacyPrompts data) as [ps|]; [|split; [done | by rewrite Hp]].
    split; [by rewrite addPrompts_chats|].
    intros Hok k v Hk. apply addPrompts_keeps; [|by rewrite Hp].
    intros j Hj. rewrite Hq. apply Hok. by rewrite <- Hp. }
  clearbody s3.
  destruct (legacyImages data) as [imgs|]; [|by injection H as <-].
  destruct (bool_decide _); [|by injection H as <-].
  destruct (hydrateAll atob _) as [hs|]; [|discriminate].
  destruct (Table.bulkAdd hs (images s3)) as [[[]|] t]; [|discriminate].
  by injection H as <-.
Qed.

(** X5.  Import is an additive merge.  Whatever the backup file (archive
    or legacy document) and whether the import resolves or rejects part-way,
    every chat, message and image that was stored before is stored
    afterwards, unchanged; so is every prompt, the key generator of
    [prompts] being at or above the keys in use. *)
Theorem import_keeps_existing (file : BackupFile) (s : Store) :
  let s' := (importData createThumbnail atob file s).2 in
  (∀ k v, chats s !! k = Some v → chats s' !! k = Some v)
  ∧ (∀ k v, messages s !! k = Some v → messages s' !! k = Some v)
  ∧ (∀ k v, images s !! k = Some v → images s' !! k = Some v)
  ∧ (promptKeysOk s → ∀ k v, prompts s !! k = Some v → prompts s' !! k = Some v).
Proof.
  intros s'.
  destruct (importData_keeps createThumbnail atob file s) as [Hi Hm].
  assert (Hcp : (∀ k v, chats s !! k = Some v → chats s' !! k = Some v)
                ∧ (promptKeysOk s → ∀ k v, prompts s !! k = Some v → prompts s' !! k = Some v)).
  { unfold s'. destruct file as [data|zip]; simpl.
    - unfold importLegacyJson. destruct data as [data|]; [|done].
      destruct (mergeLegacy atob data s) as [s1|] eqn:E; [|done].
      by apply mergeLegacy_keeps with data.
    - unfold importZip. destruct (dataFile zip) as [data|]; [|done].
      destruct (mergeMetadata data s) as [s1|] eqn:E; [|done].
      destruct (mergeMetadata_keeps data s s1 E) as [Hc Hp].
      destruct (dataImages data) as [imgs|]; [|done].
      destruct (importBatches_spec createThumbnail zip imgs (batchStarts (length imgs))
                  (Resolved ()) s1) as (Hc' & _ & Hp' & _).
      fold (importBatches createThumbnail zip imgs s1) in Hc', Hp'.
      destruct (importBatches createThumbnail zip imgs s1) as [[[]|] s2]; simpl in *;
        by rewrite Hc', Hp'. }
  destruct Hcp. done.
Qed.
End AdditiveImport.

Section RoundTrip.
Import importExportService Backup.
Variable createThumbnail : Blob → Blob.
Variable atob : string → option (list Byte.byte).

Lemma bulkAdd_all {V} (t0 : gmap string V) :
  Table.bulkAdd (Table.toArray t0) ∅ = (Resolved (), t0).
Proof.
  destruct (bulkAdd_spec (Table.toArray t0) (∅ : gmap string V)) as (_ & H2 & H3).
  assert (Hr : (Table.bulkAdd (Table.toArray t0) (∅ : gmap string V)).1 = Resolved ()).
  { apply bulkAdd_fresh; [apply NoDup_fst_map_to_list | intros; apply lookup_empty]. }
  destruct (H3 Hr) as [_ H4].
  destruct (Table.bulkAdd (Table.toArray t0) ∅) as [r t'] eqn:E. simpl in *. subst r.
  f_equal. apply map_eq. intros k. apply option_eq. intros v. split.
  - intros Hk. destruct (H2 k v Hk) as [Hk'|Hin]; [by rewrite lookup_empty in Hk'|].
    by apply elem_of_toArray.
  - intros Hk. by apply H4, elem_of_toArray.
Qed.

Lemma addMissing_all {V} (t0 : gmap string V) :
  addMissing (Table.toArray t0) ∅ = Resolved t0.
Proof.
  unfold addMissing.
  assert (filter (λ r : string * V, r.1 ∉ Table.primaryKeys (∅ : gmap string V)) (Table.toArray t0)
          = Table.toArray t0) as ->.
  { apply filter_all. intros r _. unfold Table.primaryKeys, Table.toArray.
    rewrite map_to_list_empty. apply not_elem_of_nil. }
  destruct (bool_decide (0 < length (Table.toArray t0))%nat) eqn:Hl.
  - by rewrite bulkAdd_all.
  - apply bool_decide_eq_false in Hl. f_equal. symmetry.
    apply map_to_list_empty_iff. unfold Table.toArray in Hl.
    destruct (map_to_list t0); [done | simpl in Hl; lia].
Qed.

Lemma mergeMetadata_own (cs : gmap string Chat) (ms : gmap string Message)
    (ps : list (option N * Prompt)) (imgs : list ImageMeta) (cfg : option AppConfig) :
  mergeMetadata
    {| dataChats := Some (Table.toArray cs); dataMessages := Some (Table.toArray ms);
       dataPrompts := Some ps; dataImages := Some imgs; dataConfig := cfg |}
    emptyStore
  = Resolved (withPrompts (Some ps)
                {| chats := cs; messages := ms; images := ∅; prompts := ∅;
                   promptSeq := 0%N |}).
Proof.
  unfold mergeMetadata. cbn [dataChats dataMessages dataPrompts].
  assert (Hc : (if bool_decide (0 < length (Table.toArray cs))%nat
                then match addMissing (Table.toArray cs) (chats emptyStore) with
                     | Resolved t => Resolved (setChats (λ _, t) emptyStore)
                     | Rejected => Rejected
                     end
                else Resolved emptyStore)
               = Resolved (setChats (λ _, cs) emptyStore)).
  { destruct (bool_decide _) eqn:Hl.
    - simpl. by rewrite addMissing_all.
    - apply bool_decide_eq_false in Hl. f_equal.
      assert (cs = ∅) as ->; [|done].
      apply map_to_list_empty_iff. unfold Table.toArray in Hl.
      destruct (map_to_list cs); [done | simpl in Hl; lia]. }
  rewrite Hc. clear Hc.
  set (s1 := setChats (λ _, cs) emptyStore).
  assert (Hm : (if bool_decide (0 < length (Table.toArray ms))%nat
                then match addMissing (Table.toArray ms) (messages s1) with
                     | Resolved t => Resolved (setMessages (λ _, t) s1)
                     | Rejected => Rejected
                     end
                else Resolved s1)
               = Resolved (setMessages (λ _, ms) s1)).
  { destruct (bool_decide _) eqn:Hl.
    - simpl. by rewrite addMissing_all.
    - apply bool_decide_eq_false in Hl. f_equal.
      assert (ms = ∅) as ->; [|done].
      apply map_to_list_empty_iff. unfold Table.toArray in Hl.
      destruct (map_to_list ms); [done | simpl in Hl; lia]. }
  rewrite Hm. clear Hm. unfold withPrompts. simpl.
  by destruct (bool_decide _).
Qed.

Lemma omap_prepare_sublist zip (cands : list ImageMeta) :
  (omap (prepare createThumbnail zip) cands).*1 `sublist_of` metaId <$> cands.
Proof.
  induction cands as [|m cands IH]; [done|]. cbn [omap list_omap].
  destruct (prepare createThumbnail zip m) as [r|] eqn:Hr.
  - apply prepare_id in Hr. rewrite !fmap_cons, Hr. by apply sublist_skip.
  - rewrite fmap_cons. by apply sublist_cons.
Qed.

Lemma importBatch_resolves zip (all : list ImageMeta) i s :
  NoDup (metaId <$> all) → (importBatch createThumbnail zip all i s).1 = Resolved ().
Proof.
  intros Hnd. unfold importBatch.
  set (batch := take BATCH_SIZE (drop i all)).
  set (existing := (Table.whereIdAnyOf (metaId <$> batch) (images s)).*1).
  set (cands := filter (λ m, metaId m ∉ existing) batch).
  set (items := omap (prepare createThumbnail zip) cands).
  destruct (bool_decide (0 < length items)%nat); [|done].
  assert (Hr : (Table.bulkAdd items (images s)).1 = Resolved ()).
  { apply bulkAdd_fresh.
    - eapply sublist_NoDup; [exact Hnd|].
      etransitivity; [apply omap_prepare_sublist|]. apply fmap_sublist.
      etransitivity; [apply sublist_filter|].
      etransitivity; [apply sublist_take | apply sublist_drop].
    - intros r (m & Hm & Hp)%list_elem_of_omap.
      apply prepare_id in Hp. rewrite Hp.
      apply list_elem_of_filter in Hm as [Hn Hm].
      destruct (images s !! metaId m) as [v|] eqn:Ev; [|done].
      exfalso. apply Hn. apply list_elem_of_fmap. exists (metaId m, v). split; [done|].
      apply elem_of_whereIdAnyOf. split; [|done].
      apply list_elem_of_fmap. by exists m. }
  by destruct (Table.bulkAdd items (images s)).
Qed.

Lemma importBatches_resolves zip (all : list ImageMeta) s :
  NoDup (metaId <$> all) → (importBatches createThumbnail zip all s).1 = Resolved ().
Proof.
  intros Hnd. unfold importBatches.
  generalize (batchStarts (length all)). intros starts. revert s.
  induction starts as [|i starts IH]; intros s; [done|].
  cbn [foldl].
  pose proof (importBatch_resolves zip all i s Hnd) as Hi.
  destruct (importBatch createThumbnail zip all i s) as [r s1]. simpl in Hi. subst r.
  apply IH.
Qed.

Lemma lookup_foldl_insert {A K V} `{Countable K} (key : A → K) (val : A → V)
    (l : list A) (a : A) :
  a ∈ l → (∀ b, b ∈ l → key b = key a → b = a) →
  foldl (λ acc r, <[key r := val r]> acc) (∅ : gmap K V) l !! key a = Some (val a).
Proof.
  induction l as [|b l IH] using rev_ind; [by intros ?%elem_of_nil|].
  intros Hin Hinj. rewrite foldl_app. simpl.
  destruct (decide (key b = key a)) as [Hk|Hk].
  - assert (b = a) as -> by (apply Hinj; [set_solver | done]).
    apply lookup_insert_eq.
  - rewrite lookup_insert_ne by done. apply IH.
    + apply elem_of_app in Hin as [?|Hb]; [done|].
      apply list_elem_of_singleton in Hb. by subst.
    + intros c Hc. apply Hinj. set_solver.
Qed.

Lemma exported_file c now s x img :
  distinctFiles s → images s !! x = Some img →
  imagesFolder (exportData c now s) !! fileName x (mimeType img) = Some (blob img).
Proof.
  intros Hd Hx. unfold exportData. cbn [imagesFolder].
  apply (lookup_foldl_insert (λ r : string * ImageBlob, fileName r.1 (mimeType r.2))
           (λ r, blob r.2) _ (x, img)).
  - by apply elem_of_toArray.
  - intros [y b] Hy Hf. apply elem_of_toArray in Hy. simpl in Hf.
    assert (y = x) as -> by (by eapply Hd). congruence.
Qed.

Lemma prepare_exported c now s x img :
  distinctFiles s → images s !! x = Some img →
  match readBack (exportData c now s) with
  | ZipArchive zip => prepare createThumbnail zip (describe (x, img))
                      = Some (x, rebuilt createThumbnail img)
  | JsonFile _ => False
  end.
Proof.
  intros Hd Hx. unfold readBack, prepare.
  cbn [imageFiles describe metaId metaMimeType metaCreatedAt metaIsGalleryVisible
       metaGalleryTimestamp fst snd].
  by rewrite lookup_fmap, (exported_file c now s x img Hd Hx).
Qed.

(** X6.  A backup restores what was exported.  Importing the archive that
    [exportData] wrote into an empty database resolves with the exported
    configuration (its API key blank) and gives back every chat and every
    message as it was, every image with its bytes, type, creation time and
    gallery flag (the thumbnail made anew, the index field restored), and as
    many prompts as were exported; the only condition is that no two images
    share a file name in the archive. *)
Theorem export_then_import (c : AppConfig) (now : Z) (s : Store) :
  distinctFiles s →
  ∃ s',
    importData createThumbnail atob (readBack (exportData c now s)) emptyStore
    = (Resolved (Some (sanitize c)), s')
    ∧ chats s' = chats s ∧ messages s' = messages s
    ∧ images s' = rebuilt createThumbnail <$> images s
    ∧ size (prompts s') = size (prompts s).
Proof.
  intros Hd.
  pose proof (prepare_exported c now s) as Hprep.
  unfold readBack in *. cbn [importData]. unfold importZip. cbn [dataFile].
  set (zip := {| dataFile := _ |}) in *.
  unfold exportData at 1 2 3 4 5. cbn [okobit_data metaChats metaMessages metaPrompts metaImages config].
  rewrite mergeMetadata_own. cbn [dataImages dataConfig].
  set (base := {| chats := chats s; messages := messages s; images := ∅;
                  prompts := ∅; promptSeq := 0%N |}).
  set (ps := (λ r : N * Prompt, (Some r.1, r.2)) <$> map_to_list (prompts s)).
  assert (Hbase : promptKeysOk base).
  { intros k [v Hk]. simpl in Hk. by rewrite lookup_empty in Hk. }
  destruct (withPrompts_spec (Some ps) base Hbase) as (_ & Hsz & Hc1 & Hm1 & Hi1).
  set (s1 := withPrompts (Some ps) base) in *.
  set (all := metaImages (okobit_data (exportData c now s))).
  assert (Hall : all = describe <$> Table.toArray (images s)) by done.
  assert (Hnd : NoDup (metaId <$> all)).
  { rewrite Hall, <- list_fmap_compose. apply NoDup_fst_map_to_list. }
  pose proof (importBatches_resolves zip all s1 Hnd) as Hr.
  destruct (importBatches_spec createThumbnail zip all (batchStarts (length all))
              (Resolved ()) s1) as (_ & _ & _ & _ & _ & Hfrom & _).
  fold (importBatches createThumbnail zip all s1) in Hfrom.
  destruct (importBatches createThumbnail zip all s1) as [r s2] eqn:Eb.
  simpl in Hr. subst r. cbn [snd] in Hfrom.
  destruct (importBatches_resolved createThumbnail zip all s1 s2 Eb)
    as (Hc2 & Hm2 & Hp2 & _ & _ & Hpres).
  exists s2. split; [done|]. split; [by rewrite Hc2, Hc1|]. split; [by rewrite Hm2, Hm1|].
  split.
  - apply map_eq. intros k. rewrite lookup_fmap.
    destruct (images s !! k) as [img|] eqn:Ek; simpl.
    + destruct (Hpres (describe (k, img))) as [v Hv].
      { rewrite Hall. apply list_elem_of_fmap. exists (k, img). split; [done|].
        by apply elem_of_toArray. }
      { by rewrite (Hprep k img Hd Ek). }
      simpl in Hv. rewrite Hv. f_equal.
      destruct (Hfrom k v Hv) as [Hold|(m & Hm & Hpm)].
      { rewrite Hi1 in Hold. simpl in Hold. by rewrite lookup_empty in Hold. }
      rewrite Hall in Hm. apply list_elem_of_fmap in Hm as ([k' img'] & -> & Hin).
      apply elem_of_toArray in Hin.
      pose proof (prepare_id _ _ _ _ Hpm) as Hid. simpl in Hid. subst k'.
      assert (img' = img) as -> by congruence.
      rewrite (Hprep k img Hd Ek) in Hpm. congruence.
    + destruct (images s2 !! k) as [v|] eqn:Ev; [|done].
      destruct (Hfrom k v Ev) as [Hold|(m & Hm & Hpm)].
      { rewrite Hi1 in Hold. simpl in Hold. by rewrite lookup_empty in Hold. }
      rewrite Hall in Hm. apply list_elem_of_fmap in Hm as ([k' img'] & -> & Hin).
      apply elem_of_toArray in Hin.
      pose proof (prepare_id _ _ _ _ Hpm) as Hid. simpl in Hid. subst k'. congruence.
  - rewrite Hp2, Hsz. simpl. unfold ps.
    by rewrite map_size_empty, length_fmap, length_map_to_list.
Qed.
End RoundTrip.

Section SortFacts.
Context {A : Type} (cmp : A → A → Z).

Lemma insertSorted_Permutation x l : Js.insertSorted cmp x l ≡ₚ x :: l.
Proof.
  induction l as [|y l IH]; [done|]. simpl.
  destruct (bool_decide (cmp x y ≤ 0)); [done|].
  rewrite IH. apply Permutation_swap.
Qed.

Lemma sort_Permutation l : Js.sort cmp l ≡ₚ l.
Proof.
  unfold Js.sort. induction l as [|x l IH]; [done|]. simpl.
  by rewrite insertSorted_Permutation, IH.
Qed.

Hypothesis cmp_total : ∀ x y, ¬ cmp x y ≤ 0 → cmp y x ≤ 0.
Hypothesis cmp_trans : ∀ x y z, cmp x y ≤ 0 → cmp y z ≤ 0 → cmp x z ≤ 0.

Lemma insertSorted_sorted x l :
  StronglySorted (λ a b, cmp a b ≤ 0) l →
  StronglySorted (λ a b, cmp a b ≤ 0) (Js.insertSorted cmp x l).
Proof.
  induction 1 as [|y l Hs IH Hall]; simpl.
  - repeat constructor.
  - case_bool_decide as Hc.
    + constructor; [by constructor|]. constructor; [done|].
      eapply Forall_impl; [exact Hall|]. intros z Hz. by eapply cmp_trans.
    + constructor; [done|].
      rewrite insertSorted_Permutation. constructor; [by apply cmp_total | done].
Qed.

Lemma sort_sorted l : StronglySorted (λ a b, cmp a b ≤ 0) (Js.sort cmp l).
Proof.
  unfold Js.sort. induction l as [|x l IH]; simpl; [constructor|].
  by apply insertSorted_sorted.
Qed.

(** Stability: the elements of one class of equals keep their order. *)
Lemma insertSorted_filter (P : A → Prop) `{!∀ a, Decision (P a)} x l :
  (∀ a b, P a → P b → cmp a b ≤ 0) →
  filter P (Js.insertSorted cmp x l) = filter P (x :: l).
Proof.
  intros Heq. induction l as [|y l IH]; [done|]. simpl.
  case_bool_decide as Hc; [done|].
  rewrite filter_cons, IH, !filter_cons.
  destruct (decide (P y)) as [Hy|Hy]; [|done].
  destruct (decide (P x)) as [Hx|Hx]; [|done].
  by destruct Hc; apply Heq.
Qed.

Lemma sort_filter (P : A → Prop) `{!∀ a, Decision (P a)} l :
  (∀ a b, P a → P b → cmp a b ≤ 0) →
  filter P (Js.sort cmp l) = filter P l.
Proof.
  intros Heq. unfold Js.sort. induction l as [|x l IH]; [done|]. simpl.
  rewrite insertSorted_filter by done. by rewrite !filter_cons, IH.
Qed.

End SortFacts.

Lemma StronglySorted_lookup_lt {A} (R : A → A → Prop) (l : list A) (i j : nat) (a b : A) :
  StronglySorted R l → (i < j)%nat → l !! i = Some a → l !! j = Some b → R a b.
Proof.
  intros Hs. revert i j. induction Hs as [|x l Hs IH Hall]; intros i j Hij Hi Hj.
  - by rewrite lookup_nil in Hi.
  - destruct j as [|j]; [lia|]. simpl in Hj. destruct i as [|i]; simpl in Hi.
    + injection Hi as ->. rewrite Forall_forall in Hall. apply Hall.
      by eapply list_elem_of_lookup_2.
    + apply (IH i j); [lia | done..].
Qed.

Section KeyOrderFacts.
Import KeyOrder.

Lemma compare_not_Gt_trans (x : string) : ∀ y z,
  String.compare x y ≠ Gt → String.compare y z ≠ Gt → String.compare x z ≠ Gt.
Proof.
  induction x as [|a x IH]; intros [|b y] [|c z]; cbn [String.compare]; try done.
  unfold Ascii.compare.
  destruct (N.compare_spec (Ascii.N_of_ascii a) (Ascii.N_of_ascii b)) as [Hab|Hab|Hab];
    destruct (N.compare_spec (Ascii.N_of_ascii b) (Ascii.N_of_ascii c)) as [Hbc|Hbc|Hbc];
    destruct (N.compare_spec (Ascii.N_of_ascii a) (Ascii.N_of_ascii c)) as [Hac|Hac|Hac];
    try done; try lia.
  apply IH.
Qed.

Lemma compareKeys_le a b : compareKeys a b ≤ 0 ↔ String.compare a b ≠ Gt.
Proof. unfold compareKeys. destruct (String.compare a b); split; (done || lia). Qed.

Lemma compareKeys_total x y : ¬ compareKeys x y ≤ 0 → compareKeys y x ≤ 0.
Proof.
  rewrite !compareKeys_le, (String.compare_antisym y x).
  destruct (String.compare x y); simpl; [by intros [] | by intros [] | done].
Qed.

Lemma compareKeys_trans x y z :
  compareKeys x y ≤ 0 → compareKeys y z ≤ 0 → compareKeys x z ≤ 0.
Proof. rewrite !compareKeys_le. apply compare_not_Gt_trans. Qed.

Lemma compareKeys_refl x : compareKeys x x ≤ 0.
Proof. destruct (decide (compareKeys x x ≤ 0)); [done | by apply compareKeys_total]. Qed.

Lemma compareKeys_antisym x y : compareKeys x y ≤ 0 → compareKeys y x ≤ 0 → x = y.
Proof.
  rewrite !compareKeys_le, (String.compare_antisym y x).
  destruct (String.compare x y) eqn:E; simpl; try done.
  intros _ _. by apply String.compare_eq_iff.
Qed.

Context {V : Type}.
Implicit Types rows : list (string * V).

Lemma byPrimaryKey_Permutation rows : byPrimaryKey rows ≡ₚ rows.
Proof. apply sort_Permutation. Qed.

Lemma byPrimaryKey_sorted rows :
  StronglySorted (λ a b : string * V, compareKeys a.1 b.1 ≤ 0) (byPrimaryKey rows).
Proof.
  apply sort_sorted.
  - intros x y. apply compareKeys_total.
  - intros x y z. apply compareKeys_trans.
Qed.

(** The first row of the key order that satisfies [P] has the least key
    among the rows that do. *)
Lemma first_by_key (P : string * V → Prop) `{!∀ r, Decision (P r)} rows i r :
  list_find P (byPrimaryKey rows) = Some (i, r) →
  r ∈ rows ∧ P r ∧ ∀ r', r' ∈ rows → P r' → compareKeys r.1 r'.1 ≤ 0.
Proof.
  intros (Hi & Hp & Hfirst)%list_find_Some. split_and!; [|done|].
  - rewrite <- (byPrimaryKey_Permutation rows). by eapply list_elem_of_lookup_2.
  - intros r' Hin Hp'. rewrite <- (byPrimaryKey_Permutation rows) in Hin.
    apply list_elem_of_lookup in Hin as [j Hj].
    destruct (decide (j < i)%nat) as [Hlt|Hge]; [by destruct (Hfirst j r' Hj Hlt)|].
    destruct (decide (j = i)) as [->|Hne].
    + rewrite Hi in Hj. injection Hj as <-. apply compareKeys_refl.
    + eapply (StronglySorted_lookup_lt (λ a b : string * V, compareKeys a.1 b.1 ≤ 0)
                _ i j); [apply byPrimaryKey_sorted | lia | done..].
Qed.

End KeyOrderFacts.

(** Sorting on a field a list that is in the order [K]: the result is in
    the order of the field and, among equals, in the order [K]. *)
Section SortOnField.
Import KeyOrder.
Context {A : Type} (f : A → Z) (K : A → A → Prop).

Lemma insertSorted_fieldThen x l :
  StronglySorted (fieldThen f K) l → Forall (K x) l →
  StronglySorted (fieldThen f K) (Js.insertSorted (λ a b, f a - f b) x l).
Proof.
  induction 1 as [|y l Hs IH Hall]; intros Hx; simpl.
  - repeat constructor.
  - apply Forall_cons in Hx as [Hxy Hxl]. case_bool_decide as Hc.
    + constructor; [by constructor|]. constructor.
      * unfold fieldThen. destruct (decide (f x = f y)); [by right | left; lia].
      * rewrite Forall_forall in Hall, Hxl. apply Forall_forall. intros z Hz.
        specialize (Hall z Hz). specialize (Hxl z Hz). unfold fieldThen in *.
        destruct (decide (f x = f z)); [by right | left; lia].
    + constructor; [by apply IH|].
      rewrite insertSorted_Permutation. constructor; [|done].
      left. lia.
Qed.

Lemma sort_fieldThen l :
  StronglySorted K l → StronglySorted (fieldThen f K) (Js.sort (λ a b, f a - f b) l).
Proof.
  unfold Js.sort. induction 1 as [|x l Hs IH Hall]; simpl; [constructor|].
  apply insertSorted_fieldThen; [done|].
  fold (Js.sort (λ a b, f a - f b) l). by rewrite sort_Permutation.
Qed.

End SortOnField.

Section SidebarOrder.
Import Sidebar.

Lemma compareChats_le a b :
  compareChats a b ≤ 0 ↔
  (pinned a.2 = true ∧ pinned b.2 = false)
  ∨ (pinned a.2 = pinned b.2 ∧ updatedAt b.2 ≤ updatedAt a.2).
Proof.
  unfold compareChats. destruct (pinned a.2), (pinned b.2); simpl;
    repeat case_bool_decide; try done; split; intros; try lia;
    try (right; split; [done | lia]); try (by left);
    repeat match goal with H : _ ∨ _ |- _ => destruct H as [[??]|[??]] end;
    try done; lia.
Qed.

(** X7.  The sidebar lists the chats it is given, each exactly once,
    pinned chats before the others and, among chats with the same pin
    state, the most recently updated first; chats with the same pin state
    and the same [updatedAt] stay in the order in which they came. *)
Theorem sidebar_order (chats : list (string * Chat)) :
  sortedChats chats ≡ₚ chats
  ∧ (∀ i j a b,
       (i < j)%nat → sortedChats chats !! i = Some a → sortedChats chats !! j = Some b →
       (pinned b.2 = true → pinned a.2 = true)
       ∧ (pinned a.2 = pinned b.2 → updatedAt b.2 ≤ updatedAt a.2))
  ∧ (∀ (p : bool) (u : Z),
       filter (λ c, pinned c.2 = p ∧ updatedAt c.2 = u) (sortedChats chats)
       = filter (λ c, pinned c.2 = p ∧ updatedAt c.2 = u) chats).
Proof.
  split; [apply sort_Permutation|]. split.
  - intros i j a b Hij Hi Hj.
    assert (Hle : compareChats a b ≤ 0).
    { eapply (StronglySorted_lookup_lt (λ a b, compareChats a b ≤ 0)); [|done..].
      apply sort_sorted.
      - intros x y Hn. apply compareChats_le.
        destruct (pinned x.2) eqn:Hx, (pinned y.2) eqn:Hy.
        + right. split; [done|]. destruct (decide (updatedAt x.2 ≤ updatedAt y.2)); [done|].
          destruct Hn. apply compareChats_le. right. rewrite Hx, Hy. split; [done | lia].
        + destruct Hn. apply compareChats_le. left. by rewrite Hx, Hy.
        + by left.
        + right. split; [done|]. destruct (decide (updatedAt x.2 ≤ updatedAt y.2)); [done|].
          destruct Hn. apply compareChats_le. right. rewrite Hx, Hy. split; [done | lia].
      - intros x y z Hxy%compareChats_le Hyz%compareChats_le. apply compareChats_le.
        destruct Hxy as [[? ?]|[? ?]], Hyz as [[? ?]|[? ?]].
        + congruence.
        + left. split; congruence.
        + left. split; congruence.
        + right. split; [congruence | lia]. }
    apply compareChats_le in Hle as [[Ha Hb]|[Hp Hu]].
    + split; [done | congruence].
    + split; [congruence | done].
  - intros p u. apply sort_filter. intros a b [Ha Hua] [Hb Hub].
    apply compareChats_le. right. split; [congruence | lia].
Qed.
End SidebarOrder.

Section DragOverlay.
Import AppView.

Lemma onDragEvent_keeps st e :
  0 ≤ dragCounter st ∧ (isDragging st = true → 1 ≤ dragCounter st) →
  0 ≤ dragCounter (onDragEvent st e)
  ∧ (isDragging (onDragEvent st e) = true → 1 ≤ dragCounter (onDragEvent st e)).
Proof.
  intros [H0 H1]. destruct e as [env items| | |env files|]; simpl.
  - unfold handleDragEnter. destruct (lightboxOpen env); [done|].
    destruct (galleryShown env); [done|]. simpl. split; [lia|]. intros _. lia.
  - unfold handleDragLeave. case_bool_decide; simpl; [done|]. split; [lia|]. intros _. lia.
  - done.
  - unfold handleDrop. destruct (lightboxOpen env); [done|].
    destruct (galleryShown env); [done|]. by case_bool_decide.
  - done.
Qed.

(** X8.  The drag overlay follows the enter/leave counter.  After any
    sequence of drag events (enter, leave, over, drop, cancel; with the
    lightbox open or the gallery shown at any of them) the counter is not
    negative, and the overlay flag [isDragging] is set only while the counter
    is at least 1. *)
Theorem drag_overlay_counter (events : list DragEvent) :
  let st := foldl onDragEvent initialDrag events in
  0 ≤ dragCounter st ∧ (isDragging st = true → 1 ≤ dragCounter st).
Proof.
  induction events as [|e events IH] using rev_ind.
  - simpl. split; [lia | done].
  - rewrite foldl_app. simpl. by apply onDragEvent_keeps.
Qed.
End DragOverlay.

Section IndexFacts.
Context {A : Type}.

Lemma findIndexFrom_spec (p : A → bool) (l : list A) : ∀ i,
  Js.findIndexFrom p i l =
    match list_find (λ x, p x = true) l with
    | Some (n, _) => i + Z.of_nat n
    | None => -1
    end.
Proof.
  induction l as [|x l IH]; intros i; [done|]. cbn [Js.findIndexFrom list_find].
  destruct (decide (p x = true)) as [Hp|Hp].
  - rewrite Hp. simpl. lia.
  - apply not_true_is_false in Hp. rewrite Hp, IH.
    destruct (list_find _ l) as [[n y]|]; simpl; [lia | done].
Qed.

(** The index found is that of the first element that satisfies [p]. *)
Lemma findIndex_Some (p : A → bool) (l : list A) (n : nat) (x : A) :
  l !! n = Some x → p x = true →
  (∀ j y, l !! j = Some y → (j < n)%nat → p y = false) →
  Js.findIndex p l = Z.of_nat n.
Proof.
  intros Hn Hp Hfirst. unfold Js.findIndex. rewrite findIndexFrom_spec.
  assert (list_find (λ x, p x = true) l = Some (n, x)) as ->; [|lia].
  apply list_find_Some. split_and!; [done..|].
  intros j y Hj Hlt. rewrite (Hfirst j y Hj Hlt). done.
Qed.

Lemma findIndex_found (p : A → bool) (l : list A) :
  Js.findIndex p l ≠ -1 →
  ∃ n x, Js.findIndex p l = Z.of_nat n ∧ l !! n = Some x ∧ p x = true.
Proof.
  unfold Js.findIndex. rewrite findIndexFrom_spec.
  destruct (list_find _ l) as [[n x]|] eqn:E; [|done].
  intros _. apply list_find_Some in E as (Hn & Hp & _).
  exists n, x. split; [lia | done].
Qed.

Lemma findIndex_none (p : A → bool) (l : list A) (x : A) :
  Js.findIndex p l = -1 → x ∈ l → p x = false.
Proof.
  unfold Js.findIndex. rewrite findIndexFrom_spec.
  destruct (list_find _ l) as [[n y]|] eqn:E; [lia|].
  intros _ Hin. eapply list_find_None in E. rewrite Forall_forall in E.
  specialize (E x Hin). simpl in E. by destruct (p x).
Qed.

Lemma item_of_nat (l : list A) (n : nat) : Js.item l (Z.of_nat n) = l !! n.
Proof. unfold Js.item. rewrite bool_decide_eq_true_2 by lia. by rewrite Nat2Z.id. Qed.

End IndexFacts.

Lemma remainder_next n len :
  0 ≤ n < len →
  Js.remainder (n + 1) len = Some (if bool_decide (n + 1 < len) then n + 1 else 0).
Proof.
  intros Hn. unfold Js.remainder. rewrite bool_decide_eq_false_2 by lia. f_equal.
  case_bool_decide.
  - apply Z.rem_small. lia.
  - assert (n + 1 = len) as -> by lia. apply Z.rem_same. lia.
Qed.

Lemma remainder_prev n len :
  0 ≤ n < len →
  Js.remainder (n - 1 + len) len = Some (if bool_decide (n = 0) then len - 1 else n - 1).
Proof.
  intros Hn. unfold Js.remainder. rewrite bool_decide_eq_false_2 by lia. f_equal.
  case_bool_decide.
  - subst n. replace (0 - 1 + len) with (len - 1) by lia. apply Z.rem_small. lia.
  - rewrite Z.rem_mod_nonneg by lia.
    replace (n - 1 + len) with (n - 1 + 1 * len) by lia.
    rewrite Z_mod_plus_full. apply Z.mod_small. lia.
Qed.

Section Navigation.
Import AppView.

Lemma findIndex_key {V} (l : list (string * V)) (n : nat) (r : string * V) :
  NoDup l.*1 → l !! n = Some r →
  Js.findIndex (λ c, bool_decide (c.1 = r.1)) l = Z.of_nat n.
Proof.
  intros Hnd Hn. apply (findIndex_Some _ _ n r); [done | by apply bool_decide_eq_true|].
  intros j y Hj Hlt. apply bool_decide_eq_false. intros Heq.
  assert (j = n); [|lia].
  eapply NoDup_lookup; [exact Hnd | |].
  - by rewrite list_lookup_fmap, Hj.
  - by rewrite list_lookup_fmap, Hn, Heq.
Qed.

(** One step of the keyboard navigation from the chat at position [n]. *)
Lemma switchChat_from (isNext : bool) (chats : list (string * Chat)) (n : nat)
    (r : string * Chat) :
  NoDup chats.*1 → (1 < length chats)%nat → chats !! n = Some r → r.1 ≠ "" →
  let m := if isNext then (if decide (S n < length chats)%nat then S n else 0%nat)
           else (if decide (n = 0%nat) then (length chats - 1)%nat else (n - 1)%nat) in
  ∃ r', chats !! m = Some r'
        ∧ switchChat isNext (negb isNext) (Some chats) (Some r.1) = Js.Normal (Some r'.1).
Proof.
  intros Hnd Hlen Hn Hr m.
  assert (Hlt : (n < length chats)%nat) by (by eapply lookup_lt_Some).
  assert (Hm : (m < length chats)%nat).
  { unfold m. destruct isNext; repeat case_decide; lia. }
  destruct (lookup_lt_is_Some_2 chats m Hm) as [r' Hr']. exists r'. split; [done|].
  unfold switchChat.
  assert ((isNext || negb isNext) = true) as -> by (by destruct isNext).
  rewrite bool_decide_eq_true_2 by done.
  unfold Js.truthy. rewrite bool_decide_eq_false_2 by done. simpl.
  rewrite (findIndex_key chats n r Hnd Hn).
  rewrite bool_decide_eq_true_2 by lia.
  assert (Hidx : (if isNext
                  then Js.remainder (Z.of_nat n + 1) (Z.of_nat (length chats))
                  else Js.remainder (Z.of_nat n - 1 + Z.of_nat (length chats))
                                    (Z.of_nat (length chats)))
                 = Some (Z.of_nat m)).
  { unfold m. destruct isNext.
    - rewrite remainder_next by lia. f_equal.
      case_bool_decide; case_decide; lia.
    - rewrite remainder_prev by lia. f_equal.
      case_bool_decide; case_decide; lia. }
  rewrite Hidx. simpl. by rewrite item_of_nat, Hr'.
Qed.

(** X9.  Alt+ArrowDown and Alt+ArrowUp walk the chat list as a ring.  With
    at least two chats and distinct non-empty ids, from the chat at position
    [n] Alt+ArrowDown selects the chat at the next position, the first one
    after the last, and Alt+ArrowUp the chat at the position before, the
    last one before the first; neither reads past the ends of the list, both
    select a chat other than the one they start from, and each undoes the
    other. *)
Theorem chat_navigation_round_trip (chats : list (string * Chat)) (n : nat)
    (r : string * Chat) :
  NoDup chats.*1 → "" ∉ chats.*1 → (1 < length chats)%nat → chats !! n = Some r →
  let next := if decide (S n < length chats)%nat then S n else 0%nat in
  let prev := if decide (n = 0%nat) then (length chats - 1)%nat else (n - 1)%nat in
  ∃ a b,
    chats !! next = Some a ∧ chats !! prev = Some b
    ∧ a.1 ≠ r.1 ∧ b.1 ≠ r.1
    ∧ switchChat true false (Some chats) (Some r.1) = Js.Normal (Some a.1)
    ∧ switchChat false true (Some chats) (Some r.1) = Js.Normal (Some b.1)
    ∧ switchChat false true (Some chats) (Some a.1) = Js.Normal (Some r.1)
    ∧ switchChat true false (Some chats) (Some b.1) = Js.Normal (Some r.1).
Proof.
  intros Hnd Hne Hlen Hn next prev.
  assert (Hkey : ∀ k r0, chats !! k = Some r0 → r0.1 ≠ "").
  { intros k r0 Hk Heq. apply Hne. rewrite <- Heq. apply list_elem_of_fmap.
    exists r0. split; [done | by eapply list_elem_of_lookup_2]. }
  assert (Hother : ∀ k r0, chats !! k = Some r0 → k ≠ n → r0.1 ≠ r.1).
  { intros k r0 Hk Hkn Heq. apply Hkn.
    eapply NoDup_lookup; [exact Hnd | |].
    - by rewrite list_lookup_fmap, Hk.
    - by rewrite list_lookup_fmap, Hn, Heq. }
  assert (Hlt : (n < length chats)%nat) by (by eapply lookup_lt_Some).
  destruct (switchChat_from true chats n r Hnd Hlen Hn (Hkey _ _ Hn)) as (a & Ha & Hdown).
  destruct (switchChat_from false chats n r Hnd Hlen Hn (Hkey _ _ Hn)) as (b & Hb & Hup).
  cbv zeta in Ha, Hb, Hdown, Hup. cbn [negb] in Hdown, Hup. fold next in Ha. fold prev in Hb.
  destruct (switchChat_from false chats next a Hnd Hlen Ha (Hkey _ _ Ha))
    as (r1 & Hr1 & Hback1).
  destruct (switchChat_from true chats prev b Hnd Hlen Hb (Hkey _ _ Hb))
    as (r2 & Hr2 & Hback2).
  cbv zeta in Hr1, Hr2, Hback1, Hback2. cbn [negb] in Hback1, Hback2.
  assert (r1 = r) as ->.
  { revert Hr1. unfold next. repeat case_decide; intros Hr1; try lia;
      match type of Hr1 with chats !! ?k = _ => replace k with n in Hr1 by lia end;
      congruence. }
  assert (r2 = r) as ->.
  { revert Hr2. unfold prev. repeat case_decide; intros Hr2; try lia;
      match type of Hr2 with chats !! ?k = _ => replace k with n in Hr2 by lia end;
      congruence. }
  exists a, b. split_and!; try done.
  - apply (Hother next a Ha). unfold next.
    destruct (decide (S n < length chats)%nat); lia.
  - apply (Hother prev b Hb). unfold prev. destruct (decide (n = 0%nat)); lia.
Qed.

Lemma chat_navigation_round_trip_witness :
  ∃ a b,
    [("A", Scenario.chat "one"); ("B", Scenario.chat "two"); ("C", Scenario.chat "three")]
      !! 0%nat = Some a
    ∧ [("A", Scenario.chat "one"); ("B", Scenario.chat "two"); ("C", Scenario.chat "three")]
        !! 1%nat = Some b
    ∧ a.1 ≠ "C" ∧ b.1 ≠ "C"
    ∧ switchChat true false
        (Some [("A", Scenario.chat "one"); ("B", Scenario.chat "two");
               ("C", Scenario.chat "three")]) (Some "C") = Js.Normal (Some a.1)
    ∧ switchChat false true
        (Some [("A", Scenario.chat "one"); ("B", Scenario.chat "two");
               ("C", Scenario.chat "three")]) (Some "C") = Js.Normal (Some b.1)
    ∧ switchChat false true
        (Some [("A", Scenario.chat "one"); ("B", Scenario.chat "two");
               ("C", Scenario.chat "three")]) (Some a.1) = Js.Normal (Some "C")
    ∧ switchChat true false
        (Some [("A", Scenario.chat "one"); ("B", Scenario.chat "two");
               ("C", Scenario.chat "three")]) (Some b.1) = Js.Normal (Some "C").
Proof.
  apply (chat_navigation_round_trip
           [("A", Scenario.chat "one"); ("B", Scenario.chat "two");
            ("C", Scenario.chat "three")] 2 ("C", Scenario.chat "three")).
  - apply (bool_decide_unpack _). vm_compute. exact I.
  - apply (bool_decide_unpack _). vm_compute. exact I.
  - simpl. lia.
  - reflexivity.
Defined.

(** One step of the lightbox from a position inside the context. *)
Lemma lightbox_step (forward : bool) (d : LightboxData) (n : nat) :
  idx d = Z.of_nat n → (n < length (context d))%nat →
  let m := if forward then (if decide (S n < length (context d))%nat then S n else 0%nat)
           else (if decide (n = 0%nat) then (length (context d) - 1)%nat else (n - 1)%nat) in
  ∃ c, context d !! m = Some c
       ∧ (if forward then onNext d else onPrev d)
         = Js.Normal {| shown := c.1; idx := Z.of_nat m; context := context d |}.
Proof.
  intros Hn Hlt m.
  assert (Hm : (m < length (context d))%nat).
  { unfold m. destruct forward; repeat case_decide; lia. }
  destruct (lookup_lt_is_Some_2 (context d) m Hm) as [c Hc]. exists c. split; [done|].
  destruct forward; unfold onNext, onPrev; cbv zeta; rewrite Hn.
  - rewrite remainder_next by lia.
    assert ((if bool_decide (Z.of_nat n + 1 < Z.of_nat (length (context d)))
             then Z.of_nat n + 1 else 0) = Z.of_nat m) as ->.
    { unfold m. case_bool_decide; case_decide; lia. }
    by rewrite item_of_nat, Hc.
  - rewrite remainder_prev by lia.
    assert ((if bool_decide (Z.of_nat n = 0)
             then Z.of_nat (length (context d)) - 1 else Z.of_nat n - 1) = Z.of_nat m) as ->.
    { unfold m. case_bool_decide; case_decide; lia. }
    by rewrite item_of_nat, Hc.
Qed.

(** X10.  The lightbox walks its context as a ring.  From position [n]
    inside the context, [onNext] goes to the next position, the first one
    after the last, and [onPrev] to the position before, the last one before
    the first; neither throws, each shows the blob of the entry it goes to
    and keeps the context; and each undoes the other: next then previous,
    and previous then next, come back to position [n] with the blob of its
    entry shown. *)
Theorem lightbox_navigation (d : LightboxData) (n : nat) :
  idx d = Z.of_nat n → (n < length (context d))%nat →
  let next := if decide (S n < length (context d))%nat then S n else 0%nat in
  let prev := if decide (n = 0%nat) then (length (context d) - 1)%nat else (n - 1)%nat in
  ∃ here after before,
    context d !! n = Some here
    ∧ context d !! next = Some after ∧ context d !! prev = Some before
    ∧ onNext d
      = Js.Normal {| shown := after.1; idx := Z.of_nat next; context := context d |}
    ∧ onPrev d
      = Js.Normal {| shown := before.1; idx := Z.of_nat prev; context := context d |}
    ∧ onPrev {| shown := after.1; idx := Z.of_nat next; context := context d |}
      = Js.Normal {| shown := here.1; idx := Z.of_nat n; context := context d |}
    ∧ onNext {| shown := before.1; idx := Z.of_nat prev; context := context d |}
      = Js.Normal {| shown := here.1; idx := Z.of_nat n; context := context d |}.
Proof.
  intros Hn Hlt next prev.
  destruct (lookup_lt_is_Some_2 (context d) n Hlt) as [here Hhere].
  destruct (lightbox_step true d n Hn Hlt) as (after & Hafter & Hgo).
  destruct (lightbox_step false d n Hn Hlt) as (before & Hbefore & Hgo').
  cbv zeta in Hafter, Hbefore, Hgo, Hgo'. fold next in Hafter, Hgo. fold prev in Hbefore, Hgo'.
  assert (Hnext : (next < length (context d))%nat) by (by eapply lookup_lt_Some).
  assert (Hprev : (prev < length (context d))%nat) by (by eapply lookup_lt_Some).
  destruct (lightbox_step false
              {| shown := after.1; idx := Z.of_nat next; context := context d |}
              next eq_refl Hnext) as (c1 & Hc1 & Hback1).
  destruct (lightbox_step true
              {| shown := before.1; idx := Z.of_nat prev; context := context d |}
              prev eq_refl Hprev) as (c2 & Hc2 & Hback2).
  cbv zeta in Hc1, Hc2, Hback1, Hback2. cbn [context] in Hc1, Hc2, Hback1, Hback2.
  assert (Hn1 : (if decide (next = 0%nat) then (length (context d) - 1)%nat
                 else (next - 1)%nat) = n).
  { unfold next. repeat case_decide; lia. }
  assert (Hn2 : (if decide (S prev < length (context d))%nat then S prev else 0%nat) = n).
  { unfold prev. repeat case_decide; lia. }
  rewrite Hn1 in Hc1, Hback1. rewrite Hn2 in Hc2, Hback2.
  assert (c1 = here) as -> by congruence. assert (c2 = here) as -> by congruence.
  by exists here, after, before.
Qed.

Lemma lightbox_navigation_witness :
  ∃ here after before,
    Examples.gallery3 !! 2%nat = Some here
    ∧ Examples.gallery3 !! 0%nat = Some after ∧ Examples.gallery3 !! 1%nat = Some before
    ∧ onNext {| shown := Scenario.png; idx := 2; context := Examples.gallery3 |}
      = Js.Normal {| shown := after.1; idx := 0; context := Examples.gallery3 |}
    ∧ onPrev {| shown := Scenario.png; idx := 2; context := Examples.gallery3 |}
      = Js.Normal {| shown := before.1; idx := 1; context := Examples.gallery3 |}
    ∧ onPrev {| shown := after.1; idx := 0; context := Examples.gallery3 |}
      = Js.Normal {| shown := here.1; idx := 2; context := Examples.gallery3 |}
    ∧ onNext {| shown := before.1; idx := 1; context := Examples.gallery3 |}
      = Js.Normal {| shown := here.1; idx := 2; context := Examples.gallery3 |}.
Proof.
  apply (lightbox_navigation
           {| shown := Scenario.png; idx := 2; context := Examples.gallery3 |} 2).
  - reflexivity.
  - simpl. lia.
Defined.

(** X11.  A click on a chat image opens the lightbox on that image.  The
    lightbox data that [handleChatImageClick] builds always has its index
    inside its context, the entry at the index carries the clicked id (so
    the [imageId] handed to the lightbox is the clicked one, whether or not
    the image is still stored or listed), and the blob shown is the clicked
    one. *)
Theorem clicked_image_opens (clicked : Blob) (clickedId : string)
    (activeChatMessages : list (string * Message)) (s : Store) :
  let d := handleChatImageClick clicked clickedId activeChatMessages s in
  imageId d = Some clickedId
  ∧ 0 ≤ idx d < Z.of_nat (length (context d))
  ∧ shown d = clicked.
Proof.
  unfold handleChatImageClick. cbv zeta.
  set (ctx := (λ img : string * ImageBlob, (blob img.2, img.1)) <$> _).
  case_bool_decide as Hi.
  - destruct (findIndex_found _ ctx Hi) as (n & c & Hn & Hc & Hp).
    apply bool_decide_eq_true in Hp. unfold imageId. cbn [idx context shown].
    rewrite Hn, item_of_nat, Hc. simpl. split; [by rewrite Hp|]. split; [|done].
    apply lookup_lt_Some in Hc. lia.
  - unfold imageId. simpl. split; [done|]. split; [lia | done].
Qed.
End Navigation.

Section PromptRows.
Import PromptTable.
Implicit Types (t : gmap N Prompt) (k : N) (p : Prompt).

Lemma toArray_Permutation t : toArray t ≡ₚ map_to_list t.
Proof. apply sort_Permutation. Qed.

Lemma elem_of_prompt_rows t k p : (k, p) ∈ toArray t ↔ t !! k = Some p.
Proof. by rewrite toArray_Permutation, elem_of_map_to_list. Qed.

Lemma NoDup_prompt_rows t : NoDup (toArray t).*1.
Proof. rewrite toArray_Permutation. apply NoDup_fst_map_to_list. Qed.

Lemma elem_of_whereTypeEquals ty t k p :
  (k, p) ∈ whereTypeEquals ty t ↔ t !! k = Some p ∧ prompt_type p = ty.
Proof.
  unfold whereTypeEquals. rewrite list_elem_of_filter, elem_of_prompt_rows. simpl. tauto.
Qed.

Lemma NoDup_whereTypeEquals ty t : NoDup (whereTypeEquals ty t).*1.
Proof.
  eapply sublist_NoDup; [apply (NoDup_prompt_rows t)|].
  apply fmap_sublist, sublist_filter.
Qed.

Lemma NoDup_keys {V} (l : list (N * V)) : NoDup l.*1 → NoDup l.
Proof. apply NoDup_fmap_1. Qed.

Lemma key_unique {V} (l : list (N * V)) k (v v' : V) :
  NoDup l.*1 → (k, v) ∈ l → (k, v') ∈ l → v = v'.
Proof.
  intros Hnd [i Hi]%list_elem_of_lookup [j Hj]%list_elem_of_lookup.
  assert (i = j) as ->; [|congruence].
  eapply NoDup_lookup; [exact Hnd | |].
  - by rewrite list_lookup_fmap, Hi.
  - by rewrite list_lookup_fmap, Hj.
Qed.

Lemma lookup_foldl_delete {V} (ks : list N) : ∀ (t : gmap N V) k,
  foldl (λ acc j, delete j acc) t ks !! k = if decide (k ∈ ks) then None else t !! k.
Proof.
  induction ks as [|j ks IH]; intros t k; cbn [foldl].
  - rewrite decide_False; [done | apply not_elem_of_nil].
  - rewrite IH. destruct (decide (k ∈ ks)) as [Hin|Hn].
    + rewrite decide_True; [done | by right].
    + destruct (decide (k = j)) as [->|Hne].
      * rewrite decide_True by left. apply lookup_delete_eq.
      * rewrite decide_False; [by rewrite lookup_delete_ne|].
        intros [?|?]%elem_of_cons; done.
Qed.

Lemma prompts_add p s :
  prompts (add p s) = <[(promptSeq s + 1)%N := p]> (prompts s)
  ∧ promptSeq (add p s) = (promptSeq s + 1)%N
  ∧ chats (add p s) = chats s ∧ messages (add p s) = messages s
  ∧ images (add p s) = images s.
Proof. done. Qed.

Lemma fresh_key s : promptKeysOk s → prompts s !! (promptSeq s + 1)%N = None.
Proof.
  intros Hok. apply eq_None_not_Some. intros Hs. apply Hok in Hs. lia.
Qed.

Lemma promptKeysOk_add p s : promptKeysOk s → promptKeysOk (add p s).
Proof.
  intros Hok k Hk. destruct (prompts_add p s) as (Hp & Hq & _). rewrite Hq.
  rewrite Hp in Hk. destruct (decide (k = (promptSeq s + 1)%N)) as [->|Hne]; [lia|].
  rewrite lookup_insert_ne in Hk by done. apply Hok in Hk. lia.
Qed.

Lemma StronglySorted_take_drop {A} (R : A → A → Prop) (l : list A) (n : nat) (x y : A) :
  StronglySorted R l → x ∈ take n l → y ∈ drop n l → R x y.
Proof.
  intros Hs [i Hi]%list_elem_of_lookup [j Hj]%list_elem_of_lookup.
  apply lookup_take_Some in Hi as [Hi Hlt]. rewrite lookup_drop in Hj.
  eapply (StronglySorted_lookup_lt R l i (n + j)); [done | lia | done..].
Qed.

Lemma whereTypeEquals_add ty p s :
  promptKeysOk s →
  whereTypeEquals ty (prompts (add p s))
  ≡ₚ (if decide (prompt_type p = ty) then [((promptSeq s + 1)%N, p)] else [])
     ++ whereTypeEquals ty (prompts s).
Proof.
  intros Hok. pose proof (fresh_key s Hok) as Hfresh.
  destruct (prompts_add p s) as (Hp & _).
  apply NoDup_Permutation.
  - apply NoDup_keys, NoDup_whereTypeEquals.
  - apply NoDup_app. split_and!.
    + destruct (decide _); [apply NoDup_singleton | apply NoDup_nil_2].
    + intros [k q] Hin Hin'. destruct (decide _); [|by apply elem_of_nil in Hin].
      apply list_elem_of_singleton in Hin as [= -> ->].
      apply elem_of_whereTypeEquals in Hin' as [Hk _]. congruence.
    + apply NoDup_keys, NoDup_whereTypeEquals.
  - intros [k q]. rewrite elem_of_app, !elem_of_whereTypeEquals, Hp. split.
    + intros [Hk Hty]. destruct (decide (k = (promptSeq s + 1)%N)) as [->|Hne].
      * rewrite lookup_insert_eq in Hk. injection Hk as ->.
        left. rewrite decide_True by done. apply list_elem_of_here.
      * rewrite lookup_insert_ne in Hk by done. by right.
    + intros [Hin|[Hk Hty]].
      * destruct (decide _) as [Hty|]; [|by apply elem_of_nil in Hin].
        apply list_elem_of_singleton in Hin as [= -> ->].
        by rewrite lookup_insert_eq.
      * split; [|done]. rewrite lookup_insert_ne; [done|]. congruence.
Qed.
End PromptRows.

Section RecentPrompts.
Import PromptTable PromptHistory.
Variable trim : string → string.

(** X12.  The history of recent prompts is capped at 20.  When a message
    with a non-blank text is sent, its trimmed text is added as a recent
    prompt and, when that makes more than 20, the oldest recent prompts are
    dropped until 20 remain: afterwards the store holds one recent prompt
    more than before, or 20 if that would be more; no saved prompt is added,
    removed or changed; and every recent prompt that was dropped is at most
    as new as every recent prompt that was kept.  (The key generator of
    [prompts] is at or above the keys in use.) *)
Theorem recent_prompts_capped (text : string) (now : Z) (s : Store) :
  promptKeysOk s → Js.truthy (trim text) = true →
  let s1 := add {| prompt_text := trim text; prompt_type := recent;
                   prompt_timestamp := now |} s in
  let s' := saveToHistory trim text now s in
  length (recentPrompts s') = Nat.min (S (length (recentPrompts s))) 20
  ∧ (∀ k p, prompt_type p = saved → prompts s' !! k = Some p ↔ prompts s !! k = Some p)
  ∧ (∀ k p k' p',
       prompts s' !! k = Some p → prompt_type p = recent →
       prompts s1 !! k' = Some p' → prompt_type p' = recent → prompts s' !! k' = None →
       prompt_timestamp p' ≤ prompt_timestamp p).
Proof.
  intros Hok Htext s1 s'. unfold s', saveToHistory. rewrite Htext. fold s1.
  set (p0 := {| prompt_text := trim text; prompt_type := recent; prompt_timestamp := now |}) in *.
  pose proof (fresh_key s Hok) as Hfresh.
  destruct (prompts_add p0 s) as (Hp1 & _). fold s1 in Hp1.
  pose proof (whereTypeEquals_add recent p0 s Hok) as Hperm. fold s1 in Hperm.
  rewrite decide_True in Hperm by done.
  assert (Hcount : length (whereTypeEquals recent (prompts s1)) = S (length (recentPrompts s))).
  { by rewrite Hperm. }
  assert (Hsaved1 : ∀ k p, prompt_type p = saved →
                      prompts s1 !! k = Some p ↔ prompts s !! k = Some p).
  { intros k p Hty. rewrite Hp1. destruct (decide (k = (promptSeq s + 1)%N)) as [->|Hne].
    - rewrite lookup_insert_eq, Hfresh. split; [|done]. intros [= <-]. done.
    - by rewrite lookup_insert_ne. }
  cbv zeta. case_bool_decide as Hmany.
  - (* more than 20: the oldest go *)
    set (R1 := whereTypeEquals recent (prompts s1)) in *.
    set (n := (length R1 - 20)%nat).
    set (oldest := sortByTimestamp R1).
    assert (Hsorted : StronglySorted
                        (λ a b : N * Prompt, prompt_timestamp a.2 - prompt_timestamp b.2 ≤ 0)
                        oldest).
    { apply sort_sorted; intros; lia. }
    assert (Hold : oldest ≡ₚ R1) by apply sort_Permutation.
    assert (Hnd : NoDup oldest.*1).
    { rewrite Hold. apply NoDup_whereTypeEquals. }
    assert (Hsplit : oldest = take n oldest ++ drop n oldest) by (by rewrite take_drop).
    set (s2 := bulkDelete (take n oldest).*1 s1).
    assert (Hl2 : ∀ k, prompts s2 !! k
                       = if decide (k ∈ (take n oldest).*1) then None else prompts s1 !! k).
    { intros k. apply lookup_foldl_delete. }
    assert (Hkept : ∀ k p, (k, p) ∈ drop n oldest ↔ prompts s2 !! k = Some p ∧ prompt_type p = recent).
    { intros k p. rewrite Hl2. split.
      - intros Hin. assert (Hin1 : (k, p) ∈ R1).
        { rewrite <- Hold, Hsplit. apply elem_of_app. by right. }
        apply elem_of_whereTypeEquals in Hin1 as [Hk Hty].
        rewrite decide_False; [done|].
        intros ([k' p'] & Heq & Hin')%list_elem_of_fmap. simpl in Heq. subst k'.
        rewrite Hsplit in Hnd. rewrite fmap_app in Hnd.
        apply NoDup_app in Hnd as (_ & Hdisj & _). apply (Hdisj k).
        + apply list_elem_of_fmap. by exists (k, p').
        + apply list_elem_of_fmap. by exists (k, p).
      - intros [Hk Hty]. destruct (decide (k ∈ (take n oldest).*1)) as [|Hn]; [done|].
        assert (Hin1 : (k, p) ∈ oldest).
        { rewrite Hold. by apply elem_of_whereTypeEquals. }
        rewrite Hsplit in Hin1. apply elem_of_app in Hin1 as [Hin1|?]; [|done].
        destruct Hn. apply list_elem_of_fmap. by exists (k, p). }
    split; [|split].
    + assert (recentPrompts s2 ≡ₚ drop n oldest) as ->.
      { apply NoDup_Permutation.
        - apply NoDup_keys, NoDup_whereTypeEquals.
        - apply NoDup_keys. rewrite Hsplit, fmap_app in Hnd.
          by apply NoDup_app in Hnd as (_ & _ & ?).
        - intros [k p]. unfold recentPrompts. by rewrite elem_of_whereTypeEquals, Hkept. }
      rewrite length_drop. unfold oldest, sortByTimestamp.
      rewrite (Permutation_length (sort_Permutation _ R1)). unfold n. lia.
    + intros k p Hty. rewrite <- Hsaved1 by done. rewrite Hl2.
      destruct (decide (k ∈ (take n oldest).*1)) as [Hin|]; [|done].
      split; [done|]. intros Hk. exfalso.
      apply list_elem_of_fmap in Hin as ([k' p'] & Heq & Hin). simpl in Heq. subst k'.
      assert (Hin1 : (k, p') ∈ R1).
      { rewrite <- Hold, Hsplit. apply elem_of_app. by left. }
      apply elem_of_whereTypeEquals in Hin1 as [Hk' Hty']. congruence.
    + intros k p k' p' Hk Hty Hk' Hty' Hgone.
      assert (Hin : (k, p) ∈ drop n oldest) by (by apply Hkept).
      assert (Hin' : (k', p') ∈ take n oldest).
      { assert (Hin1 : (k', p') ∈ oldest).
        { rewrite Hold. by apply elem_of_whereTypeEquals. }
        rewrite Hsplit in Hin1. apply elem_of_app in Hin1 as [?|Hd]; [done|].
        apply Hkept in Hd as [Hd _]. congruence. }
      pose proof (StronglySorted_take_drop _ _ n _ _ Hsorted Hin' Hin) as Hle.
      simpl in Hle. lia.
  - (* at most 20: nothing goes *)
    split; [|split].
    + unfold recentPrompts at 1. rewrite Hcount. lia.
    + exact Hsaved1.
    + intros k p k' p' _ _ Hk' _ Hgone. congruence.
Qed.
End RecentPrompts.

Lemma promptKeysOk_fullHistory : promptKeysOk Examples.fullHistory.
Proof.
  unfold Examples.fullHistory. apply promptKeysOk_add.
  generalize (seq 1 20). intros l.
  assert (H : ∀ s, promptKeysOk s →
                promptKeysOk (foldl (λ acc i, PromptTable.add
                                 {| prompt_text := "prompt " +:+ pretty i;
                                    prompt_type := recent;
                                    prompt_timestamp := Z.of_nat i |} acc) s l)).
  { induction l as [|i l IH]; intros s Hs; [done|]. cbn [foldl]. by apply IH, promptKeysOk_add. }
  apply H. intros k [v Hk]. simpl in Hk. by rewrite lookup_empty in Hk.
Qed.

Lemma recent_prompts_capped_witness :
  length (recentPrompts
            (PromptHistory.saveToHistory Examples.trimSpaces " a bear " 22
               Examples.fullHistory)) = Nat.min 21 20.
Proof.
  destruct (recent_prompts_capped Examples.trimSpaces " a bear " 22 Examples.fullHistory
              promptKeysOk_fullHistory eq_refl) as (Hlen & _).
  rewrite Hlen. vm_compute. reflexivity.
Defined.

Section SavedPrompts.
Import PromptTable PromptHistory.

Lemma elem_of_savedWith text s k p :
  (k, p) ∈ savedWith text s ↔
  prompts s !! k = Some p ∧ prompt_type p = saved ∧ prompt_text p = text.
Proof.
  unfold savedWith. rewrite list_elem_of_filter, elem_of_whereTypeEquals. simpl. tauto.
Qed.

Lemma NoDup_savedWith text s : NoDup (savedWith text s).*1.
Proof.
  eapply sublist_NoDup; [apply (NoDup_whereTypeEquals saved (prompts s))|].
  apply fmap_sublist, sublist_filter.
Qed.

Lemma firstWithText_savedWith text s :
  firstWithText text (whereTypeEquals saved (prompts s)) = head (savedWith text s).
Proof. done. Qed.

Lemma head_elem_of {A} (l : list A) (x : A) : head l = Some x → x ∈ l.
Proof. destruct l; [done|]. intros [= ->]. apply list_elem_of_here. Qed.

Lemma head_None_nil {A} (l : list A) : head l = None → l = [].
Proof. by destruct l. Qed.

Lemma savedWith_add text p s :
  promptKeysOk s →
  savedWith text (add p s)
  ≡ₚ (if decide (prompt_type p = saved ∧ prompt_text p = text)
      then [((promptSeq s + 1)%N, p)] else []) ++ savedWith text s.
Proof.
  intros Hok. pose proof (fresh_key s Hok) as Hfresh.
  destruct (prompts_add p s) as (Hp & _).
  apply NoDup_Permutation.
  - apply NoDup_keys, NoDup_savedWith.
  - apply NoDup_app. split_and!.
    + destruct (decide _); [apply NoDup_singleton | apply NoDup_nil_2].
    + intros [k q] Hin Hin'. destruct (decide _); [|by apply elem_of_nil in Hin].
      apply list_elem_of_singleton in Hin as [= -> ->].
      apply elem_of_savedWith in Hin' as [Hk _]. congruence.
    + apply NoDup_keys, NoDup_savedWith.
  - intros [k q]. rewrite elem_of_app, !elem_of_savedWith, Hp. split.
    + intros (Hk & Hty & Htx). destruct (decide (k = (promptSeq s + 1)%N)) as [->|Hne].
      * rewrite lookup_insert_eq in Hk. injection Hk as ->.
        left. rewrite decide_True by done. apply list_elem_of_here.
      * rewrite lookup_insert_ne in Hk by done. by right.
    + intros [Hin|(Hk & Hty & Htx)].
      * destruct (decide _) as [[Hty Htx]|]; [|by apply elem_of_nil in Hin].
        apply list_elem_of_singleton in Hin as [= -> ->].
        by rewrite lookup_insert_eq.
      * split; [|done]. rewrite lookup_insert_ne; [done|]. congruence.
Qed.

Lemma savedWith_delete text s k q :
  (k, q) ∈ savedWith text s →
  (k, q) :: savedWith text (bulkDelete [k] s) ≡ₚ savedWith text s.
Proof.
  intros Hin. pose proof Hin as (Hk & Hty & Htx)%elem_of_savedWith.
  assert (Hl : ∀ j, prompts (bulkDelete [k] s) !! j
                    = if decide (j = k) then None else prompts s !! j).
  { intros j. simpl. destruct (decide (j = k)) as [->|Hne].
    - apply lookup_delete_eq.
    - by apply lookup_delete_ne. }
  apply NoDup_Permutation.
  - apply NoDup_cons. split; [|apply NoDup_keys, NoDup_savedWith].
    intros (Hk' & _)%elem_of_savedWith. rewrite Hl, decide_True in Hk' by done. done.
  - apply NoDup_keys, NoDup_savedWith.
  - intros [j p]. rewrite elem_of_cons, !elem_of_savedWith, Hl. split.
    + intros [[= -> ->]|(Hj & ? & ?)]; [done|].
      destruct (decide (j = k)); [done|]. done.
    + intros (Hj & ? & ?). destruct (decide (j = k)) as [->|Hne].
      * left. congruence.
      * by right.
Qed.

Lemma delete_added p s :
  promptKeysOk s → prompts (bulkDelete [(promptSeq s + 1)%N] (add p s)) = prompts s.
Proof.
  intros Hok. simpl. apply delete_insert_id. by apply fresh_key.
Qed.

(** X13.  The star of the prompt history toggles.  [handleToggleSaved]
    on a text that no saved prompt carries adds one saved prompt with that
    text, and a second call takes it out again, so that the table is as it
    was; on a text that saved prompts carry it removes one of them (when an
    import has duplicated the saved prompt, the text stays saved).  No other
    prompt, recent or saved, is touched. *)
Theorem toggle_saved (prompt : Prompt) (now now' : Z) (s : Store) :
  promptKeysOk s →
  let s' := handleToggleSaved prompt now s in
  (savedWith (prompt_text prompt) s = [] →
     length (savedWith (prompt_text prompt) s') = 1%nat
     ∧ prompts (handleToggleSaved prompt now' s') = prompts s)
  ∧ (savedWith (prompt_text prompt) s ≠ [] →
       S (length (savedWith (prompt_text prompt) s'))
       = length (savedWith (prompt_text prompt) s))
  ∧ (∀ k p, prompt_text p ≠ prompt_text prompt ∨ prompt_type p = recent →
            prompts s' !! k = Some p ↔ prompts s !! k = Some p).
Proof.
  intros Hok s'. unfold s', handleToggleSaved. rewrite firstWithText_savedWith.
  set (text := prompt_text prompt).
  set (p0 := {| prompt_text := text; prompt_type := saved; prompt_timestamp := now |}).
  destruct (head (savedWith text s)) as [[k q]|] eqn:Hh.
  - apply head_elem_of in Hh. pose proof (savedWith_delete text s k q Hh) as Hperm.
    pose proof Hh as (Hk & Hty & Htx)%elem_of_savedWith.
    split; [|split].
    + intros Hnil. rewrite Hnil in Hh. by apply elem_of_nil in Hh.
    + intros _. by rewrite <- Hperm.
    + intros j p Hp. simpl. destruct (decide (j = k)) as [->|Hne].
      * rewrite lookup_delete_eq. split; [done|]. intros Hj.
        assert (p = q) as -> by congruence. destruct Hp; congruence.
      * by rewrite lookup_delete_ne.
  - apply head_None_nil in Hh.
    pose proof (savedWith_add text p0 s Hok) as Hperm.
    rewrite decide_True, Hh in Hperm by done. simpl in Hperm.
    split; [|split].
    + intros _. split; [by rewrite Hperm|].
      unfold handleToggleSaved. rewrite firstWithText_savedWith. fold text.
      destruct (head (savedWith text (add p0 s))) as [[k q]|] eqn:Hh'.
      * apply head_elem_of in Hh'. rewrite Hperm in Hh'.
        apply list_elem_of_singleton in Hh' as [= -> ->]. by apply delete_added.
      * apply head_None_nil in Hh'. rewrite Hh' in Hperm.
        by apply Permutation_nil_cons in Hperm.
    + intros Hne. done.
    + intros j p Hp. destruct (prompts_add p0 s) as (-> & _).
      destruct (decide (j = (promptSeq s + 1)%N)) as [->|Hne].
      * rewrite lookup_insert_eq, (fresh_key s Hok). split; [|done].
        intros [= <-]. destruct Hp; done.
      * by rewrite lookup_insert_ne.
Qed.

Lemma toggle_saved_witness :
  prompts (handleToggleSaved
             {| prompt_text := "a bear"; prompt_type := recent; prompt_timestamp := 5 |} 31
             (handleToggleSaved
                {| prompt_text := "a bear"; prompt_type := recent; prompt_timestamp := 5 |} 30
                Examples.fullHistory))
  = prompts Examples.fullHistory.
Proof.
  destruct (toggle_saved
              {| prompt_text := "a bear"; prompt_type := recent; prompt_timestamp := 5 |}
              30 31 Examples.fullHistory promptKeysOk_fullHistory) as (Hnew & _).
  apply Hnew. vm_compute. reflexivity.
Defined.

Section Trimmed.
Variable trim : string → string.

Lemma handleSavePrompt_facts (text : string) (now now' : Z) (s : Store) :
  promptKeysOk s →
  let s' := handleSavePrompt trim text now s in
  handleSavePrompt trim text now' s' = s'
  ∧ savedWith (trim text) s' ≠ []
  ∧ (savedWith (trim text) s ≠ [] → s' = s).
Proof.
  intros Hok s'.
  set (p0 := {| prompt_text := trim text; prompt_type := saved; prompt_timestamp := now |}).
  assert (Hcases : (savedWith (trim text) s ≠ [] ∧ s' = s)
                   ∨ (savedWith (trim text) s = [] ∧ s' = add p0 s)).
  { unfold s', handleSavePrompt. rewrite firstWithText_savedWith.
    destruct (head (savedWith (trim text) s)) as [r|] eqn:Hh.
    - left. split; [|done]. intros Hnil. by rewrite Hnil in Hh.
    - right. split; [by apply head_None_nil | done]. }
  assert (Hne : savedWith (trim text) s' ≠ []).
  { destruct Hcases as [[Hne ->]|[Hnil ->]]; [done|].
    pose proof (savedWith_add (trim text) p0 s Hok) as Hperm.
    rewrite decide_True, Hnil in Hperm by done. simpl in Hperm.
    intros Hnil'. rewrite Hnil' in Hperm. by apply Permutation_nil_cons in Hperm. }
  split; [|split; [done|]].
  - unfold handleSavePrompt at 1. rewrite firstWithText_savedWith.
    destruct (head (savedWith (trim text) s')) eqn:Hh'; [done|].
    by apply head_None_nil in Hh'.
  - intros Hs. destruct Hcases as [[_ ?]|[? _]]; done.
Qed.

(** X14.  Saving a prompt is idempotent.  After [handleSavePrompt] a saved
    prompt carries the trimmed text, and a second call with the same text
    adds nothing: the store is as the first call left it; a call on a text
    that is already saved changes nothing at all.  (The key generator of
    [prompts] is at or above the keys in use.) *)
Theorem save_prompt_once (text : string) (now now' : Z) (s : Store) :
  promptKeysOk s →
  let s' := handleSavePrompt trim text now s in
  handleSavePrompt trim text now' s' = s'
  ∧ savedWith (trim text) s' ≠ []
  ∧ (savedWith (trim text) s ≠ [] → s' = s).
Proof. apply handleSavePrompt_facts. Qed.

(** X15.  The bookmark button under a message.  On a message whose text
    no saved prompt carries: when the text has no white space at its ends,
    the button toggles (the first click saves the text, a second click
    removes it and the prompts are as they were); when the text has white
    space at its ends, the first click saves the trimmed text, the button
    still finds no saved prompt with the message's own text, and a second
    click changes nothing, so the prompt cannot be removed from there. *)
Theorem bookmark_button (msgText : string) (now now' : Z) (s : Store) :
  promptKeysOk s → Js.truthy msgText = true → savedWith msgText s = [] →
  let s' := handleBookmarkPrompt trim msgText now s in
  (trim msgText = msgText →
     savedWith msgText s' ≠ []
     ∧ prompts (handleBookmarkPrompt trim msgText now' s') = prompts s)
  ∧ (trim msgText ≠ msgText →
       savedWith (trim msgText) s' ≠ []
       ∧ savedWith msgText s' = []
       ∧ handleBookmarkPrompt trim msgText now' s' = s').
Proof.
  intros Hok Htruthy Hnone s'.
  destruct (handleSavePrompt_facts msgText now now' s Hok) as (Honce & Hsaved & _).
  cbv zeta in *.
  assert (Hs' : s' = handleSavePrompt trim msgText now s).
  { unfold s', handleBookmarkPrompt. by rewrite Htruthy, firstWithText_savedWith, Hnone. }
  split.
  - intros Htrim. rewrite Htrim in *. split; [by rewrite Hs'|].
    assert (Hadd : s' = add {| prompt_text := msgText; prompt_type := saved;
                               prompt_timestamp := now |} s).
    { rewrite Hs'. unfold handleSavePrompt.
      by rewrite Htrim, firstWithText_savedWith, Hnone. }
    set (p0 := {| prompt_text := msgText |}) in Hadd.
    pose proof (savedWith_add msgText p0 s Hok) as Hperm.
    rewrite decide_True, Hnone, <- Hadd in Hperm by done. simpl in Hperm.
    unfold handleBookmarkPrompt. rewrite Htruthy, firstWithText_savedWith.
    destruct (head (savedWith msgText s')) as [[k q]|] eqn:Hh.
    + apply head_elem_of in Hh. rewrite Hperm in Hh.
      apply list_elem_of_singleton in Hh as [= -> ->]. rewrite Hadd. by apply delete_added.
    + apply head_None_nil in Hh. rewrite Hh in Hperm.
      by apply Permutation_nil_cons in Hperm.
  - intros Htrim. split; [by rewrite Hs'|].
    assert (Hstill : savedWith msgText s' = []).
    { rewrite Hs'. unfold handleSavePrompt. rewrite firstWithText_savedWith.
      destruct (head (savedWith (trim msgText) s)); [done|].
      set (p0 := {| prompt_text := trim msgText |}).
      pose proof (savedWith_add msgText p0 s Hok) as Hperm.
      rewrite decide_False, Hnone in Hperm by (simpl; intros [_ ?]; done).
      simpl in Hperm. by apply Permutation_nil_r in Hperm. }
    split; [done|].
    unfold handleBookmarkPrompt. rewrite Htruthy, firstWithText_savedWith, Hstill. simpl.
    by rewrite Hs'.
Qed.
End Trimmed.

Lemma save_prompt_once_witness :
  handleSavePrompt Examples.trimSpaces " a fox " 40 Examples.fullHistory
  = Examples.fullHistory.
Proof.
  destruct (save_prompt_once Examples.trimSpaces " a fox " 40 41 Examples.fullHistory
              promptKeysOk_fullHistory) as (_ & _ & Hsame).
  apply Hsame. vm_compute. discriminate.
Defined.

Lemma bookmark_button_witness :
  savedWith "a bear"
    (handleBookmarkPrompt Examples.trimSpaces " a bear " 40 Examples.fullHistory) ≠ []
  ∧ savedWith " a bear "
      (handleBookmarkPrompt Examples.trimSpaces " a bear " 40 Examples.fullHistory) = []
  ∧ handleBookmarkPrompt Examples.trimSpaces " a bear " 41
      (handleBookmarkPrompt Examples.trimSpaces " a bear " 40 Examples.fullHistory)
    = handleBookmarkPrompt Examples.trimSpaces " a bear " 40 Examples.fullHistory.
Proof.
  destruct (bookmark_button Examples.trimSpaces " a bear " 40 41 Examples.fullHistory
              promptKeysOk_fullHistory) as (_ & Hpadded).
  - reflexivity.
  - vm_compute. reflexivity.
  - apply Hpadded. vm_compute. discriminate.
Defined.
End SavedPrompts.

Lemma import_keeps_existing_witness :
  prompts (importExportService.importData Scenario.sameBlob Scenario.noBase64
             Scenario.backup Examples.fullHistory).2 !! 21%N
  = Some {| prompt_text := "a fox"; prompt_type := saved; prompt_timestamp := 21 |}.
Proof.
  destruct (import_keeps_existing Scenario.sameBlob Scenario.noBase64 Scenario.backup
              Examples.fullHistory) as (_ & _ & _ & Hp).
  apply Hp; [apply promptKeysOk_fullHistory | vm_compute; reflexivity].
Defined.

Lemma export_then_import_witness :
  ∃ s',
    importExportService.importData Scenario.sameBlob Scenario.noBase64
      (Backup.readBack
         (importExportService.exportData Examples.withKey 1700000000009 Scenario.single))
      emptyStore
    = (Resolved (Some (importExportService.sanitize Examples.withKey)), s')
    ∧ chats s' = chats Scenario.single ∧ messages s' = messages Scenario.single
    ∧ images s' = Backup.rebuilt Scenario.sameBlob <$> images Scenario.single
    ∧ size (prompts s') = size (prompts Scenario.single).
Proof.
  apply export_then_import. intros x y a b Hx Hy _.
  unfold Scenario.single in *. simpl in *.
  apply lookup_singleton_Some in Hx as [<- _]. by apply lookup_singleton_Some in Hy as [<- _].
Defined.

Section FileTypes.
Import geminiService.
Variable toLowerCase : string → string.

Lemma lookupMime_supported ext v :
  lookupMime ext = Some v → unsupported v = false.
Proof.
  unfold lookupMime.
  destruct (list_find _ MIME_MAP) as [[i e]|] eqn:E.
  - intros [= <-]. apply list_find_Some in E as (Hi & _ & _).
    apply list_elem_of_lookup_2 in Hi.
    assert (Hall : Forall (λ e : string * string, unsupported (Text e.2) = false) MIME_MAP).
    { apply (bool_decide_unpack _). vm_compute. exact I. }
    rewrite Forall_forall in Hall. by apply Hall.
  - case_bool_decide; [|done]. by intros [= <-].
Qed.

Lemma specific_type (type : string) (b : bool) :
  Js.truthy type && negb (bool_decide (type = "application/octet-stream")) = b →
  if b then type ≠ "" ∧ type ≠ "application/octet-stream"
  else type = "" ∨ type = "application/octet-stream".
Proof. intros <-. unfold Js.truthy. repeat case_bool_decide; simpl; tauto. Qed.

(** X16.  Which files are refused.  The send and edit handlers refuse a
    file as unsupported exactly when the browser gave it no type, or the
    type [application/octet-stream], and the lower-cased extension of its
    name (none for a blob or a name without a dot) finds nothing in
    [MIME_MAP]; the read of [MIME_MAP] also finds the members every object
    inherits, such as [constructor].  A file with any other browser type is
    never refused. *)
Theorem unsupported_files (file : FileLike) :
  unsupported (getEffectiveMimeType toLowerCase file) = true ↔
  (fileType file = "" ∨ fileType file = "application/octet-stream")
  ∧ lookupMime (extensionOf toLowerCase file) = None.
Proof.
  unfold getEffectiveMimeType. cbv zeta.
  set (type := fileType file). set (ext := extensionOf toLowerCase file).
  destruct (bool_decide (ext = "ts") && _) eqn:Hts.
  { apply andb_true_iff in Hts as [->%bool_decide_eq_true _]. simpl.
    split; [done|]. intros [_ Hl]. vm_compute in Hl. discriminate. }
  destruct (bool_decide (ext = "js") && _) eqn:Hjs.
  { apply andb_true_iff in Hjs as [_ Hty%bool_decide_eq_true]. simpl.
    split; [done|]. intros [[Ht|Ht] _]; rewrite Hty in Ht; discriminate. }
  destruct (Js.truthy type && negb _) eqn:Hspecific; apply specific_type in Hspecific.
  { destruct Hspecific as [Hne Hno]. simpl. unfold Js.truthy. split.
    - repeat case_bool_decide; simpl; done.
    - intros [[?|?] _]; done. }
  assert (Hraw : unsupported (Text type) = true).
  { unfold unsupported, Js.truthy. destruct Hspecific as [->| ->]; by vm_compute. }
  destruct (Js.truthy ext) eqn:Hext.
  - destruct (lookupMime ext) as [v|] eqn:Hl.
    + rewrite (lookupMime_supported ext v Hl). split; [done|]. by intros [_ ?].
    + by rewrite Hraw.
  - rewrite Hraw. split; [|done]. intros _. split; [done|].
    unfold Js.truthy in Hext. apply negb_false_iff, bool_decide_eq_true in Hext.
    rewrite Hext. by vm_compute.
Qed.
End FileTypes.

Section RestoredSettings.
Import importExportService SettingsModal.
Variable createThumbnail : Blob → Blob.
Variable atob : string → option (list Byte.byte).

Lemma importZip_config zip s cfg s' :
  importZip createThumbnail zip s = (Resolved cfg, s') →
  ∃ data, dataFile zip = Some data ∧ cfg = dataConfig data.
Proof.
  unfold importZip. destruct (dataFile zip) as [data|]; [|discriminate].
  intros H. exists data. split; [done|].
  destruct (mergeMetadata data s); [|discriminate].
  destruct (dataImages data).
  - destruct (importBatches _ _ _ _) as [[[]|] ?]; congruence.
  - congruence.
Qed.

(** X17.  Restoring a backup never loses the API key.  Whatever the file,
    when [performImport] hands a configuration to [onSave] and the browser
    had a key, the configuration saved has a key.  For an archive written by
    [exportData] the configuration saved is the exported one with the key of
    this browser: every other setting comes from the backup. *)
Theorem import_keeps_api_key (localConfig : AppConfig) (s : Store) :
  (∀ file cfg n s',
     performImport createThumbnail atob file localConfig s = (Some cfg, n, s') →
     apiKey localConfig ≠ "" → apiKey cfg ≠ "")
  ∧ (∀ c now s0 cfg n s',
       performImport createThumbnail atob (Backup.readBack (exportData c now s0))
         localConfig s = (Some cfg, n, s') →
       cfg = withApiKey (apiKey localConfig) c).
Proof.
  split.
  - intros file cfg n s'. unfold performImport.
    destruct (importData createThumbnail atob file s) as [[newConfig|] s1]; [|discriminate].
    intros [= <- _ _] Hkey. unfold finalConfig, Js.truthy.
    repeat case_bool_decide; simpl; try done.
  - intros c now s0 cfg n s'. unfold performImport. cbn [importData Backup.readBack].
    destruct (importZip _ _ s) as [[newConfig|] s1] eqn:E; [|discriminate].
    apply importZip_config in E as (data & [= <-] & ->). cbn [dataConfig].
    intros [= <- _ _]. unfold finalConfig, Js.truthy. simpl.
    case_bool_decide as Hk; simpl; [|done].
    unfold withApiKey, sanitize. simpl. by rewrite Hk.
Qed.
End RestoredSettings.

Lemma import_keeps_api_key_witness :
  (SettingsModal.performImport Scenario.sameBlob Scenario.noBase64
     (Backup.readBack
        (importExportService.exportData (withApiKey "AIza-other" Examples.DEFAULT_CONFIG)
           1700000000009 Scenario.single))
     Examples.withKey emptyStore).1.1
  = Some Examples.withKey.
Proof.
  destruct (import_keeps_api_key Scenario.sameBlob Scenario.noBase64 Examples.withKey
              emptyStore) as [_ Hown].
  destruct (SettingsModal.performImport _ _ _ _ _) as [[[cfg|] n] s'] eqn:E.
  - simpl. f_equal. by rewrite (Hown _ _ _ _ _ _ E).
  - vm_compute in E. discriminate.
Defined.

Section Regeneration.
Import cleanupService AppChat.

Lemma elem_of_whereChatIdEquals c t k m :
  (k, m) ∈ whereChatIdEquals c t ↔ t !! k = Some m ∧ chatId m = c.
Proof.
  unfold whereChatIdEquals. rewrite list_elem_of_filter, elem_of_toArray. simpl. tauto.
Qed.

(** X18.  Regenerate and retry.  On a model message of the active chat
    that has an earlier user message in that chat, [handleRegenerate]
    removes the message and every message of the chat that is not older,
    and nothing else: older messages of the chat and the messages of other
    chats stay as they are; [handleRetry] removes the one message.  Without
    an earlier user message of the chat both leave the store untouched.
    Both keep the ownership invariant of the images. *)
Theorem regenerate_and_retry (active msgId : string) (target : Message) (s : Store) :
  messages s !! msgId = Some target → Js.truthy active = true →
  (earlierUserMessages active target s = [] →
     handleRegenerate (Some active) msgId s = s ∧ handleRetry (Some active) msgId s = s)
  ∧ (earlierUserMessages active target s ≠ [] →
       (role target = model →
          ∀ j m, messages (handleRegenerate (Some active) msgId s) !! j = Some m ↔
                 messages s !! j = Some m
                 ∧ ¬ (chatId m = active ∧ timestamp target ≤ timestamp m))
       ∧ (∀ j, messages (handleRetry (Some active) msgId s) !! j
               = if decide (j = msgId) then None else messages s !! j))
  ∧ (imageInvariant s →
       imageInvariant (handleRegenerate (Some active) msgId s)
       ∧ imageInvariant (handleRetry (Some active) msgId s)).
Proof.
  intros Hk Hact. unfold handleRegenerate, handleRetry. rewrite Hk, Hact.
  split; [|split].
  - intros ->. by destruct (role target).
  - intros Hne. destruct (earlierUserMessages active target s) as [|r rs]; [done|].
    split.
    + intros ->. intros j m. rewrite deleteMessagesWithCleanup_messages.
      destruct (decide (j ∈ _)) as [Hin|Hn].
      * split; [done|]. intros [Hj Hnot]. destruct Hnot.
        apply list_elem_of_fmap in Hin as ([j' m'] & -> & Hin). simpl in Hj.
        apply list_elem_of_filter in Hin as [Hts Hin]. simpl in Hts.
        apply elem_of_whereChatIdEquals in Hin as [Hj' Hc].
        assert (m' = m) as -> by congruence. done.
      * split; [|tauto]. intros Hj. split; [done|]. intros [Hc Hts]. apply Hn.
        apply list_elem_of_fmap. exists (j, m). split; [done|].
        apply list_elem_of_filter. split; [done|]. by apply elem_of_whereChatIdEquals.
    + intros j. rewrite deleteMessagesWithCleanup_messages.
      destruct (decide (j = msgId)) as [->|Hne'].
      * rewrite decide_True; [done | apply list_elem_of_here].
      * rewrite decide_False; [done|]. by intros ->%list_elem_of_singleton.
  - intros Hinv. destruct (earlierUserMessages active target s) as [|r rs].
    + by destruct (role target).
    + split; [|by apply owners_deleteMessagesWithCleanup].
      destruct (role target); [done|]. by apply owners_deleteMessagesWithCleanup.
Qed.

Lemma regenerate_and_retry_witness :
  messages (handleRetry (Some "A") "R1" Examples.dialogue) !! "R1" = None
  ∧ imageInvariant (handleRegenerate (Some "A") "R1" Examples.dialogue).
Proof.
  destruct (regenerate_and_retry "A" "R1" (Examples.reply "A" ["Y"] 2) Examples.dialogue)
    as (_ & Hsome & Hinv).
  - vm_compute. reflexivity.
  - reflexivity.
  - split.
    + destruct Hsome as [_ Hretry]; [vm_compute; discriminate|].
      rewrite Hretry. by rewrite decide_True.
    + apply Hinv. apply ownersOk_spec. vm_compute. reflexivity.
Defined.
End Regeneration.

Section ChatSelection.
Import cleanupService AppChat.

Lemma deleteChatWithCleanup_tables c s :
  chats (deleteChatWithCleanup c s) = delete c (chats s)
  ∧ (∀ j, messages (deleteChatWithCleanup c s) !! j
          = match messages s !! j with
            | Some m => if decide (chatId m = c) then None else Some m
            | None => None
            end)
  ∧ prompts (deleteChatWithCleanup c s) = prompts s
  ∧ promptSeq (deleteChatWithCleanup c s) = promptSeq s.
Proof.
  unfold deleteChatWithCleanup.
  set (msgs := whereChatIdEquals c (messages s)).
  set (s2 := setChats (delete c) (setMessages (Table.bulkDelete msgs.*1) s)).
  assert (H2 : chats s2 = delete c (chats s)
               ∧ (∀ j, messages s2 !! j
                       = match messages s !! j with
                         | Some m => if decide (chatId m = c) then None else Some m
                         | None => None
                         end)
               ∧ prompts s2 = prompts s ∧ promptSeq s2 = promptSeq s).
  { split; [done|]. split; [|done]. intros j. simpl. rewrite lookup_bulkDelete.
    destruct (decide (j ∈ msgs.*1)) as [Hin|Hn].
    - apply list_elem_of_fmap in Hin as ([j' m] & -> & Hin).
      apply elem_of_whereChatIdEquals in Hin as [Hj Hc]. simpl. rewrite Hj.
      by rewrite decide_True.
    - destruct (messages s !! j) as [m|] eqn:Ej; [|done].
      destruct (decide (chatId m = c)) as [Hc|]; [|done]. destruct Hn.
      apply list_elem_of_fmap. exists (j, m). split; [done|].
      by apply elem_of_whereChatIdEquals. }
  destruct (bool_decide _); [|done].
  destruct (deleteImagesIfOrphaned_rest (collectImageIds msgs) s2) as (-> & -> & -> & ->).
  done.
Qed.

(** X19.  [createNewChat] does not pile up empty projects.  A call while
    another one is under way does nothing.  Otherwise, when the call is not
    forced, the chat list is loaded and some stored chat has no message, no
    chat is created and nothing is written, and the chat shown is one
    without messages: the active chat stays when it has none; if not, the
    stored chat without messages whose id comes first becomes the active
    one. *)
Theorem new_chat_reuses_empty (force chatsLoaded narrow : bool) (id : string) (now : Z)
    (st : ViewState) (s : Store) :
  (isCreating st = true →
     createNewChat force chatsLoaded narrow id now st s = (st, s))
  ∧ (isCreating st = false → force = false → chatsLoaded = true →
     (∃ c v, chats s !! c = Some v ∧ messageCount c s = 0%nat) →
     let r := createNewChat force chatsLoaded narrow id now st s in
     r.2 = s ∧ currentView r.1 = ChatShown
     ∧ (∀ active, activeChatId st = Some active → active ≠ "" →
                  messageCount active s = 0%nat → activeChatId r.1 = Some active)
     ∧ ((∀ active, activeChatId st = Some active → active ≠ "" →
                   messageCount active s ≠ 0%nat) →
        ∃ a, activeChatId r.1 = Some a
             ∧ is_Some (chats s !! a) ∧ messageCount a s = 0%nat
             ∧ ∀ b, is_Some (chats s !! b) → messageCount b s = 0%nat →
                    KeyOrder.compareKeys a b ≤ 0)).
Proof.
  unfold createNewChat. split; [by intros ->|].
  intros -> -> -> (c & v & Hc & Hempty). cbn [negb andb]. cbv zeta.
  set (stays := match activeChatId st with
                | Some active => Js.truthy active && bool_decide (messageCount active s = 0%nat)
                | None => false
                end).
  assert (Hstays : stays = true ↔
            ∃ active, activeChatId st = Some active ∧ active ≠ ""
                      ∧ messageCount active s = 0%nat).
  { unfold stays, Js.truthy. destruct (activeChatId st) as [active|].
    - rewrite andb_true_iff, negb_true_iff, bool_decide_eq_false, bool_decide_eq_true.
      split; [intros [??]; by exists active | by intros (? & [= <-] & ? & ?)].
    - split; [done | by intros (? & ? & _)]. }
  destruct stays.
  - destruct (proj1 Hstays eq_refl) as (active & Ha & Hne & Hn).
    split_and!; [done..| |].
    + intros active' Ha' _ _. simpl. congruence.
    + intros Hbusy. by destruct (Hbusy active Ha Hne).
  - destruct (list_find _ (KeyOrder.byPrimaryKey (Table.toArray (chats s))))
      as [[i c']|] eqn:Hf.
    + apply first_by_key in Hf as (Hin & Hp & Hleast).
      destruct c' as [a w]. apply elem_of_toArray in Hin. simpl in *.
      split_and!; [done..| |].
      * intros active Ha Hne Hn.
        assert (false = true); [|done]. apply Hstays. by exists active.
      * intros _. exists a. split_and!; [done | by exists w | done |].
        intros b [w' Hb] Hn. apply (Hleast (b, w')); [by apply elem_of_toArray | done].
    + exfalso. eapply list_find_None in Hf. rewrite Forall_forall in Hf.
      apply (Hf (c, v)); [|done].
      rewrite byPrimaryKey_Permutation. by apply elem_of_toArray.
Qed.

Lemma new_chat_reuses_empty_witness :
  (createNewChat false true false "N" 1700000000007
     {| activeChatId := Some "A"; currentView := GalleryShown; isSidebarOpen := true;
        isCreating := false |} Examples.threeChats).2 = Examples.threeChats
  ∧ activeChatId
      (createNewChat false true false "N" 1700000000007
         {| activeChatId := Some "A"; currentView := GalleryShown; isSidebarOpen := true;
            isCreating := false |} Examples.threeChats).1 = Some "B".
Proof.
  destruct (new_chat_reuses_empty false true false "N" 1700000000007
              {| activeChatId := Some "A"; currentView := GalleryShown;
                 isSidebarOpen := true; isCreating := false |}
              Examples.threeChats) as [_ Hreuse].
  destruct Hreuse as (Hs & _ & _ & Hfirst); [reflexivity..| |].
  { exists "C", (Scenario.chat "New Project"). split; vm_compute; reflexivity. }
  split; [exact Hs|].
  destruct Hfirst as (a & Ha & _ & _ & _).
  { intros active [= <-] _. vm_compute. discriminate. }
  rewrite Ha. f_equal. vm_compute in Ha. by injection Ha as <-.
Defined.

(** X20.  A deleted chat is gone and is not left selected.  After
    [performDelete] of [handleDeleteChat] (the chat list loaded, the id of
    a chat created in replacement different from the deleted one) the chat
    is not in the store, no stored message belongs to it, the messages of
    the other chats are all there unchanged, and the active chat is not the
    deleted one. *)
Theorem deleted_chat_is_left (id : string) (chats_ : list (string * Chat))
    (narrow : bool) (newId : string) (now : Z) (st : ViewState) (s : Store) :
  newId ≠ id →
  let r := performDelete id (Some chats_) narrow newId now st s in
  activeChatId r.1 ≠ Some id
  ∧ chats r.2 !! id = None
  ∧ (∀ j m, messages r.2 !! j = Some m → chatId m ≠ id)
  ∧ (∀ j m, chatId m ≠ id → messages r.2 !! j = Some m ↔ messages s !! j = Some m).
Proof.
  intros Hnew r.
  destruct (deleteChatWithCleanup_tables id s) as (Hc & Hm & _).
  set (s1 := deleteChatWithCleanup id s) in *.
  assert (Hgone : chats s1 !! id = None) by (rewrite Hc; apply lookup_delete_eq).
  assert (Hmsgs : (∀ j m, messages s1 !! j = Some m → chatId m ≠ id)
                  ∧ (∀ j m, chatId m ≠ id →
                            messages s1 !! j = Some m ↔ messages s !! j = Some m)).
  { split.
    - intros j m. rewrite Hm. destruct (messages s !! j) as [m'|]; [|done].
      destruct (decide (chatId m' = id)); [done|]. by intros [= <-].
    - intros j m Hne. rewrite Hm. destruct (messages s !! j) as [m'|]; [|done].
      destruct (decide (chatId m' = id)) as [Heq|]; [|done].
      split; [done|]. intros [= ->]. done. }
  unfold r, performDelete. cbv zeta. fold s1.
  set (next := if bool_decide (activeChatId st = Some id) then _ else _).
  assert (Hnext : next ≠ Some id).
  { unfold next. case_bool_decide as Ha.
    - destruct (filter _ chats_) as [|c rest] eqn:Hf; [done|].
      assert (Hin : c ∈ filter (λ c : string * Chat, c.1 ≠ id) chats_).
      { rewrite Hf. apply list_elem_of_here. }
      apply list_elem_of_filter in Hin as [Hne _]. congruence.
    - done. }
  destruct (match next with Some n => Js.truthy n | None => false end).
  - by split.
  - unfold createNewChat. cbn [isCreating setActiveChatId activeChatId].
    destruct (isCreating st); [by split|]. cbn [negb andb].
    unfold Table.add. destruct (chats s1 !! newId) eqn:Hn.
    + by split.
    + cbn [fst snd showChat activeChatId]. split; [congruence|]. split; [|done].
      simpl. by rewrite lookup_insert_ne.
Qed.

Lemma deleted_chat_is_left_witness :
  activeChatId
    (performDelete "A" (Some [("A", Scenario.chat "Fox"); ("E", Scenario.chat "New Project")])
       false "N" 1700000000007
       {| activeChatId := Some "A"; currentView := ChatShown; isSidebarOpen := true;
          isCreating := false |} Examples.dialogue).1 ≠ Some "A".
Proof.
  apply (deleted_chat_is_left "A" [("A", Scenario.chat "Fox"); ("E", Scenario.chat "New Project")]
           false "N" 1700000000007
           {| activeChatId := Some "A"; currentView := ChatShown; isSidebarOpen := true;
              isCreating := false |} Examples.dialogue).
  discriminate.
Defined.
End ChatSelection.

Section Conversation.
Import cleanupService AppChat.
Variable blobToBase64 : Blob → string.

Lemma elem_of_join_imap {A B} (f : nat → A → list B) (l : list A) (y : B) :
  y ∈ mjoin (imap f l) ↔ ∃ i x, l !! i = Some x ∧ y ∈ f i x.
Proof.
  revert f. induction l as [|a l IH]; intros f; simpl.
  - split; [by intros ?%elem_of_nil | by intros (i & x & ? & _)].
  - rewrite elem_of_app, IH. split.
    + intros [Hy|(i & x & Hi & Hy)]; [by exists 0%nat, a | by exists (S i), x].
    + intros ([|i] & x & Hi & Hy); simpl in Hi.
      * injection Hi as ->. by left.
      * right. by exists i, x.
Qed.

Lemma texts_of_parts (f : nat → string * Message → list ConversationPart)
    (l : list (string * Message)) :
  (∀ i msg, omap textOf (f i msg)
            = if Js.truthy (text msg.2) then [text msg.2] else []) →
  omap textOf (mjoin (imap f l))
  = filter (λ t, Js.truthy t = true) ((λ msg, text msg.2) <$> l).
Proof.
  revert f. induction l as [|a l IH]; intros f Hf; [done|].
  cbn [imap mjoin list_join fmap list_fmap]. rewrite omap_app, Hf, filter_cons.
  rewrite IH by (intros; apply Hf).
  destruct (Js.truthy (text a.2)) eqn:Ht.
  - by rewrite decide_True.
  - by rewrite decide_False.
Qed.

Lemma omap_textOf_inline {A} (g : A → string) (h : A → string) (l : list A) :
  omap textOf ((λ a, InlineDataPart (g a) (h a)) <$> l) = [].
Proof. induction l as [|a l IH]; [done|]. simpl. exact IH. Qed.

(** X21.  What a generation request carries of the history.  The history
    is the messages of the chat, each once, oldest first, messages with the
    same timestamp in the order of their ids.  The text parts of the
    request are the texts of all messages of the chat, in the order of the
    history, none left out but the empty ones.  An image is carried only
    for a message among the last 8 of the history: every inline part is a
    stored image listed by such a message, and every stored image that such
    a message lists is carried. *)
Theorem request_history (chat : string) (s : Store) :
  let history := messagesOfChat chat s in
  let parts := conversationParts blobToBase64 chat s in
  (∀ j m, (j, m) ∈ history ↔ messages s !! j = Some m ∧ chatId m = chat)
  ∧ NoDup history.*1
  ∧ (∀ i j a b,
       (i < j)%nat → history !! i = Some a → history !! j = Some b →
       timestamp a.2 < timestamp b.2
       ∨ (timestamp a.2 = timestamp b.2 ∧ KeyOrder.compareKeys a.1 b.1 ≤ 0))
  ∧ omap textOf parts
    = filter (λ t, Js.truthy t = true) ((λ msg, text msg.2) <$> history)
  ∧ (∀ data mime,
       InlineDataPart data mime ∈ parts ↔
       ∃ i msg x img,
         history !! i = Some msg
         ∧ Z.of_nat (length history) - 8 ≤ Z.of_nat i
         ∧ lists msg.2 x ∧ images s !! x = Some img
         ∧ data = blobToBase64 (blob img) ∧ mime = mimeType img).
Proof.
  intros history parts.
  assert (Hperm : history ≡ₚ whereChatIdEquals chat (messages s)).
  { unfold history, messagesOfChat. by rewrite sort_Permutation, byPrimaryKey_Permutation. }
  split; [|split; [|split]].
  { intros j m. by rewrite Hperm, elem_of_whereChatIdEquals. }
  { rewrite Hperm. unfold whereChatIdEquals.
    eapply sublist_NoDup; [apply (NoDup_fst_map_to_list (messages s))|].
    apply fmap_sublist, sublist_filter. }
  { intros i j a b Hij Hi Hj.
    apply (StronglySorted_lookup_lt
             (KeyOrder.fieldThen (λ r : string * Message, timestamp r.2)
                                 (λ a b, KeyOrder.compareKeys a.1 b.1 ≤ 0))
             history i j a b); [|done..].
    apply sort_fieldThen, byPrimaryKey_sorted. }
  unfold parts, conversationParts. fold history. cbv zeta.
  set (start := Z.max 0 (Z.of_nat (length history) - IMAGE_HISTORY_LIMIT)).
  split.
  - apply texts_of_parts. intros i msg. unfold partsOfMessage.
    rewrite omap_app.
    assert (omap textOf
              match imageIds msg.2 with
              | Some ids =>
                  if bool_decide (start ≤ Z.of_nat i) && bool_decide (0 < length ids)%nat
                  then (λ imgBlob : string * ImageBlob,
                          InlineDataPart (blobToBase64 (blob imgBlob.2)) (mimeType imgBlob.2))
                       <$> KeyOrder.byPrimaryKey (Table.whereIdAnyOf ids (images s))
                  else []
              | None => []
              end = []) as ->.
    { destruct (imageIds msg.2); [|done]. destruct (_ && _); [|done].
      apply omap_textOf_inline. }
    rewrite app_nil_r. by destruct (Js.truthy (text msg.2)).
  - intros data mime. rewrite elem_of_join_imap. unfold partsOfMessage. split.
    + intros (i & msg & Hi & Hin). exists i, msg.
      apply elem_of_app in Hin as [Hin|Hin].
      { destruct (Js.truthy (text msg.2)); [|by apply elem_of_nil in Hin].
        by apply list_elem_of_singleton in Hin. }
      destruct (imageIds msg.2) as [ids|] eqn:Hids; [|by apply elem_of_nil in Hin].
      destruct (bool_decide (start ≤ Z.of_nat i)) eqn:Hs; [|by apply elem_of_nil in Hin].
      destruct (bool_decide (0 < length ids)%nat); [|by apply elem_of_nil in Hin].
      simpl in Hin. apply list_elem_of_fmap in Hin as ([x img] & [= -> ->] & Hin).
      rewrite byPrimaryKey_Permutation in Hin.
      apply elem_of_whereIdAnyOf in Hin as [Hx Himg].
      apply bool_decide_eq_true in Hs. unfold start, IMAGE_HISTORY_LIMIT in Hs.
      exists x, img. split_and!; [done | lia | by exists ids | done..].
    + intros (i & msg & x & img & Hi & Hw & (ids & Hids & Hx) & Himg & -> & ->).
      exists i, msg. split; [done|]. apply elem_of_app. right. rewrite Hids.
      rewrite bool_decide_eq_true_2 by (unfold start, IMAGE_HISTORY_LIMIT; lia).
      rewrite bool_decide_eq_true_2.
      2:{ destruct ids; [by apply elem_of_nil in Hx | simpl; lia]. }
      simpl. apply list_elem_of_fmap. exists (x, img). split; [done|].
      rewrite byPrimaryKey_Permutation. by apply elem_of_whereIdAnyOf.
Qed.
End Conversation.

Section StreamFacts.
Import ContentStream.
Variable createThumbnail : Blob → Blob.
Variable atob : string → option (list Byte.byte).

Lemma append_cons c a b : String c a +:+ b = String c (a +:+ b).
Proof. reflexivity. Qed.

Lemma append_nil_r a : a +:+ "" = a.
Proof. induction a as [|c a IH]; [done|]. by rewrite append_cons, IH. Qed.

Lemma append_assoc a b c : (a +:+ b) +:+ c = a +:+ (b +:+ c).
Proof. induction a as [|x a IH]; [done|]. by rewrite !append_cons, IH. Qed.

Lemma onPart_facts r part r' :
  onPart atob r part = Some r' →
  fullText r' = fullText r +:+ textRead part
  ∧ length (finalImages r')
    = (length (finalImages r) + if hasInlineData part then 1 else 0)%nat
  ∧ lastUsage r' = lastUsage r ∧ lastModelVersion r' = lastModelVersion r
  ∧ lastFinishReason r' = lastFinishReason r ∧ blocked r' = blocked r
  ∧ progress r' = progress r.
Proof.
  unfold onPart, textRead, hasInlineData.
  set (r1 := match partText part with Some _ => _ | None => _ end).
  assert (H1 : fullText r1 = fullText r +:+ default "" (partText part)
               ∧ finalImages r1 = finalImages r
               ∧ lastUsage r1 = lastUsage r ∧ lastModelVersion r1 = lastModelVersion r
               ∧ lastFinishReason r1 = lastFinishReason r ∧ blocked r1 = blocked r
               ∧ progress r1 = progress r).
  { unfold r1. destruct (partText part) as [t|]; simpl.
    - destruct (Js.truthy t) eqn:Ht; [done|].
      unfold Js.truthy in Ht. apply negb_false_iff, bool_decide_eq_true in Ht as ->.
      by rewrite append_nil_r.
    - by rewrite append_nil_r. }
  clearbody r1. destruct H1 as (Ht & Hi & Hu & Hv & Hf & Hb & Hp).
  destruct (inlineData part) as [d|].
  - destruct (base64ToBlob atob _ _) as [b|]; [|done]. intros [= <-]. simpl.
    rewrite length_app, Hi. simpl. done.
  - intros [= <-]. rewrite Hi. split_and!; try done; lia.
Qed.

Lemma onParts_facts ps : ∀ r r',
  onParts atob r ps = Some r' →
  fullText r' = fullText r +:+ joined (textRead <$> ps)
  ∧ length (finalImages r')
    = (length (finalImages r) + length (filter (λ p, hasInlineData p = true) ps))%nat
  ∧ lastUsage r' = lastUsage r ∧ lastModelVersion r' = lastModelVersion r
  ∧ lastFinishReason r' = lastFinishReason r ∧ blocked r' = blocked r
  ∧ progress r' = progress r.
Proof.
  induction ps as [|part ps IH]; intros r r'; cbn [onParts].
  - intros [= <-]. simpl. rewrite append_nil_r. split_and!; try done; lia.
  - destruct (onPart atob r part) as [r1|] eqn:E1; [|done]. intros E.
    destruct (onPart_facts _ _ _ E1) as (Ht1 & Hi1 & Hu1 & Hv1 & Hf1 & Hb1 & Hp1).
    destruct (IH _ _ E) as (Ht & Hi & Hu & Hv & Hf & Hb & Hp).
    rewrite Ht, Hi, Hu, Hv, Hf, Hb, Hp, Ht1, Hi1, Hu1, Hv1, Hf1, Hb1, Hp1.
    split_and!; try done.
    + rewrite fmap_cons. simpl. by rewrite append_assoc.
    + destruct (hasInlineData part) eqn:Hh.
      * rewrite filter_cons_True by done. simpl. lia.
      * rewrite filter_cons_False by (simpl; congruence). lia.
Qed.

Lemma onChunk_facts aborted r chunk r' :
  onChunk atob r chunk = Some r' →
  fullText r' = fullText r +:+ joined (textRead <$> partsRead [Arrives aborted chunk])
  ∧ length (finalImages r')
    = (length (finalImages r)
       + length (filter (λ p, hasInlineData p = true) (partsRead [Arrives aborted chunk])))%nat
  ∧ blocked r' = (reportsBlocked (Arrives aborted chunk) || blocked r)
  ∧ progress r' = progress r ++ [(fullText r', "", lastUsage r')].
Proof.
  unfold onChunk, partsRead, reportsBlocked. cbv zeta. simpl. rewrite app_nil_r.
  destruct (firstCandidate chunk) as [c|].
  - destruct (parts c) as [ps|]; simpl.
    + destruct (onParts atob _ ps) as [r2|] eqn:E; [|done]. intros [= <-]. simpl.
      destruct (onParts_facts _ _ _ E) as (Ht & Hi & _ & _ & _ & Hb & Hp).
      simpl in *. rewrite Ht, Hi, Hb, Hp. split_and!; try done.
      destruct (safetyRatings c) as [rs|]; [|done]. by destruct (existsb _ rs).
    + intros [= <-]. simpl. rewrite append_nil_r. split_and!; try done; try lia.
      destruct (safetyRatings c) as [rs|]; [|done]. by destruct (existsb _ rs).
  - intros [= <-]. simpl. rewrite append_nil_r. split_and!; try done; lia.
Qed.

Lemma partsRead_cons e stream : partsRead (e :: stream) = partsRead [e] ++ partsRead stream.
Proof. unfold partsRead. simpl. by rewrite app_nil_r. Qed.

Lemma joined_app l1 l2 : joined (l1 ++ l2) = joined l1 +:+ joined l2.
Proof.
  induction l1 as [|a l1 IH]; [done|]. simpl. unfold joined in *. simpl.
  by rewrite IH, append_assoc.
Qed.

Lemma consume_facts stream : ∀ r0 result reports,
  consume createThumbnail atob r0 stream = Done result reports →
  undisturbed stream
  ∧ text result = fullText r0 +:+ joined (textRead <$> partsRead stream)
  ∧ thoughts result = ""
  ∧ thumbnails result = createThumbnail <$> images result
  ∧ length (images result)
    = (length (finalImages r0)
       + length (filter (λ p, hasInlineData p = true) (partsRead stream)))%nat
  ∧ safetyBlocked result = (existsb reportsBlocked stream || blocked r0)
  ∧ length reports = (length (progress r0) + length stream)%nat
  ∧ (stream ≠ [] → last reports = Some (text result, "", usage result)).
Proof.
  induction stream as [|e stream IH]; intros r0 result reports; cbn [consume].
  - intros [= <- <-]. simpl. rewrite append_nil_r. split_and!; try done; try lia.
    + by intros e ?%elem_of_nil.
  - destruct e as [[] chunk|]; [done| |done].
    destruct (onChunk atob r0 chunk) as [r1|] eqn:E1; [|done]. intros E.
    destruct (onChunk_facts false _ _ _ E1) as (Ht1 & Hi1 & Hb1 & Hp1).
    destruct (IH _ _ _ E) as (Hund & Ht & Hth & Htn & Hi & Hb & Hl & Hlast).
    split_and!; try done.
    + intros e [->|Hin]%elem_of_cons; [by exists chunk | by apply Hund].
    + rewrite Ht, Ht1, (partsRead_cons _ stream), fmap_app, joined_app.
      by rewrite append_assoc.
    + rewrite Hi, Hi1, (partsRead_cons _ stream), filter_app, length_app. lia.
    + rewrite Hb, Hb1. cbn [existsb]. by destruct (reportsBlocked _), (existsb _ stream).
    + rewrite Hl, Hp1, length_app. simpl. lia.
    + intros _. destruct stream as [|e' stream'].
      * cbn [consume] in E. injection E as <- <-. rewrite Hp1. by rewrite last_snoc.
      * by apply Hlast.
Qed.

Lemma onParts_total ps : ∀ r,
  (∀ p d, p ∈ ps → inlineData p = Some d → is_Some (atob (data d))) →
  is_Some (onParts atob r ps).
Proof.
  induction ps as [|part ps IH]; intros r Hdec; cbn [onParts]; [done|].
  assert (is_Some (onPart atob r part)) as [r1 ->].
  { unfold onPart. destruct (inlineData part) as [d|] eqn:Ed; [|done].
    destruct (Hdec part d) as [bytes Hb]; [apply list_elem_of_here|done|].
    unfold base64ToBlob. by rewrite Hb. }
  apply IH. intros p d Hp. apply Hdec. by apply elem_of_cons; right.
Qed.

Lemma consume_total stream : ∀ r0,
  undisturbed stream →
  (∀ p d, p ∈ partsRead stream → inlineData p = Some d → is_Some (atob (data d))) →
  ∃ result reports, consume createThumbnail atob r0 stream = Done result reports.
Proof.
  induction stream as [|e stream IH]; intros r0 Hund Hdec; cbn [consume]; [by eauto|].
  destruct (Hund e) as [chunk ->]; [apply list_elem_of_here|].
  assert (is_Some (onChunk atob r0 chunk)) as [r1 ->].
  { unfold onChunk. cbv zeta.
    destruct (firstCandidate chunk) as [c|] eqn:Ec; [|done].
    destruct (parts c) as [ps|] eqn:Eps; [|done].
    match goal with |- context [onParts atob ?r ps] =>
      destruct (onParts_total ps r) as [r2 ->]; [|done] end.
    intros p d Hp. apply Hdec. rewrite partsRead_cons. apply elem_of_app; left.
    unfold partsRead. simpl. by rewrite Ec, Eps, app_nil_r. }
  apply IH.
  - intros e He. apply Hund. by apply elem_of_cons; right.
  - intros p d Hp. apply Hdec. rewrite partsRead_cons. by apply elem_of_app; right.
Qed.

(** X22.  What a finished generation returns.  Without an API key the
    call rejects before it reads anything.  When it resolves, every chunk
    arrived with the signal not aborted and nothing failed; the text is the
    texts of the parts of the first candidate of every chunk, joined in
    order; there is one image per part with inline data and one thumbnail
    per image, in the same order; the result is flagged as blocked exactly
    when some first candidate had a blocked rating; progress was reported
    once per chunk, and the last report carried the final text.  And the
    call does resolve when the key is not empty, every chunk arrives with
    the signal not aborted, and the inline data of the parts read decodes. *)
Theorem finished_generation (apiKey : string) (stream : list StreamEvent) :
  (apiKey = "" →
     generateImageContentStream createThumbnail atob apiKey stream = OtherError)
  ∧ (∀ result reports,
       generateImageContentStream createThumbnail atob apiKey stream
       = Done result reports →
       undisturbed stream
       ∧ text result = joined (textRead <$> partsRead stream)
       ∧ thumbnails result = createThumbnail <$> images result
       ∧ length (images result)
         = length (filter (λ p, hasInlineData p = true) (partsRead stream))
       ∧ safetyBlocked result = existsb reportsBlocked stream
       ∧ length reports = length stream
       ∧ (stream ≠ [] → last reports = Some (text result, "", usage result)))
  ∧ (apiKey ≠ "" → undisturbed stream →
     (∀ p d, p ∈ partsRead stream → inlineData p = Some d → is_Some (atob (data d))) →
     ∃ result reports,
       generateImageContentStream createThumbnail atob apiKey stream
       = Done result reports).
Proof.
  unfold generateImageContentStream. split; [by intros ->|]. split; last first.
  { intros Hk Hund Hdec. unfold Js.truthy.
    rewrite bool_decide_false by done. simpl. by apply consume_total. }
  intros result reports. destruct (Js.truthy apiKey); [|done]. intros E.
  destruct (consume_facts _ _ _ _ E) as (Hund & Ht & _ & Htn & Hi & Hb & Hl & Hlast).
  simpl in *. split_and!; try done. by rewrite Hb, orb_false_r.
Qed.
End StreamFacts.

Section ClearRecent.
Import PromptTable PromptHistory.

(** X23.  Clearing the recent prompts removes every recent prompt and
    nothing else: a key holds afterwards what it held before unless its
    prompt was a recent one, no recent prompt is listed any more, and the
    chats, the messages and the images are as they were. *)
Theorem clear_recent_keeps_saved (s : Store) :
  let s' := handleClearRecent s in
  (∀ k, prompts s' !! k
        = match prompts s !! k with
          | Some p => if decide (prompt_type p = recent) then None else Some p
          | None => None
          end)
  ∧ recentPrompts s' = []
  ∧ chats s' = chats s ∧ messages s' = messages s ∧ images s' = images s.
Proof.
  cbv zeta.
  assert (Hk : ∀ k, prompts (handleClearRecent s) !! k
        = match prompts s !! k with
          | Some p => if decide (prompt_type p = recent) then None else Some p
          | None => None
          end).
  { intros k. unfold handleClearRecent, bulkDelete. simpl. rewrite lookup_foldl_delete.
    destruct (decide (k ∈ (whereTypeEquals recent (prompts s)).*1)) as [Hin|Hn].
    - apply list_elem_of_fmap in Hin as ([k' p] & -> & Hin).
      apply elem_of_whereTypeEquals in Hin as [Hp Ht]. simpl. rewrite Hp.
      by rewrite decide_True.
    - destruct (prompts s !! k) as [p|] eqn:Hp; [|done].
      destruct (decide (prompt_type p = recent)) as [Ht|]; [|done].
      destruct Hn. apply list_elem_of_fmap. exists (k, p). split; [done|].
      by apply elem_of_whereTypeEquals. }
  split_and!; try done.
  unfold recentPrompts.
  destruct (whereTypeEquals recent (prompts (handleClearRecent s))) as [|[k p] l] eqn:E;
    [done|].
  assert (Hin : (k, p) ∈ whereTypeEquals recent (prompts (handleClearRecent s)))
    by (rewrite E; apply list_elem_of_here).
  apply elem_of_whereTypeEquals in Hin as [Hp Ht]. rewrite Hk in Hp.
  destruct (prompts s !! k) as [q|]; [|done].
  destruct (decide (prompt_type q = recent)) as [|Hq]; [done|].
  injection Hp as ->. done.
Qed.
End ClearRecent.

